(** * The RAC index reader of lib/rac/reader.go

    A shallow embedding of the Go reader for Random Access Compressed
    containers, followed by the properties of the reader that the
    natural-language specification states.

    Conventions of the embedding.
    - Go's [byte] is [Byte.byte]; [u8] gives its value in [0, 256).
    - Go's [int64] is [Z] with the two's complement wrap-around written out
      ([wrap64], [add64], [sub64]).  Go's [int], [int32] and [uint8] values
      that index the node never leave [0, 4096), so they are plain [Z].
    - A slice [b[k:]] is [skipn k b]; [b[lo:hi]] is [firstn (hi-lo) (skipn lo b)].
    - A method on [*Reader] becomes a function from the reader to its
      results paired with the reader after the call.
    - The two unbounded [for] loops ([NextChunk] and [resolveSeekPosition])
      take a fuel argument; [OutOfFuel] says the loop was cut, [Panic] that
      the source reached its [panic]. *)

From Stdlib Require Import ZArith List Bool Lia.
From Stdlib Require Import Init.Byte Strings.Byte.
Import ListNotations.

Local Open Scope Z_scope.

(** ** Bytes, slices and fixed-width integers *)

Definition u8 (b : byte) : Z := Z.of_N (Byte.to_N b).

(** [b[i]] for a byte slice. *)
Definition idx (b : list byte) (i : Z) : Z := u8 (nth (Z.to_nat i) b x00).

(** [b[k:]] and [b[lo:hi]]. *)
Definition slice_from (b : list byte) (k : Z) : list byte := skipn (Z.to_nat k) b.
Definition slice (b : list byte) (lo hi : Z) : list byte :=
  firstn (Z.to_nat (hi - lo)) (skipn (Z.to_nat lo) b).

Definition wrap64 (z : Z) : Z := (z + 2 ^ 63) mod 2 ^ 64 - 2 ^ 63.
Definition add64 (a b : Z) : Z := wrap64 (a + b).
Definition sub64 (a b : Z) : Z := wrap64 (a - b).

(** [func u48LE(b []byte) int64].  The source's early bounds check [b[7]]
    makes a slice shorter than eight bytes a run-time panic; every call in
    this file passes a slice of the 4096 byte node that starts at or below
    offset 4088. *)
Definition u48LE (b : list byte) : Z :=
  let u :=
    Z.lor (Z.lor (Z.lor (Z.lor (Z.lor (Z.lor (Z.lor
      (idx b 0)
      (Z.shiftl (idx b 1) 8))
      (Z.shiftl (idx b 2) 16))
      (Z.shiftl (idx b 3) 24))
      (Z.shiftl (idx b 4) 32))
      (Z.shiftl (idx b 5) 40))
      (Z.shiftl (idx b 6) 48))
      (Z.shiftl (idx b 7) 56) in
  Z.land u 0xFFFFFFFFFFFF.

(** ** hash/crc32

    [crc32.ChecksumIEEE] of Go's standard library: the reflected CRC-32 with
    polynomial 0xEDB88320, initial value and final complement 0xFFFFFFFF. *)

Definition crc32_shift (c : Z) : Z :=
  if Z.testbit c 0 then Z.lxor (Z.shiftr c 1) 0xEDB88320 else Z.shiftr c 1.

Definition crc32_update (c : Z) (b : byte) : Z :=
  Nat.iter 8 crc32_shift (Z.lxor c (u8 b)).

Definition ChecksumIEEE (p : list byte) : Z :=
  Z.lxor (fold_left crc32_update p 0xFFFFFFFF) 0xFFFFFFFF.

(** ** Package-level declarations *)

(** Modelled from the spec: the package constant [magic], declared in a file
    of package rac that is not part of the sources at hand; the spec gives
    the magic bytes as 0x72 0xC3 0x63. *)
Definition magic : list byte := [x72; xc3; x63].

(** Modelled from the spec: the type [Codec], declared beside [magic]; the
    node stores the codec in one byte, so a codec is a value in [0, 256). *)
Definition Codec : Type := Z.

Inductive error : Type :=
| errInvalidIndexNode        (* rac: invalid index node *)
| errInvalidReadSeeker       (* rac: invalid ReadSeeker *)
| errInvalidCompressedSize   (* rac: invalid CompressedSize *)
| errUnsupportedVersion      (* rac: unsupported RAC file version *)
| errMissingMagic            (* rac: invalid input: missing magic bytes at the start of file *)
| errMissingRootNode         (* rac: invalid input: missing index root node *)
| errInconsistentArity       (* rac: internal error: inconsistent arity *)
| errNegativePosition        (* rac: seek: negative position *)
| errSeek                    (* the ReadSeeker's Seek refused the offset *)
| io_EOF                     (* io.EOF *)
| io_ErrUnexpectedEOF.       (* io.ErrUnexpectedEOF *)

Definition error_eqb (a b : error) : bool :=
  match a, b with
  | errInvalidIndexNode, errInvalidIndexNode
  | errInvalidReadSeeker, errInvalidReadSeeker
  | errInvalidCompressedSize, errInvalidCompressedSize
  | errUnsupportedVersion, errUnsupportedVersion
  | errMissingMagic, errMissingMagic
  | errMissingRootNode, errMissingRootNode
  | errInconsistentArity, errInconsistentArity
  | errNegativePosition, errNegativePosition
  | errSeek, errSeek
  | io_EOF, io_EOF
  | io_ErrUnexpectedEOF, io_ErrUnexpectedEOF => true
  | _, _ => false
  end.

(** ** readAt

    The [io.ReadSeeker] is an in-memory file: [Seek(offset, io.SeekStart)]
    fails on a negative offset and otherwise succeeds (also past the end);
    [io.ReadFull] copies what the file has from there into [p[:n]] and
    returns [nil] when it filled the [n] bytes, [io.EOF] when it read none and
    [io.ErrUnexpectedEOF] when it read some.  The [ReadAt] branch of the
    source is dead ([ok && false]).  [readAt file p n offset] stands for
    [readAt(r, p[:n], offset)] and returns the error and the array behind
    [p] after the call. *)
Definition readAt (file : list byte) (p : list byte) (n : Z) (offset : Z)
  : option error * list byte :=
  if offset <? 0 then (Some errSeek, p)
  else
    let got := firstn (Z.to_nat n) (skipn (Z.to_nat offset) file) in
    let p' := got ++ skipn (length got) p in
    if (Z.of_nat (length got) =? n) then (None, p')
    else if (length got =? 0)%nat then (Some io_EOF, p')
    else (Some io_ErrUnexpectedEOF, p').

(** [func bitwiseSubset(outer Codec, inner Codec) bool] *)
Definition bitwiseSubset (outer inner : Codec) : bool :=
  outer =? Z.lor outer inner.

(** ** Range and Chunk *)

Record Range : Type := mkRange { low : Z; high : Z }.

Definition Empty (r : Range) : bool := low r =? high r.
Definition Size (r : Range) : Z := sub64 (high r) (low r).

Record Chunk : Type := mkChunk {
  DRange : Range;
  CPrimary : Range;
  CSecondary : Range;
  CTertiary : Range;
  STag : Z;
  TTag : Z;
  ChunkCodec : Codec
}.

(** The zero value [Chunk{}]. *)
Definition noChunk : Chunk :=
  mkChunk (mkRange 0 0) (mkRange 0 0) (mkRange 0 0) (mkRange 0 0) 0 0 0.

(** [func nodeSize(arity uint8) int] *)
Definition nodeSize (arity : Z) : Z := 16 * arity + 16.

(** ** rNode: the 4096 byte node buffer and its accessors *)

Definition rNode : Type := list byte.

Definition arity (b : rNode) : Z := idx b 3.
Definition codec (b : rNode) : Codec := idx b (8 * idx b 3 + 7).
Definition cPtrMax (b : rNode) : Z := u48LE (slice_from b (16 * idx b 3 + 8)).
Definition dPtrMax (b : rNode) : Z := u48LE (slice_from b (8 * idx b 3)).
Definition version (b : rNode) : Z := idx b (16 * idx b 3 + 14).

Definition cLen (b : rNode) (i : Z) : Z :=
  let base := 8 * idx b 3 + 14 in
  idx b (8 * i + base).

Definition cOff (b : rNode) (i : Z) (cBias : Z) : Z :=
  let base := 8 * idx b 3 + 8 in
  add64 cBias (u48LE (slice_from b (8 * i + base))).

Definition cOffRange (b : rNode) (i : Z) (cBias : Z) : Range :=
  let m := add64 cBias (cPtrMax b) in
  if i >=? arity b then mkRange m m
  else
    let cOff_ := cOff b i cBias in
    let cLen_ := cLen b i in
    let m :=
      if negb (cLen_ =? 0) then
        let n := add64 cOff_ (wrap64 (cLen_ * 1024)) in
        if m >? n then n else m
      else m in
    mkRange cOff_ m.

Definition dOff (b : rNode) (i : Z) (dBias : Z) : Z :=
  if i =? 0 then dBias
  else add64 dBias (u48LE (slice_from b (8 * i))).

Definition dOffRange (b : rNode) (i : Z) (dBias : Z) : Range :=
  mkRange (dOff b i dBias) (dOff b (i + 1) dBias).

Definition dSize (b : rNode) (i : Z) : Z :=
  let x := if i >? 0 then u48LE (slice_from b (8 * i)) else 0 in
  sub64 (u48LE (slice_from b (8 * i + 8))) x.

Definition sTag (b : rNode) (i : Z) : Z :=
  let base := 8 * idx b 3 + 15 in
  idx b (8 * i + base).

Definition tTag (b : rNode) (i : Z) : Z := idx b (8 * i + 7).

Definition isLeaf (b : rNode) (i : Z) : bool := negb (idx b (8 * i + 7) =? 0xFE).

(** The loop of [findChunkContaining], from slot [i] with [n] slots left;
    [None] is the source's [panic]. *)
Fixpoint findChunkLoop (b : rNode) (dOff_ dBias : Z) (i : Z) (n : nat) : option Z :=
  match n with
  | O => None
  | S n' =>
      if dOff_ <? dOff b (i + 1) dBias then Some i
      else findChunkLoop b dOff_ dBias (i + 1) n'
  end.

Definition findChunkContaining (b : rNode) (dOff_ dBias : Z) : option Z :=
  findChunkLoop b dOff_ dBias 0 (Z.to_nat (arity b)).

Definition chunk (b : rNode) (i : Z) (cBias dBias : Z) : Chunk :=
  let sTag_ := sTag b i in
  let tTag_ := tTag b i in
  mkChunk (dOffRange b i dBias)
          (cOffRange b i cBias)
          (cOffRange b sTag_ cBias)
          (cOffRange b tTag_ cBias)
          sTag_ tTag_ (codec b).

(** The loops of [valid]: each returns [false] where the source returns
    [false] from inside the loop, and [true] when the loop runs to its end. *)

(** [for i := 0; i < arity; i++]: reserved bytes and TTag values. *)
Fixpoint validTagsLoop (b : rNode) (i : Z) (n : nat) : bool :=
  match n with
  | O => true
  | S n' =>
      if negb (idx b (8 * i + 6) =? 0) then false
      else
        let tTag_ := idx b (8 * i + 7) in
        if (0xC0 <=? tTag_) && (tTag_ <? 0xFE) then false
        else validTagsLoop b (i + 1) n'
  end.

(** [for i := 2; i <= arity; i++]: the DPtr values are non-decreasing. *)
Fixpoint validDPtrLoop (b : rNode) (prev : Z) (i : Z) (n : nat) : bool :=
  match n with
  | O => true
  | S n' =>
      let curr := u48LE (slice_from b (8 * i)) in
      if curr <? prev then false
      else validDPtrLoop b curr (i + 1) n'
  end.

(** [for i := 0; i < arity; i++]: no CPtr value exceeds CPtrMax. *)
Fixpoint validCPtrLoop (b : rNode) (base cPtrMax_ : Z) (i : Z) (n : nat) : bool :=
  match n with
  | O => true
  | S n' =>
      let cPtr := u48LE (slice_from b (8 * i + base)) in
      if cPtr >? cPtrMax_ then false
      else validCPtrLoop b base cPtrMax_ (i + 1) n'
  end.

(** The 16 bit value the checksum bytes are compared with:
    [checksum ^= checksum >> 16], of which [valid] uses the two low bytes. *)
Definition foldedChecksum (b : rNode) (size : Z) : Z :=
  let checksum := ChecksumIEEE (slice b 6 size) in
  Z.lxor checksum (Z.shiftr checksum 16).

Definition valid (b : rNode) : bool :=
  if negb (idx b 0 =? idx magic 0) || negb (idx b 1 =? idx magic 1)
     || negb (idx b 2 =? idx magic 2) || (idx b 3 =? 0) then false
  else
    let arity_ := idx b 3 in
    let size := 16 * arity_ + 16 in
    if negb (idx b 3 =? idx b (size - 1)) then false
    else if negb (validTagsLoop b 0 (Z.to_nat arity_)) then false
    else if negb (idx b (8 * arity_ + 6) =? 0) then false
    else if idx b (8 * arity_ + 7) =? 0 then false
    else
      let prev := u48LE (slice_from b (8 * 1)) in
      if negb (validDPtrLoop b prev 2 (Z.to_nat (arity_ - 1))) then false
      else
        let base := 8 * arity_ + 8 in
        let cPtrMax_ := u48LE (slice_from b (size - 8)) in
        if negb (validCPtrLoop b base cPtrMax_ 0 (Z.to_nat arity_)) then false
        else if idx b (16 * arity_ + 14) =? 0 then false
        else
          let checksum := foldedChecksum b size in
          if negb (idx b 4 =? checksum mod 256)
             || negb (idx b 5 =? Z.shiftr checksum 8 mod 256) then false
          else true.

(** ** Reader *)

Record Reader : Type := mkReader {
  ReadSeeker : option (list byte);   (* nil is [None] *)
  CompressedSize : Z;
  initialized : bool;
  rootNodeArity : Z;
  needToResolveSeekPosition : bool;
  err : option error;
  decompressedSize : Z;
  rootNodeCOffset : Z;
  seekPosition : Z;
  nextChunk : Z;
  currNodeCBias : Z;
  currNodeDBias : Z;
  currNode : rNode
}.

(** Field assignments. *)
Definition set_initialized (v : bool) (r : Reader) : Reader :=
  mkReader (ReadSeeker r) (CompressedSize r) v (rootNodeArity r)
    (needToResolveSeekPosition r) (err r) (decompressedSize r) (rootNodeCOffset r)
    (seekPosition r) (nextChunk r) (currNodeCBias r) (currNodeDBias r) (currNode r).
Definition set_rootNodeArity (v : Z) (r : Reader) : Reader :=
  mkReader (ReadSeeker r) (CompressedSize r) (initialized r) v
    (needToResolveSeekPosition r) (err r) (decompressedSize r) (rootNodeCOffset r)
    (seekPosition r) (nextChunk r) (currNodeCBias r) (currNodeDBias r) (currNode r).
Definition set_needToResolveSeekPosition (v : bool) (r : Reader) : Reader :=
  mkReader (ReadSeeker r) (CompressedSize r) (initialized r) (rootNodeArity r)
    v (err r) (decompressedSize r) (rootNodeCOffset r)
    (seekPosition r) (nextChunk r) (currNodeCBias r) (currNodeDBias r) (currNode r).
Definition set_err (v : option error) (r : Reader) : Reader :=
  mkReader (ReadSeeker r) (CompressedSize r) (initialized r) (rootNodeArity r)
    (needToResolveSeekPosition r) v (decompressedSize r) (rootNodeCOffset r)
    (seekPosition r) (nextChunk r) (currNodeCBias r) (currNodeDBias r) (currNode r).
Definition set_decompressedSize (v : Z) (r : Reader) : Reader :=
  mkReader (ReadSeeker r) (CompressedSize r) (initialized r) (rootNodeArity r)
    (needToResolveSeekPosition r) (err r) v (rootNodeCOffset r)
    (seekPosition r) (nextChunk r) (currNodeCBias r) (currNodeDBias r) (currNode r).
Definition set_rootNodeCOffset (v : Z) (r : Reader) : Reader :=
  mkReader (ReadSeeker r) (CompressedSize r) (initialized r) (rootNodeArity r)
    (needToResolveSeekPosition r) (err r) (decompressedSize r) v
    (seekPosition r) (nextChunk r) (currNodeCBias r) (currNodeDBias r) (currNode r).
Definition set_seekPosition (v : Z) (r : Reader) : Reader :=
  mkReader (ReadSeeker r) (CompressedSize r) (initialized r) (rootNodeArity r)
    (needToResolveSeekPosition r) (err r) (decompressedSize r) (rootNodeCOffset r)
    v (nextChunk r) (currNodeCBias r) (currNodeDBias r) (currNode r).
Definition set_nextChunk (v : Z) (r : Reader) : Reader :=
  mkReader (ReadSeeker r) (CompressedSize r) (initialized r) (rootNodeArity r)
    (needToResolveSeekPosition r) (err r) (decompressedSize r) (rootNodeCOffset r)
    (seekPosition r) v (currNodeCBias r) (currNodeDBias r) (currNode r).
Definition set_currNodeCBias (v : Z) (r : Reader) : Reader :=
  mkReader (ReadSeeker r) (CompressedSize r) (initialized r) (rootNodeArity r)
    (needToResolveSeekPosition r) (err r) (decompressedSize r) (rootNodeCOffset r)
    (seekPosition r) (nextChunk r) v (currNodeDBias r) (currNode r).
Definition set_currNodeDBias (v : Z) (r : Reader) : Reader :=
  mkReader (ReadSeeker r) (CompressedSize r) (initialized r) (rootNodeArity r)
    (needToResolveSeekPosition r) (err r) (decompressedSize r) (rootNodeCOffset r)
    (seekPosition r) (nextChunk r) (currNodeCBias r) v (currNode r).
Definition set_currNode (v : rNode) (r : Reader) : Reader :=
  mkReader (ReadSeeker r) (CompressedSize r) (initialized r) (rootNodeArity r)
    (needToResolveSeekPosition r) (err r) (decompressedSize r) (rootNodeCOffset r)
    (seekPosition r) (nextChunk r) (currNodeCBias r) (currNodeDBias r) v.

(** A Reader as the caller makes it: the two exported fields set, every
    other field at its zero value. *)
Definition newReader (rs : option (list byte)) (compressedSize : Z) : Reader :=
  mkReader rs compressedSize false 0 false None 0 0 0 0 0 0 (repeat x00 4096).

(** [r.err = e; return r.err] *)
Definition latch (e : error) (r : Reader) : option error * Reader :=
  let r := set_err (Some e) r in (err r, r).

(** The file behind [r.ReadSeeker].  [checkParameters] latches an error for a
    nil ReadSeeker before any read, so the default is never read from. *)
Definition theFile (r : Reader) : list byte :=
  match ReadSeeker r with Some f => f | None => [] end.

(** [readAt(r.ReadSeeker, r.currNode[:n], offset)] *)
Definition readNode (n offset : Z) (r : Reader) : option error * Reader :=
  let '(e, p) := readAt (theFile r) (currNode r) n offset in
  (e, set_currNode p r).

Definition checkParameters (r : Reader) : option error * Reader :=
  match ReadSeeker r with
  | None => latch errInvalidReadSeeker r
  | Some _ =>
      if CompressedSize r <? 32 then latch errInvalidCompressedSize r
      else (None, r)
  end.

Definition load (cOffset : Z) (arity_ : Z) (r : Reader) : option error * Reader :=
  if arity_ =? 0 then latch errInconsistentArity r
  else
    let size := nodeSize arity_ in
    match readNode size cOffset r with
    | (Some e, r) => latch e r
    | (None, r) => (None, r)
    end.

(** [CompressedSize] is at least 32 when this runs and [size] at most 4096,
    so [r.CompressedSize - size] does not wrap. *)
Definition tryRootNode (arity_ : Z) (fromEnd : bool) (r : Reader)
  : bool * option error * Reader :=
  if arity_ =? 0 then (false, None, r)
  else
    let size := nodeSize arity_ in
    if CompressedSize r <? size then (false, None, r)
    else
      let cOffset := if fromEnd then CompressedSize r - size else 0 in
      match load cOffset arity_ r with
      | (Some e, r) => (false, Some e, r)
      | (None, r) =>
          if negb (valid (currNode r)) then (false, None, r)
          else if negb (cPtrMax (currNode r) =? CompressedSize r) then (false, None, r)
          else
            let r := set_needToResolveSeekPosition true r in
            let r := set_rootNodeCOffset cOffset r in
            let r := set_rootNodeArity arity_ r in
            let r := set_decompressedSize (dPtrMax (currNode r)) r in
            (true, None, r)
      end.

Definition findRootNode (r : Reader) : option error * Reader :=
  (* Look at the start of the compressed file. *)
  match readNode 4 0 r with
  | (Some e, r) => latch e r
  | (None, r) =>
      if negb (idx (currNode r) 0 =? idx magic 0)
         || negb (idx (currNode r) 1 =? idx magic 1)
         || negb (idx (currNode r) 2 =? idx magic 2)
      then latch errMissingMagic r
      else
        match tryRootNode (idx (currNode r) 3) false r with
        | (_, Some e, r) => (Some e, r)
        | (true, None, r) => (None, r)
        | (false, None, r) =>
            (* Look at the end of the compressed file. *)
            match readNode 1 (CompressedSize r - 1) r with
            | (Some e, r) => latch e r
            | (None, r) =>
                match tryRootNode (idx (currNode r) 0) true r with
                | (_, Some e, r) => (Some e, r)
                | (true, None, r) => (None, r)
                | (false, None, r) => (Some errMissingRootNode, r)
                end
            end
        end
  end.

Definition initialize (r : Reader) : option error * Reader :=
  match err r with
  | Some e => (Some e, r)
  | None =>
      if initialized r then (None, r)
      else
        let r := set_initialized true r in
        match checkParameters r with
        | (Some e, r) => (Some e, r)
        | (None, r) =>
            match findRootNode r with
            | (Some e, r) => (Some e, r)
            | (None, r) =>
                if negb (version (currNode r) =? 1) then latch errUnsupportedVersion r
                else (None, r)
            end
        end
  end.

Definition loadAndValidate (cOffset : Z) (parentCodec : Codec) (parentVersion : Z)
    (parentCOffMax childCBias childDSize : Z) (r : Reader) : option error * Reader :=
  if (cOffset <? 0) || (CompressedSize r - 4 <? cOffset) then latch errInvalidIndexNode r
  else
    match readNode 4 cOffset r with
    | (Some e, r) => latch e r
    | (None, r) =>
        let arity_ := idx (currNode r) 3 in
        if arity_ =? 0 then latch errInvalidIndexNode r
        else
          let size := nodeSize arity_ in
          if (CompressedSize r <? size) || (CompressedSize r - size <? cOffset)
          then latch errInvalidIndexNode r
          else
            match load cOffset arity_ r with
            | (Some e, r) => (Some e, r)
            | (None, r) =>
                if negb (valid (currNode r)) then latch errInvalidIndexNode r
                else
                  (* Validate the parent and child codec, version, COffMax and DOffMax. *)
                  let childVersion := version (currNode r) in
                  if negb (bitwiseSubset parentCodec (codec (currNode r)))
                     || (parentVersion <? childVersion)
                     || (parentCOffMax <? add64 childCBias (cPtrMax (currNode r)))
                     || negb (childDSize =? dPtrMax (currNode r))
                  then latch errInvalidIndexNode r
                  else (None, r)
            end
    end.

Definition DecompressedSize (r : Reader) : Z * option error * Reader :=
  match initialize r with
  | (Some e, r) => (0, Some e, r)
  | (None, r) => (decompressedSize r, None, r)
  end.

Definition SeekToChunkContaining (dSpaceOffset : Z) (r : Reader) : option error * Reader :=
  match initialize r with
  | (Some e, r) => (Some e, r)
  | (None, r) =>
      if dSpaceOffset <? 0 then latch errNegativePosition r
      else
        let r := set_needToResolveSeekPosition true r in
        let r := set_seekPosition dSpaceOffset r in
        (None, r)
  end.

(** What a loop that may not end gives back. *)
Inductive outcome (A : Type) : Type :=
| Done (a : A)
| Panic
| OutOfFuel.
Arguments Done {A} a.
Arguments Panic {A}.
Arguments OutOfFuel {A}.

(** The [for] loop of [resolveSeekPosition], entered with the local
    variables [cBias] and [dBias]. *)
Fixpoint walk (fuel : nat) (cBias dBias : Z) (r : Reader)
  : outcome (option error * Reader) :=
  match fuel with
  | O => OutOfFuel
  | S fuel' =>
      match findChunkContaining (currNode r) (seekPosition r) dBias with
      | None => Panic
      | Some i =>
          if isLeaf (currNode r) i then
            let r := set_nextChunk i r in
            let r := set_currNodeCBias cBias r in
            let r := set_currNodeDBias dBias r in
            Done (None, r)
          else
            let parentCodec := codec (currNode r) in
            let parentVersion := version (currNode r) in
            let parentCOffMax := add64 cBias (cPtrMax (currNode r)) in
            let childCOffset := cOff (currNode r) i cBias in
            let childCBias :=
              let sTag_ := sTag (currNode r) i in
              if sTag_ <? arity (currNode r) then cOff (currNode r) sTag_ cBias
              else cBias in
            let childDBias := dOff (currNode r) i dBias in
            let childDSize := dSize (currNode r) i in
            match loadAndValidate childCOffset parentCodec parentVersion
                    parentCOffMax childCBias childDSize r with
            | (Some e, r) => Done (Some e, r)
            | (None, r) => walk fuel' childCBias childDBias r
            end
      end
  end.

Definition resolveSeekPosition (fuel : nat) (r : Reader)
  : outcome (option error * Reader) :=
  (* Load the root node. It has already been validated, during initialize. *)
  match load (rootNodeCOffset r) (rootNodeArity r) r with
  | (Some e, r) => Done (Some e, r)
  | (None, r) => walk fuel 0 0 r
  end.

(** The inner loop of [NextChunk], [for n := ...; r.nextChunk < n; { ... }],
    cut after [k] rounds; [NextChunk] runs it with [k = n - r.nextChunk],
    the number of rounds the condition allows.  [None] says the loop ended
    without a [return]. *)
Fixpoint emitLoop (n : Z) (k : nat) (r : Reader) : option Chunk * Reader :=
  match k with
  | O => (None, r)
  | S k' =>
      if nextChunk r <? n then
        let c := chunk (currNode r) (nextChunk r) (currNodeCBias r) (currNodeDBias r) in
        let r := set_nextChunk (nextChunk r + 1) r in
        let r := set_seekPosition (high (DRange c)) r in
        if negb (Empty (DRange c)) then (Some c, r)
        else emitLoop n k' r
      else (None, r)
  end.

(** The outer [for] loop of [NextChunk]: at most [fuel] rounds, each descent
    at most [wfuel] steps. *)
Fixpoint nextChunkLoop (wfuel fuel : nat) (r : Reader)
  : outcome (Chunk * option error * Reader) :=
  match fuel with
  | O => OutOfFuel
  | S fuel' =>
      let emit (r : Reader) :=
        let n := arity (currNode r) in
        match emitLoop n (Z.to_nat (n - nextChunk r)) r with
        | (Some c, r) => Done (c, None, r)
        | (None, r) => nextChunkLoop wfuel fuel' (set_needToResolveSeekPosition true r)
        end in
      if needToResolveSeekPosition r then
        if seekPosition r >=? decompressedSize r then Done (noChunk, Some io_EOF, r)
        else
          let r := set_needToResolveSeekPosition false r in
          match resolveSeekPosition wfuel r with
          | Done (Some e, r) => Done (noChunk, Some e, r)
          | Done (None, r) => emit r
          | Panic => Panic
          | OutOfFuel => OutOfFuel
          end
      else emit r
  end.

Definition NextChunk (fuel : nat) (r : Reader) : outcome (Chunk * option error * Reader) :=
  match initialize r with
  | (Some e, r) => Done (noChunk, Some e, r)
  | (None, r) => nextChunkLoop fuel fuel r
  end.

(** ** Concrete containers *)

Definition bytes_of (l : list Z) : list byte :=
  map (fun z => match Byte.of_N (Z.to_N z) with Some b => b | None => x00 end) l.

(** A root of arity 1 at the head (one leaf over DSpace [0, 100)), then eight
    bytes of chunk data. *)
Definition flatFile : list byte := bytes_of
  [ 114; 195; 99; 1; 216; 211; 0; 255; 100; 0; 0; 0; 0; 0; 0; 1;
    32; 0; 0; 0; 0; 0; 0; 255; 40; 0; 0; 0; 0; 0; 1; 1;
    1; 2; 3; 4; 5; 6; 7; 8 ].

(** Eight zero bytes, then a valid root of arity 1 at the tail whose cPtrMax
    is the length of the file, 40. *)
Definition tailFileNoMagic : list byte := bytes_of
  [ 0; 0; 0; 0; 0; 0; 0; 0; 114; 195; 99; 1; 154; 191; 0; 255;
    100; 0; 0; 0; 0; 0; 0; 1; 0; 0; 0; 0; 0; 0; 0; 255;
    40; 0; 0; 0; 0; 0; 1; 1 ].

(** The magic bytes and an arity byte 0 at the head, then a valid root of
    arity 1 at the tail. *)
Definition tailFile : list byte := bytes_of
  [ 114; 195; 99; 0; 0; 0; 0; 0; 114; 195; 99; 1; 198; 83; 0; 255;
    100; 0; 0; 0; 0; 0; 0; 1; 8; 0; 0; 0; 0; 0; 0; 255;
    40; 0; 0; 0; 0; 0; 1; 1 ].

(** A root of arity 1 that fills the file, with its two checksum bytes
    inverted. *)
Definition corruptFile : list byte := bytes_of
  [ 114; 195; 99; 1; 53; 136; 0; 255; 100; 0; 0; 0; 0; 0; 0; 1;
    0; 0; 0; 0; 0; 0; 0; 255; 32; 0; 0; 0; 0; 0; 1; 1 ].

(** A valid root of arity 1 that fills the file and whose only slot is a
    branch to offset 0: the root itself. *)
Definition loopFile : list byte := bytes_of
  [ 114; 195; 99; 1; 79; 66; 0; 254; 100; 0; 0; 0; 0; 0; 0; 1;
    0; 0; 0; 0; 0; 0; 0; 255; 32; 0; 0; 0; 0; 0; 1; 1 ].

(** A valid root of arity 1 at the head whose only slot is a branch to offset
    32, where 32 zero bytes follow. *)
Definition badChildFile : list byte := bytes_of
  [ 114; 195; 99; 1; 93; 94; 0; 254; 100; 0; 0; 0; 0; 0; 0; 1;
    32; 0; 0; 0; 0; 0; 0; 255; 64; 0; 0; 0; 0; 0; 1; 1;
    0; 0; 0; 0; 0; 0; 0; 0; 0; 0; 0; 0; 0; 0; 0; 0;
    0; 0; 0; 0; 0; 0; 0; 0; 0; 0; 0; 0; 0; 0; 0; 0 ].

(** A root of arity 2 at the head with two branches: to a node of two leaves
    over DSpace [0, 200) and [200, 500) at offset 48, and to a node of three
    leaves over [500, 600), the empty [600, 600) and [600, 900) at offset 96;
    then 16 bytes of chunk data. *)
Definition twoLevelFile : list byte := bytes_of
  [ 114; 195; 99; 2; 254; 130; 0; 254; 244; 1; 0; 0; 0; 0; 0; 254;
    132; 3; 0; 0; 0; 0; 0; 1; 48; 0; 0; 0; 0; 0; 0; 255;
    96; 0; 0; 0; 0; 0; 0; 255; 176; 0; 0; 0; 0; 0; 1; 2;
    114; 195; 99; 2; 162; 239; 0; 255; 200; 0; 0; 0; 0; 0; 0; 255;
    244; 1; 0; 0; 0; 0; 0; 1; 160; 0; 0; 0; 0; 0; 0; 255;
    164; 0; 0; 0; 0; 0; 0; 255; 168; 0; 0; 0; 0; 0; 1; 2;
    114; 195; 99; 3; 84; 190; 0; 255; 100; 0; 0; 0; 0; 0; 0; 255;
    100; 0; 0; 0; 0; 0; 0; 255; 144; 1; 0; 0; 0; 0; 0; 1;
    168; 0; 0; 0; 0; 0; 0; 255; 170; 0; 0; 0; 0; 0; 0; 255;
    172; 0; 0; 0; 0; 0; 0; 255; 175; 0; 0; 0; 0; 0; 1; 3;
    0; 1; 2; 3; 4; 5; 6; 7; 8; 9; 10; 11; 12; 13; 14; 15 ].

(** Eighty bytes at the head that start with the magic and the arity byte 4
    but are no valid node (byte 6 is not zero); a valid node of arity 2 at
    offset 80; and 32 bytes at the tail that end with the byte 1.  The last
    32 bytes followed by bytes 32 to 79 of the head make up a valid node of
    arity 4. *)
Definition staleRootFile : list byte := bytes_of
  [ 114; 195; 99; 4; 0; 0; 1; 0; 0; 0; 0; 0; 0; 0; 0; 0;
    0; 0; 0; 0; 0; 0; 0; 0; 0; 0; 0; 0; 0; 0; 0; 0;
    40; 0; 0; 0; 0; 0; 0; 1; 80; 0; 0; 0; 0; 0; 0; 255;
    128; 0; 0; 0; 0; 0; 0; 255; 128; 0; 0; 0; 0; 0; 0; 255;
    128; 0; 0; 0; 0; 0; 0; 255; 160; 0; 0; 0; 0; 0; 1; 4;
    114; 195; 99; 2; 210; 35; 0; 255; 5; 0; 0; 0; 0; 0; 0; 255;
    10; 0; 0; 0; 0; 0; 0; 1; 128; 0; 0; 0; 0; 0; 0; 255;
    50; 0; 0; 0; 0; 0; 0; 255; 160; 0; 0; 0; 0; 0; 1; 2;
    114; 195; 99; 4; 147; 50; 0; 254; 10; 0; 0; 0; 0; 0; 0; 255;
    20; 0; 0; 0; 0; 0; 0; 255; 30; 0; 0; 0; 0; 0; 0; 1 ].

(** ** Definitions used by the statements *)

(** The entries of the two pointer tables, as the source reads them. *)
Definition DPtr (b : rNode) (i : Z) : Z := u48LE (slice_from b (8 * i)).
Definition CPtr (b : rNode) (i : Z) : Z := u48LE (slice_from b (8 * i + (8 * idx b 3 + 8))).

(** The structural invariants of a node, in the words of the format
    description: magic, arity and its duplicate, reserved bytes and TTag
    range, codec and version, the two pointer tables and the checksum. *)
Record structuralInvariants (b : rNode) : Prop := {
  si_magic : idx b 0 = 0x72 /\ idx b 1 = 0xC3 /\ idx b 2 = 0x63;
  si_arity : 1 <= arity b <= 255;
  si_arity_dup : idx b (nodeSize (arity b) - 1) = arity b;
  si_reserved : forall i, 0 <= i <= arity b -> idx b (8 * i + 6) = 0;
  si_tTag : forall i, 0 <= i < arity b -> ~ (0xC0 <= tTag b i < 0xFE);
  si_codec : codec b <> 0;
  si_version : version b <> 0;
  si_dPtr : forall i, 1 <= i < arity b -> DPtr b i <= DPtr b (i + 1);
  si_cPtr : forall i, 0 <= i < arity b -> CPtr b i <= cPtrMax b;
  si_checksum :
    idx b 4 + 256 * idx b 5 = foldedChecksum b (nodeSize (arity b)) mod 2 ^ 16
}.

(** Two buffers that hold the same first [n] bytes.  A node load overwrites
    only the first [nodeSize arity] bytes of the 4096 byte buffer; what
    lies behind is left over from earlier loads. *)
Definition sameUpTo (n : Z) (b b' : list byte) : Prop :=
  firstn (Z.to_nat n) b = firstn (Z.to_nat n) b'.

(** Two buffers that hold the same node. *)
Definition sameNode (b b' : rNode) : Prop := sameUpTo (nodeSize (arity b)) b b'.

(** ** The index tree of a container

    The descent of [resolveSeekPosition] read off the file itself: a node is
    named by its offset in the file, its bytes are the file's bytes from
    there on.  [walk] on a reader whose buffer holds the node at [off]
    follows [descend] from [off] (lemma [walk_descend]). *)
Section Tree.
Variable file : list byte.

Definition fileSize : Z := Z.of_nat (length file).

Definition nodeAt (off : Z) : rNode := slice_from file off.

(** The conditions under which [loadAndValidate] returns nil. *)
Definition childOK (cOffset : Z) (parentCodec : Codec) (parentVersion : Z)
    (parentCOffMax childCBias childDSize : Z) : bool :=
  let n := nodeAt cOffset in
  negb ((cOffset <? 0) || (fileSize - 4 <? cOffset))
  && negb (arity n =? 0)
  && negb ((fileSize <? nodeSize (arity n)) || (fileSize - nodeSize (arity n) <? cOffset))
  && valid n
  && negb (negb (bitwiseSubset parentCodec (codec n))
           || (parentVersion <? version n)
           || (parentCOffMax <? add64 childCBias (cPtrMax n))
           || negb (childDSize =? dPtrMax n)).

(** A position of the descent: the node, and the accumulated biases. *)
Record pos : Type := mkPos { p_off : Z; p_cBias : Z; p_dBias : Z }.

Inductive stepResult : Type :=
| AtLeaf (i : Z)          (* the slot is a leaf: the descent ends here *)
| Down (p : pos)           (* the slot is a branch whose child is accepted *)
| Rejected                 (* the slot is a branch whose child is refused *)
| Lost.                    (* no slot holds the position: the source panics *)

Definition childCBiasOf (n : rNode) (i cBias : Z) : Z :=
  let sTag_ := sTag n i in
  if sTag_ <? arity n then cOff n sTag_ cBias else cBias.

Definition step (seek : Z) (p : pos) : stepResult :=
  let n := nodeAt (p_off p) in
  match findChunkContaining n seek (p_dBias p) with
  | None => Lost
  | Some i =>
      if isLeaf n i then AtLeaf i
      else
        let childCBias := childCBiasOf n i (p_cBias p) in
        if childOK (cOff n i (p_cBias p)) (codec n) (version n)
             (add64 (p_cBias p) (cPtrMax n)) childCBias (dSize n i)
        then Down (mkPos (cOff n i (p_cBias p)) childCBias (dOff n i (p_dBias p)))
        else Rejected
  end.

(** [Done (Some (p, i))]: the descent ends at slot [i] of the node at [p];
    [Done None]: it meets a child that is refused. *)
Fixpoint descend (fuel : nat) (seek : Z) (p : pos) : outcome (option (pos * Z)) :=
  match fuel with
  | O => OutOfFuel
  | S fuel' =>
      match step seek p with
      | AtLeaf i => Done (Some (p, i))
      | Down p' => descend fuel' seek p'
      | Rejected => Done None
      | Lost => Panic
      end
  end.

(** The part of DSpace a node covers, and the part one of its slots covers. *)
Definition nodeLow (p : pos) : Z := p_dBias p.
Definition nodeHigh (p : pos) : Z := p_dBias p + dPtrMax (nodeAt (p_off p)).
Definition slotLow (p : pos) (i : Z) : Z := dOff (nodeAt (p_off p)) i (p_dBias p).
Definition slotHigh (p : pos) (i : Z) : Z := dOff (nodeAt (p_off p)) (i + 1) (p_dBias p).
End Tree.

(** What a descent leaves alone: every field of the reader but the node
    buffer and the cursor ([nextChunk], [currNodeCBias], [currNodeDBias]). *)
Record sameSettings (r r' : Reader) : Prop := {
  ss_ReadSeeker : ReadSeeker r' = ReadSeeker r;
  ss_CompressedSize : CompressedSize r' = CompressedSize r;
  ss_initialized : initialized r' = initialized r;
  ss_rootNodeArity : rootNodeArity r' = rootNodeArity r;
  ss_need : needToResolveSeekPosition r' = needToResolveSeekPosition r;
  ss_err : err r' = err r;
  ss_decompressedSize : decompressedSize r' = decompressedSize r;
  ss_rootNodeCOffset : rootNodeCOffset r' = rootNodeCOffset r;
  ss_seekPosition : seekPosition r' = seekPosition r
}.

(** The DPtr table with its implicit first entry. *)
Definition DPtr0 (b : rNode) (i : Z) : Z := if i =? 0 then 0 else DPtr b i.

(** A position whose node is valid and whose part of DSpace is far from the
    ends of int64. *)
Definition goodPos (file : list byte) (p : pos) : Prop :=
  valid (nodeAt file (p_off p)) = true /\
  0 <= p_dBias p /\ nodeHigh file p <= 2 ^ 62.

(** No chunk found from position [p0] lies across the DSpace offset [b]. *)
Definition noStraddle (file : list byte) (p0 : pos) (b : Z) : Prop :=
  forall fuel x q i,
    0 <= x < b -> descend file fuel x p0 = Done (Some (q, i)) ->
    slotHigh file q i <= b.

(** ** Readers on an accepted container *)

(** What no operation changes once the root is located. *)
Record sameFile (r r' : Reader) : Prop := {
  sf_ReadSeeker : ReadSeeker r' = ReadSeeker r;
  sf_CompressedSize : CompressedSize r' = CompressedSize r;
  sf_initialized : initialized r' = initialized r;
  sf_rootNodeArity : rootNodeArity r' = rootNodeArity r;
  sf_err : err r' = err r;
  sf_decompressedSize : decompressedSize r' = decompressedSize r;
  sf_rootNodeCOffset : rootNodeCOffset r' = rootNodeCOffset r
}.

(** [accepted f r]: [r] is a reader on the container [f] (its
    [CompressedSize] is the length of [f]) that is initialized without error
    and whose root is a node of [f]: the bytes of [f] at [rootNodeCOffset]
    are a valid version 1 node that lies within the [nodeSize rootNodeArity]
    bytes the reader loads for it, with [cPtrMax] the length of [f] and
    [dPtrMax] the reader's [decompressedSize]. *)
Record accepted (f : list byte) (r : Reader) : Prop := {
  acc_ReadSeeker : ReadSeeker r = Some f;
  acc_CompressedSize : CompressedSize r = fileSize f;
  acc_err : err r = None;
  acc_initialized : initialized r = true;
  acc_offset : 0 <= rootNodeCOffset r;
  acc_fits : rootNodeCOffset r + nodeSize (rootNodeArity r) <= fileSize f;
  acc_arity : arity (nodeAt f (rootNodeCOffset r)) <= rootNodeArity r;
  acc_valid : valid (nodeAt f (rootNodeCOffset r)) = true;
  acc_version : version (nodeAt f (rootNodeCOffset r)) = 1;
  acc_cPtrMax : cPtrMax (nodeAt f (rootNodeCOffset r)) = fileSize f;
  acc_dPtrMax : dPtrMax (nodeAt f (rootNodeCOffset r)) = decompressedSize r
}.

(** The position at which every descent of [r] starts. *)
Definition rootPos (r : Reader) : pos := mkPos (rootNodeCOffset r) 0 0.

(** The cursor of [r] stands in the node at position [q]. *)
Record inNode (f : list byte) (r : Reader) (q : pos) : Prop := {
  in_node : sameNode (nodeAt f (p_off q)) (currNode r);
  in_cBias : currNodeCBias r = p_cBias q;
  in_dBias : currNodeDBias r = p_dBias q;
  in_good : goodPos f q;
  in_next : 0 <= nextChunk r <= arity (nodeAt f (p_off q))
}.

(** ** Reading a container to its end *)

(** Calls [NextChunk] until it returns an error (at most [n] times): the
    chunks returned, the error that ended the reading and the reader then. *)
Fixpoint readChunks (n fuel : nat) (r : Reader) : outcome (list Chunk * error * Reader) :=
  match n with
  | O => OutOfFuel
  | S n' =>
      match NextChunk fuel r with
      | Done (c, None, r') =>
          match readChunks n' fuel r' with
          | Done (cs, e, r'') => Done (c :: cs, e, r'')
          | Panic => Panic
          | OutOfFuel => OutOfFuel
          end
      | Done (_, Some e, r') => Done ([], e, r')
      | Panic => Panic
      | OutOfFuel => OutOfFuel
      end
  end.

(** The ranges [l], in this order, are non-empty and laid end to end from
    [a] to [b]. *)
Fixpoint tiles (l : list Range) (a b : Z) : Prop :=
  match l with
  | [] => a = b
  | r :: l' => low r = a /\ low r < high r /\ tiles l' (high r) b
  end.

(** How a call may change the sticky error and the decompressed size. *)
Definition errKept (e : option error) (r r' : Reader) : Prop :=
  match e with None => err r' = err r | Some _ => True end.

Definition sizeSane (r r' : Reader) : Prop :=
  decompressedSize r' = decompressedSize r \/ 0 <= decompressedSize r' < 2 ^ 48.

(** The readers a caller can hold: a new one, or one that a public method
    has returned from. *)
Inductive reachable : Reader -> Prop :=
| reach_new rs cs : reachable (newReader rs cs)
| reach_DecompressedSize r n e r' :
    reachable r -> DecompressedSize r = (n, e, r') -> reachable r'
| reach_SeekToChunkContaining r d e r' :
    reachable r -> SeekToChunkContaining d r = (e, r') -> reachable r'
| reach_NextChunk r fuel c e r' :
    reachable r -> NextChunk fuel r = Done (c, e, r') -> reachable r'.

(** ** Root placements of a container *)

Definition startsWithMagic (f : list byte) : bool :=
  (idx f 0 =? idx magic 0) && (idx f 1 =? idx magic 1) && (idx f 2 =? idx magic 2).

(** The bytes of [f] at [off] are a valid node that [tryRootNode a] takes
    for the root: [a] is not zero, a node of that arity fits in the
    container, and the node's [cPtrMax] is the container's length. *)
Definition rootAt (f : list byte) (off a : Z) : bool :=
  negb (a =? 0) && (nodeSize a <=? fileSize f)
  && valid (nodeAt f off) && (cPtrMax (nodeAt f off) =? fileSize f).

(** Head placement: the arity is the fourth byte of the file. *)
Definition headRoot (f : list byte) : bool := rootAt f 0 (idx f 3).

(** Tail placement: the arity is the last byte of the file, the node ends
    with the file and its own arity byte is that arity. *)
Definition tailArity (f : list byte) : Z := idx f (fileSize f - 1).
Definition tailOffset (f : list byte) : Z := fileSize f - nodeSize (tailArity f).
Definition tailRoot (f : list byte) : bool :=
  (arity (nodeAt f (tailOffset f)) =? tailArity f)
  && rootAt f (tailOffset f) (tailArity f).

(** ** The remaining CPtrMax window of a descent *)

Definition window (f : list byte) (p : pos) : Z :=
  p_cBias p + cPtrMax (nodeAt f (p_off p)).

Definition windowOK (f : list byte) (p : pos) : Prop :=
  0 <= p_cBias p /\ window f p <= 2 ^ 62.

(** The position a descent for [seek] is at after [k] steps down. *)
Fixpoint posAfter (f : list byte) (k : nat) (seek : Z) (p : pos) : option pos :=
  match k with
  | O => Some p
  | S k' =>
      match step f seek p with
      | Down p' => posAfter f k' seek p'
      | _ => None
      end
  end.

(** The conditions of [accepted] on the root, as a test. *)
Definition acceptedRoot (f : list byte) (r : Reader) : bool :=
  let n := nodeAt f (rootNodeCOffset r) in
  (0 <=? rootNodeCOffset r)
  && (rootNodeCOffset r + nodeSize (rootNodeArity r) <=? fileSize f)
  && (arity n <=? rootNodeArity r)
  && valid n && (version n =? 1)
  && (cPtrMax n =? fileSize f) && (dPtrMax n =? decompressedSize r).

(** The reader a caller holds after the first method call on a new Reader for
    the container [f]: what [initialize] leaves. *)
Definition openReader (f : list byte) : Reader :=
  snd (initialize (newReader (Some f) (fileSize f))).

(** [initialize], on a new Reader for the container [f], returns nil. *)
Definition acceptedFile (f : list byte) : Prop :=
  fst (initialize (newReader (Some f) (fileSize f))) = None.

(** ** Reading in order *)

(** What holds of a reader on an accepted container while it is read in
    order: the position is within the decompressed size; when the next
    [NextChunk] resolves it, no chunk of the tree lies across it; when the
    cursor stands in a node, the position is where the next slot starts and
    no chunk lies across the end of that node. *)
Definition tilingInv (f : list byte) (r : Reader) : Prop :=
  accepted f r
  /\ 0 <= seekPosition r <= decompressedSize r
  /\ (needToResolveSeekPosition r = true
      /\ noStraddle f (rootPos r) (seekPosition r)
      \/ needToResolveSeekPosition r = false
         /\ exists q, inNode f r q
                      /\ seekPosition r = slotLow f q (nextChunk r)
                      /\ nodeHigh f q <= decompressedSize r
                      /\ noStraddle f (rootPos r) (nodeHigh f q)).

(** What a [NextChunk] that returns gives back, for a reader at position [s]
    of a container of decompressed size [size]. *)
Definition tilingPost (f : list byte) (s size : Z)
    (c : Chunk) (e : option error) (r' : Reader) : Prop :=
  match e with
  | None =>
      low (DRange c) = s /\ low (DRange c) < high (DRange c)
      /\ high (DRange c) = seekPosition r' /\ tilingInv f r'
  | Some e' =>
      e' = io_EOF /\ s = size /\ err r' = None
      \/ e' = errInvalidIndexNode /\ err r' = Some e'
  end.

(** ** Readers reached from a given one *)

(** The readers a caller gets to from [r0] by calls of the public methods. *)
Inductive reachableFrom (r0 : Reader) : Reader -> Prop :=
| from_here : reachableFrom r0 r0
| from_DecompressedSize r n e r' :
    reachableFrom r0 r -> DecompressedSize r = (n, e, r') -> reachableFrom r0 r'
| from_SeekToChunkContaining r d e r' :
    reachableFrom r0 r -> SeekToChunkContaining d r = (e, r') -> reachableFrom r0 r'
| from_NextChunk r fuel c e r' :
    reachableFrom r0 r -> NextChunk fuel r = Done (c, e, r') -> reachableFrom r0 r'.

(** The fields that say where the container and its root are. *)
Record sameRoot (r r' : Reader) : Prop := {
  sr_ReadSeeker : ReadSeeker r' = ReadSeeker r;
  sr_CompressedSize : CompressedSize r' = CompressedSize r;
  sr_initialized : initialized r' = initialized r;
  sr_rootNodeArity : rootNodeArity r' = rootNodeArity r;
  sr_decompressedSize : decompressedSize r' = decompressedSize r;
  sr_rootNodeCOffset : rootNodeCOffset r' = rootNodeCOffset r
}.
(** ** The cursor of a reader on an accepted container *)

(** The node at position [q] is one that a descent from the root of [r]
    ends in. *)
Definition reached (f : list byte) (r : Reader) (q : pos) : Prop :=
  exists fuel s i, 0 <= s /\ descend f fuel s (rootPos r) = Done (Some (q, i)).

(** A reader on an accepted container between two calls: either the next
    [NextChunk] resolves [seekPosition], or the cursor stands in a node that
    a descent from the root ends in. *)
Definition steady (f : list byte) (r : Reader) : Prop :=
  accepted f r /\ 0 <= seekPosition r
  /\ (needToResolveSeekPosition r = true
      \/ exists q, inNode f r q /\ reached f r q).

(** What the loop of [NextChunk] gives back on a steady reader. *)
Definition steadyPost (f : list byte)
    (out : outcome (Chunk * option error * Reader)) : Prop :=
  match out with
  | Done (c, None, r') =>
      steady f r' /\ needToResolveSeekPosition r' = false
      /\ exists q j,
           inNode f r' q /\ reached f r' q
           /\ 0 <= j < arity (nodeAt f (p_off q)) /\ nextChunk r' = j + 1
           /\ c = chunk (nodeAt f (p_off q)) j (p_cBias q) (p_dBias q)
           /\ Empty (DRange c) = false
  | Done (c, Some e, r') =>
      c = noChunk
      /\ (e = io_EOF /\ steady f r'
          \/ e = errInvalidIndexNode /\ err r' = Some e)
  | Panic => False
  | OutOfFuel => True
  end.

(** The range [rg] is well formed and lies within [0, n]. *)
Definition within (rg : Range) (n : Z) : Prop :=
  0 <= low rg /\ low rg <= high rg /\ high rg <= n.

(** ** Descents that come back *)

(** The descent for [seek] from [p] reaches no position twice. *)
Definition neverTwice (f : list byte) (seek : Z) (p : pos) : Prop :=
  forall j k q, (j < k)%nat ->
    posAfter f j seek p = Some q -> posAfter f k seek p = Some q -> False.

(** ** More concrete containers *)

(** The container of [flatFile] with version byte 2 in its root. *)
Definition version2File : list byte := bytes_of
  [ 114; 195; 99; 1; 54; 171; 0; 255; 100; 0; 0; 0; 0; 0; 0; 1;
    32; 0; 0; 0; 0; 0; 0; 255; 40; 0; 0; 0; 0; 0; 2; 1;
    1; 2; 3; 4; 5; 6; 7; 8 ].

(** A container of 1200 bytes.  The root, at the head, has codec 3 and two
    slots: a branch to the node at 48 for [0, 300) and a leaf for
    [300, 400) with CPtr 1150.  The node at 48 has codec 1, CPtrMax 1150 and
    two leaves: [0, 100) with CPtr 96, CLen 1 and STag 1, and [100, 300) with
    CPtr 1130 and CLen 0. *)
Definition tagsFile : list byte := bytes_of
  [ 114; 195; 99; 2; 243; 209; 0; 254; 44; 1; 0; 0; 0; 0; 0; 255;
    144; 1; 0; 0; 0; 0; 0; 3; 48; 0; 0; 0; 0; 0; 0; 255;
    126; 4; 0; 0; 0; 0; 0; 255; 176; 4; 0; 0; 0; 0; 1; 2;
    114; 195; 99; 2; 222; 239; 0; 255; 100; 0; 0; 0; 0; 0; 0; 255;
    44; 1; 0; 0; 0; 0; 0; 1; 96; 0; 0; 0; 0; 0; 1; 1;
    106; 4; 0; 0; 0; 0; 0; 255; 126; 4; 0; 0; 0; 0; 1; 2 ]
  ++ repeat x00 1104.

(** A container of 120 bytes whose root, at the head, mixes a leaf and a
    branch: slot 0 is a leaf for [0, 100) with CPtr 80, slot 1 a branch for
    [100, 300) to the node at 48, which has one leaf with CPtr 100. *)
Definition mixedFile : list byte := bytes_of
  [ 114; 195; 99; 2; 142; 204; 0; 255; 100; 0; 0; 0; 0; 0; 0; 254;
    44; 1; 0; 0; 0; 0; 0; 1; 80; 0; 0; 0; 0; 0; 0; 255;
    48; 0; 0; 0; 0; 0; 0; 255; 120; 0; 0; 0; 0; 0; 1; 2;
    114; 195; 99; 1; 159; 148; 0; 255; 200; 0; 0; 0; 0; 0; 0; 1;
    100; 0; 0; 0; 0; 0; 0; 255; 120; 0; 0; 0; 0; 0; 1; 1;
    0; 1; 2; 3; 4; 5; 6; 7; 8; 9; 10; 11; 12; 13; 14; 15;
    16; 17; 18; 19; 20; 21; 22; 23; 24; 25; 26; 27; 28; 29; 30; 31;
    32; 33; 34; 35; 36; 37; 38; 39 ].

(** * Properties *)

(** ** Bytes and fixed-width arithmetic *)

Lemma u8_range (b : byte) : 0 <= u8 b < 256.
Proof.
  unfold u8. pose proof (Byte.to_N_bounded b). lia.
Qed.

Lemma idx_range (b : list byte) (i : Z) : 0 <= idx b i < 256.
Proof. apply u8_range. Qed.

Lemma u48LE_range (b : list byte) : 0 <= u48LE b < 2 ^ 48.
Proof.
  unfold u48LE.
  change 0xFFFFFFFFFFFF with (Z.ones 48).
  rewrite Z.land_ones by lia.
  apply Z.mod_pos_bound. lia.
Qed.

Lemma wrap64_small (z : Z) : - 2 ^ 63 <= z < 2 ^ 63 -> wrap64 z = z.
Proof.
  intros H. unfold wrap64.
  rewrite Z.mod_small; lia.
Qed.

Lemma wrap64_range (z : Z) : - 2 ^ 63 <= wrap64 z < 2 ^ 63.
Proof.
  unfold wrap64.
  pose proof (Z.mod_pos_bound (z + 2 ^ 63) (2 ^ 64) ltac:(lia)). lia.
Qed.

Lemma add64_small (a b : Z) : - 2 ^ 63 <= a + b < 2 ^ 63 -> add64 a b = a + b.
Proof. apply wrap64_small. Qed.

Lemma sub64_small (a b : Z) : - 2 ^ 63 <= a - b < 2 ^ 63 -> sub64 a b = a - b.
Proof. apply wrap64_small. Qed.

(** ** The node codec: what [valid] checks *)

Lemma validTagsLoop_true (b : rNode) (n : nat) : forall i,
  validTagsLoop b i n = true ->
  forall j, i <= j < i + Z.of_nat n ->
    idx b (8 * j + 6) = 0 /\ ~ (0xC0 <= idx b (8 * j + 7) < 0xFE).
Proof.
  induction n as [|n IH]; intros i H j Hj; [lia|].
  cbn [validTagsLoop] in H.
  destruct (idx b (8 * i + 6) =? 0) eqn:E6; cbn [negb] in H; [|discriminate].
  destruct ((192 <=? idx b (8 * i + 7)) && (idx b (8 * i + 7) <? 254)) eqn:E7;
    [discriminate|].
  destruct (Z.eq_dec j i) as [-> |Hne].
  - split; [now apply Z.eqb_eq|].
    apply andb_false_iff in E7. destruct E7 as [E|E]; [apply Z.leb_gt in E|apply Z.ltb_ge in E]; lia.
  - apply (IH (i + 1) H). lia.
Qed.

Lemma validDPtrLoop_true (b : rNode) (n : nat) : forall i,
  validDPtrLoop b (DPtr b (i - 1)) i n = true ->
  forall j, i <= j < i + Z.of_nat n -> DPtr b (j - 1) <= DPtr b j.
Proof.
  induction n as [|n IH]; intros i H j Hj; [lia|].
  cbn [validDPtrLoop] in H. fold (DPtr b i) in H.
  destruct (DPtr b i <? DPtr b (i - 1)) eqn:E; [discriminate|].
  apply Z.ltb_ge in E.
  destruct (Z.eq_dec j i) as [-> |Hne]; [exact E|].
  apply (IH (i + 1)); [|lia].
  replace (i + 1 - 1) with i by lia. exact H.
Qed.

Lemma validCPtrLoop_true (b : rNode) (base m : Z) (n : nat) : forall i,
  validCPtrLoop b base m i n = true ->
  forall j, i <= j < i + Z.of_nat n -> u48LE (slice_from b (8 * j + base)) <= m.
Proof.
  induction n as [|n IH]; intros i H j Hj; [lia|].
  cbn [validCPtrLoop] in H.
  destruct (u48LE (slice_from b (8 * i + base)) >? m) eqn:E; [discriminate|].
  destruct (Z.eq_dec j i) as [-> |Hne]; [lia|].
  apply (IH (i + 1) H). lia.
Qed.

Lemma low_two_bytes (x : Z) :
  x mod 256 + 256 * (Z.shiftr x 8 mod 256) = x mod 2 ^ 16.
Proof.
  rewrite Z.shiftr_div_pow2 by lia.
  change (2 ^ 8) with 256. change (2 ^ 16) with 65536.
  pose proof (Z.div_mod x 256 ltac:(lia)).
  pose proof (Z.mod_pos_bound x 256 ltac:(lia)).
  pose proof (Z.div_mod (x / 256) 256 ltac:(lia)).
  pose proof (Z.mod_pos_bound (x / 256) 256 ltac:(lia)).
  apply (Z.mod_unique_pos _ _ (x / 256 / 256)); lia.
Qed.

Lemma valid_structuralInvariants (b : rNode) :
  valid b = true -> structuralInvariants b.
Proof.
  unfold valid. intros H.
  repeat match type of H with
         | (if ?c then false else _) = true =>
             let E := fresh "E" in destruct c eqn:E; [discriminate H|]
         end.
  clear H.
  repeat match goal with
         | E : _ || _ = false |- _ => apply orb_false_iff in E; destruct E
         | E : negb _ = false |- _ => apply negb_false_iff in E
         | E : (_ =? _) = true |- _ => apply Z.eqb_eq in E
         | E : (_ =? _) = false |- _ => apply Z.eqb_neq in E
         end.
  pose proof (idx_range b 3) as R3.
  assert (HA : 1 <= idx b 3 <= 255) by lia.
  assert (HT : forall i, 0 <= i < idx b 3 ->
            idx b (8 * i + 6) = 0 /\ ~ (0xC0 <= idx b (8 * i + 7) < 0xFE)).
  { intros i Hi.
    match goal with
    | E : validTagsLoop _ _ _ = true |- _ => apply (validTagsLoop_true b _ 0 E i); lia
    end. }
  constructor; unfold arity, codec, version, tTag, CPtr, cPtrMax, nodeSize.
  - cbv [magic idx nth Z.to_nat Pos.to_nat Pos.iter_op Nat.add] in *.
    repeat split; assumption.
  - exact HA.
  - congruence.
  - intros i Hi. destruct (Z.eq_dec i (idx b 3)) as [-> |Hne]; [assumption|].
    apply HT. lia.
  - intros i Hi. apply HT. lia.
  - assumption.
  - assumption.
  - intros i Hi.
    match goal with
    | E : validDPtrLoop _ _ _ _ = true |- _ =>
        pose proof (validDPtrLoop_true b (Z.to_nat (idx b 3 - 1)) 2 E (i + 1)) as P
    end.
    replace (i + 1 - 1) with i in P by lia. apply P. lia.
  - intros i Hi.
    replace (16 * idx b 3 + 8) with (16 * idx b 3 + 16 - 8) by lia.
    match goal with
    | E : validCPtrLoop _ _ _ _ _ = true |- _ => apply (validCPtrLoop_true b _ _ _ 0 E i); lia
    end.
  - rewrite <- low_two_bytes. congruence.
Qed.

(** ** The slot search *)

Lemma findChunkLoop_some (b : rNode) (d dBias : Z) (n : nat) : forall i k,
  findChunkLoop b d dBias i n = Some k ->
  i <= k < i + Z.of_nat n /\ d < dOff b (k + 1) dBias /\
  forall j, i <= j < k -> dOff b (j + 1) dBias <= d.
Proof.
  induction n as [|n IH]; intros i k H; [discriminate|].
  cbn [findChunkLoop] in H.
  destruct (d <? dOff b (i + 1) dBias) eqn:E.
  - injection H as <-. apply Z.ltb_lt in E. repeat split; try lia.
  - apply Z.ltb_ge in E. destruct (IH _ _ H) as (R & L & M).
    repeat split; try lia.
    intros j Hj. destruct (Z.eq_dec j i) as [-> |Hne]; [exact E|apply M; lia].
Qed.

Lemma findChunkLoop_none (b : rNode) (d dBias : Z) (n : nat) : forall i,
  findChunkLoop b d dBias i n = None ->
  forall j, i <= j < i + Z.of_nat n -> dOff b (j + 1) dBias <= d.
Proof.
  induction n as [|n IH]; intros i H j Hj; [lia|].
  cbn [findChunkLoop] in H.
  destruct (d <? dOff b (i + 1) dBias) eqn:E; [discriminate|].
  apply Z.ltb_ge in E.
  destruct (Z.eq_dec j i) as [-> |Hne]; [exact E|apply (IH _ H); lia].
Qed.

Lemma dOff_arity (b : rNode) (dBias : Z) :
  arity b <> 0 -> dOff b (arity b) dBias = add64 dBias (dPtrMax b).
Proof.
  intros H. unfold dOff, dPtrMax, arity in *.
  destruct (idx b 3 =? 0) eqn:E; [apply Z.eqb_eq in E; contradiction|reflexivity].
Qed.

Lemma findChunkContaining_some (b : rNode) (d dBias i : Z) :
  findChunkContaining b d dBias = Some i ->
  0 <= i < arity b /\ d < dOff b (i + 1) dBias /\
  forall j, 0 <= j < i -> dOff b (j + 1) dBias <= d.
Proof.
  unfold findChunkContaining. intros H.
  destruct (findChunkLoop_some _ _ _ _ _ _ H) as (R & L & M).
  pose proof (idx_range b 3). unfold arity in *.
  repeat split; try lia; assumption.
Qed.

Lemma findChunkContaining_total (b : rNode) (d dBias : Z) :
  arity b <> 0 -> d < dOff b (arity b) dBias ->
  exists i, findChunkContaining b d dBias = Some i.
Proof.
  intros HA Hd.
  destruct (findChunkContaining b d dBias) as [i|] eqn:E; [now exists i|].
  exfalso. unfold findChunkContaining in E.
  pose proof (idx_range b 3). unfold arity in *.
  pose proof (findChunkLoop_none _ _ _ _ _ E (idx b 3 - 1) ltac:(lia)) as P.
  replace (idx b 3 - 1 + 1) with (idx b 3) in P by lia. lia.
Qed.

(** ** Buffers holding the same node *)

Lemma sameUpTo_refl n b : sameUpTo n b b.
Proof. reflexivity. Qed.

Lemma sameUpTo_sym n b b' : sameUpTo n b b' -> sameUpTo n b' b.
Proof. unfold sameUpTo. congruence. Qed.

Lemma sameUpTo_trans n b1 b2 b3 :
  sameUpTo n b1 b2 -> sameUpTo n b2 b3 -> sameUpTo n b1 b3.
Proof. unfold sameUpTo. congruence. Qed.

Lemma sameUpTo_le n m b b' : m <= n -> sameUpTo n b b' -> sameUpTo m b b'.
Proof.
  unfold sameUpTo. intros L H.
  replace (Z.to_nat m) with (Nat.min (Z.to_nat m) (Z.to_nat n)) by lia.
  rewrite <- !firstn_firstn. now rewrite H.
Qed.

Lemma sameUpTo_idx n b b' k :
  sameUpTo n b b' -> 0 <= k < n -> idx b k = idx b' k.
Proof.
  unfold sameUpTo, idx. intros H Hk. f_equal.
  assert (E : forall l : list byte,
             nth (Z.to_nat k) l x00 = nth (Z.to_nat k) (firstn (Z.to_nat n) l) x00).
  { intros l. rewrite nth_firstn.
    destruct (Nat.ltb_spec (Z.to_nat k) (Z.to_nat n)); [reflexivity|lia]. }
  rewrite (E b), (E b'). now rewrite H.
Qed.

Lemma idx_slice_from b k j :
  0 <= k -> 0 <= j -> idx (slice_from b k) j = idx b (k + j).
Proof.
  intros Hk Hj. unfold idx, slice_from. rewrite nth_skipn.
  do 2 f_equal. lia.
Qed.

Lemma sameUpTo_u48 n b b' k :
  sameUpTo n b b' -> 0 <= k -> k + 8 <= n ->
  u48LE (slice_from b k) = u48LE (slice_from b' k).
Proof.
  intros H Hk Hn. unfold u48LE.
  rewrite !idx_slice_from by lia.
  rewrite !(sameUpTo_idx n b b') by (assumption || lia).
  reflexivity.
Qed.

Lemma sameUpTo_slice n b b' lo hi :
  sameUpTo n b b' -> 0 <= lo -> hi <= n -> slice b lo hi = slice b' lo hi.
Proof.
  intros H Hlo Hhi. unfold slice.
  destruct (Z.le_gt_cases hi lo) as [L|L].
  - replace (Z.to_nat (hi - lo)) with O by lia. reflexivity.
  - rewrite !firstn_skipn_comm.
    replace (Z.to_nat lo + Z.to_nat (hi - lo))%nat with (Z.to_nat hi) by lia.
    apply (sameUpTo_le n hi) in H; [|lia]. unfold sameUpTo in H. now rewrite H.
Qed.

Section SameNode.
Variables b b' : rNode.
Hypothesis same : sameNode b b'.

Let A := idx b 3.

Lemma same_arity : arity b' = arity b.
Proof.
  unfold arity. symmetry. apply (sameUpTo_idx _ _ _ _ same).
  pose proof (idx_range b 3). unfold nodeSize, arity. lia.
Qed.

Lemma same_idx k : 0 <= k < nodeSize (arity b) -> idx b' k = idx b k.
Proof. intros Hk. symmetry. now apply (sameUpTo_idx _ _ _ _ same). Qed.

Lemma same_u48 k :
  0 <= k -> k + 8 <= nodeSize (arity b) ->
  u48LE (slice_from b' k) = u48LE (slice_from b k).
Proof. intros. symmetry. now apply (sameUpTo_u48 _ _ _ _ same). Qed.

Ltac same_tac :=
  pose proof (idx_range b 3); pose proof same_arity;
  unfold arity, nodeSize in *;
  repeat first
    [ rewrite same_idx by (unfold arity, nodeSize; lia)
    | rewrite same_u48 by (unfold arity, nodeSize; lia) ];
  try reflexivity.

Lemma same_codec : codec b' = codec b.
Proof. unfold codec. same_tac. Qed.

Lemma same_version : version b' = version b.
Proof. unfold version. same_tac. Qed.

Lemma same_cPtrMax : cPtrMax b' = cPtrMax b.
Proof. unfold cPtrMax. same_tac. Qed.

Lemma same_dPtrMax : dPtrMax b' = dPtrMax b.
Proof. unfold dPtrMax. same_tac. Qed.

Lemma same_cLen i : 0 <= i < arity b -> cLen b' i = cLen b i.
Proof. intros Hi. unfold cLen. same_tac. Qed.

Lemma same_cOff i cBias : 0 <= i <= arity b -> cOff b' i cBias = cOff b i cBias.
Proof. intros Hi. unfold cOff. same_tac. Qed.

Lemma same_dOff i dBias : 0 <= i <= arity b -> dOff b' i dBias = dOff b i dBias.
Proof.
  intros Hi. unfold dOff. destruct (i =? 0); [reflexivity|]. same_tac.
Qed.

Lemma same_dSize i : 0 <= i < arity b -> dSize b' i = dSize b i.
Proof. intros Hi. unfold dSize. same_tac. Qed.

Lemma same_sTag i : 0 <= i < arity b -> sTag b' i = sTag b i.
Proof. intros Hi. unfold sTag. same_tac. Qed.

Lemma same_tTag i : 0 <= i < arity b -> tTag b' i = tTag b i.
Proof. intros Hi. unfold tTag. same_tac. Qed.

Lemma same_isLeaf i : 0 <= i < arity b -> isLeaf b' i = isLeaf b i.
Proof. intros Hi. unfold isLeaf. same_tac. Qed.

Lemma same_cOffRange i cBias :
  0 <= i -> cOffRange b' i cBias = cOffRange b i cBias.
Proof.
  intros Hi. unfold cOffRange.
  rewrite same_arity, same_cPtrMax.
  destruct (i >=? arity b) eqn:E; [reflexivity|].
  assert (0 <= i < arity b) by lia.
  now rewrite same_cOff, same_cLen by lia.
Qed.

Lemma same_dOffRange i dBias :
  0 <= i < arity b -> dOffRange b' i dBias = dOffRange b i dBias.
Proof. intros Hi. unfold dOffRange. now rewrite !same_dOff by lia. Qed.

Lemma same_chunk i cBias dBias :
  0 <= i < arity b -> chunk b' i cBias dBias = chunk b i cBias dBias.
Proof.
  intros Hi. unfold chunk.
  rewrite same_dOffRange, same_sTag, same_tTag, same_codec by lia.
  rewrite !same_cOffRange; try reflexivity; try lia.
  - unfold tTag. pose proof (idx_range b (8 * i + 7)). lia.
  - unfold sTag. pose proof (idx_range b (8 * i + (8 * idx b 3 + 15))). lia.
Qed.

Lemma same_findChunkLoop d dBias n : forall i,
  0 <= i -> i + Z.of_nat n <= arity b ->
  findChunkLoop b' d dBias i n = findChunkLoop b d dBias i n.
Proof.
  induction n as [|n IH]; intros i Hi Hn; [reflexivity|].
  cbn [findChunkLoop]. rewrite same_dOff by lia.
  rewrite IH by lia. reflexivity.
Qed.

Lemma same_findChunkContaining d dBias :
  findChunkContaining b' d dBias = findChunkContaining b d dBias.
Proof.
  unfold findChunkContaining. rewrite same_arity.
  pose proof (idx_range b 3). unfold arity in *.
  apply same_findChunkLoop; unfold arity; lia.
Qed.

Lemma same_validTagsLoop n : forall i,
  0 <= i -> i + Z.of_nat n <= arity b ->
  validTagsLoop b' i n = validTagsLoop b i n.
Proof.
  induction n as [|n IH]; intros i Hi Hn; [reflexivity|].
  cbn [validTagsLoop]. rewrite IH by lia. same_tac.
Qed.

Lemma same_validDPtrLoop n : forall i prev,
  0 <= i -> i + Z.of_nat n <= arity b + 1 ->
  validDPtrLoop b' prev i n = validDPtrLoop b prev i n.
Proof.
  induction n as [|n IH]; intros i prev Hi Hn; [reflexivity|].
  cbn [validDPtrLoop]. rewrite same_u48 by (unfold nodeSize; lia).
  rewrite IH by lia. reflexivity.
Qed.

Lemma same_validCPtrLoop m n : forall i,
  0 <= i -> i + Z.of_nat n <= arity b ->
  validCPtrLoop b' (8 * arity b + 8) m i n = validCPtrLoop b (8 * arity b + 8) m i n.
Proof.
  induction n as [|n IH]; intros i Hi Hn; [reflexivity|].
  cbn [validCPtrLoop]. rewrite same_u48 by (unfold nodeSize; lia).
  rewrite IH by lia. reflexivity.
Qed.

Lemma same_valid : valid b' = valid b.
Proof.
  pose proof (idx_range b 3) as R.
  assert (E3 : idx b' 3 = idx b 3) by apply same_arity.
  unfold valid, foldedChecksum. rewrite !E3.
  rewrite !(same_idx 0), !(same_idx 1), !(same_idx 2), !(same_idx 4), !(same_idx 5)
    by (unfold arity, nodeSize; lia).
  destruct (idx b 3 =? 0) eqn:E0.
  { now rewrite !orb_true_r. }
  apply Z.eqb_neq in E0.
  rewrite !(same_idx (16 * idx b 3 + 16 - 1)),
          !(same_idx (8 * idx b 3 + 6)), !(same_idx (8 * idx b 3 + 7)),
          !(same_idx (16 * idx b 3 + 14)) by (unfold arity, nodeSize; lia).
  rewrite (same_u48 (8 * 1)), (same_u48 (16 * idx b 3 + 16 - 8))
    by (unfold arity, nodeSize; lia).
  rewrite same_validTagsLoop by (unfold arity; lia).
  rewrite same_validDPtrLoop by (unfold arity; lia).
  fold (arity b). rewrite same_validCPtrLoop by (unfold arity; lia).
  rewrite <- (sameUpTo_slice _ _ _ 6 (16 * arity b + 16) same)
    by (unfold nodeSize; lia).
  reflexivity.
Qed.
End SameNode.

Lemma sameNode_sym b b' : sameNode b b' -> sameNode b' b.
Proof.
  intros H. unfold sameNode. rewrite (same_arity _ _ H).
  apply sameUpTo_sym. exact H.
Qed.

Lemma sameNode_trans b1 b2 b3 : sameNode b1 b2 -> sameNode b2 b3 -> sameNode b1 b3.
Proof.
  intros H1 H2. unfold sameNode in *. rewrite (same_arity _ _ H1) in H2.
  eapply sameUpTo_trans; eassumption.
Qed.

(** ** Reads *)

Lemma readAt_inside (f p : list byte) (n off : Z) :
  0 <= off -> 0 <= n -> off + n <= Z.of_nat (length f) ->
  readAt f p n off =
    (None, firstn (Z.to_nat n) (skipn (Z.to_nat off) f) ++ skipn (Z.to_nat n) p).
Proof.
  intros Ho Hn Hl. unfold readAt.
  destruct (Z.ltb_spec off 0); [lia|].
  assert (L : length (firstn (Z.to_nat n) (skipn (Z.to_nat off) f)) = Z.to_nat n).
  { rewrite length_firstn, length_skipn. lia. }
  rewrite L.
  destruct (Z.eqb_spec (Z.of_nat (Z.to_nat n)) n); [reflexivity|lia].
Qed.

Lemma loaded_sameUpTo (f p : list byte) (n off : Z) :
  0 <= off -> 0 <= n -> off + n <= Z.of_nat (length f) ->
  sameUpTo n (slice_from f off)
    (firstn (Z.to_nat n) (skipn (Z.to_nat off) f) ++ skipn (Z.to_nat n) p).
Proof.
  intros Ho Hn Hl. unfold sameUpTo, slice_from.
  rewrite firstn_app.
  assert (L : length (firstn (Z.to_nat n) (skipn (Z.to_nat off) f)) = Z.to_nat n).
  { rewrite length_firstn, length_skipn. lia. }
  rewrite L, Nat.sub_diag, firstn_0, app_nil_r.
  rewrite firstn_firstn, Nat.min_id. reflexivity.
Qed.

Lemma loaded_sameNode (f p : list byte) (off : Z) :
  0 <= off -> off + nodeSize (arity (nodeAt f off)) <= Z.of_nat (length f) ->
  sameNode (nodeAt f off)
    (firstn (Z.to_nat (nodeSize (arity (nodeAt f off)))) (skipn (Z.to_nat off) f)
       ++ skipn (Z.to_nat (nodeSize (arity (nodeAt f off)))) p).
Proof.
  intros Ho Hl. unfold sameNode. apply loaded_sameUpTo; try lia.
  pose proof (idx_range (nodeAt f off) 3). unfold nodeSize, arity. lia.
Qed.

Lemma readNode_inside (f : list byte) (r : Reader) (n off : Z) :
  ReadSeeker r = Some f ->
  0 <= off -> 0 <= n -> off + n <= Z.of_nat (length f) ->
  readNode n off r =
    (None, set_currNode (firstn (Z.to_nat n) (skipn (Z.to_nat off) f)
                           ++ skipn (Z.to_nat n) (currNode r)) r).
Proof.
  intros Hf Ho Hn Hl. unfold readNode, theFile. rewrite Hf.
  rewrite readAt_inside by assumption. reflexivity.
Qed.

Lemma load_inside (f : list byte) (r : Reader) (a off : Z) :
  ReadSeeker r = Some f ->
  0 < a -> 0 <= off -> off + nodeSize a <= Z.of_nat (length f) ->
  load off a r =
    (None, set_currNode (firstn (Z.to_nat (nodeSize a)) (skipn (Z.to_nat off) f)
                           ++ skipn (Z.to_nat (nodeSize a)) (currNode r)) r).
Proof.
  intros Hf Ha Ho Hl. unfold load.
  destruct (Z.eqb_spec a 0); [lia|].
  rewrite (readNode_inside f) by (try assumption; unfold nodeSize; lia).
  reflexivity.
Qed.

(** ** [loadAndValidate] against [childOK] *)

Lemma loadAndValidate_childOK (f : list byte) (r : Reader)
    (off pc pv pm cb ds : Z) :
  ReadSeeker r = Some f -> CompressedSize r = fileSize f ->
  if childOK f off pc pv pm cb ds then
    exists b, loadAndValidate off pc pv pm cb ds r = (None, set_currNode b r)
              /\ sameNode (nodeAt f off) b
  else
    exists r', loadAndValidate off pc pv pm cb ds r = (Some errInvalidIndexNode, r')
               /\ err r' = Some errInvalidIndexNode.
Proof.
  intros Hf Hs. unfold childOK, loadAndValidate. rewrite Hs.
  destruct ((off <? 0) || (fileSize f - 4 <? off)) eqn:E1; cbn [negb andb].
  { eexists. split; reflexivity. }
  apply orb_false_iff in E1. destruct E1 as [E1a E1b].
  apply Z.ltb_ge in E1a, E1b. unfold fileSize in *.
  rewrite (readNode_inside f) by (try assumption; lia).
  cbn [currNode set_currNode CompressedSize].
  set (b1 := firstn (Z.to_nat 4) (skipn (Z.to_nat off) f) ++ skipn (Z.to_nat 4) (currNode r)).
  assert (A1 : idx b1 3 = arity (nodeAt f off)).
  { unfold arity, nodeAt. symmetry.
    apply (sameUpTo_idx 4); [|lia]. apply loaded_sameUpTo; lia. }
  rewrite A1. rewrite Hs.
  destruct (arity (nodeAt f off) =? 0) eqn:E2; cbn [negb andb].
  { eexists. split; reflexivity. }
  apply Z.eqb_neq in E2.
  pose proof (idx_range (nodeAt f off) 3) as R3. fold (arity (nodeAt f off)) in R3.
  destruct ((Z.of_nat (length f) <? nodeSize (arity (nodeAt f off)))
            || (Z.of_nat (length f) - nodeSize (arity (nodeAt f off)) <? off)) eqn:E3;
    cbn [negb andb].
  { eexists. split; reflexivity. }
  apply orb_false_iff in E3. destruct E3 as [E3a E3b].
  apply Z.ltb_ge in E3a, E3b.
  rewrite (load_inside f)
    by (cbn [ReadSeeker set_currNode]; try assumption; unfold nodeSize in *; lia).
  cbn [currNode set_currNode].
  set (b2 := firstn (Z.to_nat (nodeSize (arity (nodeAt f off)))) (skipn (Z.to_nat off) f)
             ++ skipn (Z.to_nat (nodeSize (arity (nodeAt f off)))) b1).
  assert (S2 : sameNode (nodeAt f off) b2).
  { apply loaded_sameNode; unfold nodeSize in *; lia. }
  rewrite (same_valid _ _ S2), (same_codec _ _ S2), (same_version _ _ S2),
          (same_cPtrMax _ _ S2), (same_dPtrMax _ _ S2).
  destruct (valid (nodeAt f off)); cbn [negb andb].
  2:{ eexists. split; reflexivity. }
  match goal with
  | |- context [negb (negb ?x || ?y || ?z || negb ?w)] =>
      destruct (negb x || y || z || negb w); cbn [negb]
  end.
  - eexists. split; reflexivity.
  - exists b2. split; [reflexivity|exact S2].
Qed.

(** ** What the operations leave alone *)

Lemma readNode_fields n off r e r' :
  readNode n off r = (e, r') ->
  ReadSeeker r' = ReadSeeker r /\ CompressedSize r' = CompressedSize r
  /\ initialized r' = initialized r /\ err r' = err r
  /\ decompressedSize r' = decompressedSize r.
Proof.
  unfold readNode. destruct (readAt _ _ _ _) as [e0 p]. intros H.
  injection H as <- <-. repeat split.
Qed.

Lemma load_decompressedSize off a r e r' :
  load off a r = (e, r') -> decompressedSize r' = decompressedSize r.
Proof.
  unfold load, latch. destruct (a =? 0).
  - intros H. injection H as <- <-. reflexivity.
  - destruct (readNode _ _ r) as [[e0|] r0] eqn:E;
      apply readNode_fields in E; destruct E as (_ & _ & _ & _ & D);
      intros H; injection H as <- <-; cbn; exact D.
Qed.

Lemma load_None off a r r' :
  load off a r = (None, r') ->
  err r' = err r /\ initialized r' = initialized r.
Proof.
  unfold load, latch. destruct (a =? 0); [discriminate|].
  destruct (readNode _ _ r) as [[e0|] r0] eqn:E; [discriminate|].
  apply readNode_fields in E. destruct E as (_ & _ & I & Er & _).
  intros H. injection H as <-. split; assumption.
Qed.

Lemma loadAndValidate_decompressedSize off pc pv pm cb ds r e r' :
  loadAndValidate off pc pv pm cb ds r = (e, r') ->
  decompressedSize r' = decompressedSize r.
Proof.
  unfold loadAndValidate, latch. intros H. cbv zeta in H.
  destruct ((off <? 0) || _); [injection H as <- <-; reflexivity|].
  destruct (readNode 4 off r) as [[e0|] r0] eqn:E0;
    apply readNode_fields in E0; destruct E0 as (_ & _ & _ & _ & D0);
    [injection H as <- <-; exact D0|].
  destruct (idx (currNode r0) 3 =? 0); [injection H as <- <-; exact D0|].
  destruct ((CompressedSize r0 <? _) || _); [injection H as <- <-; exact D0|].
  destruct (load off _ r0) as [[e1|] r1] eqn:E1;
    apply load_decompressedSize in E1;
    [injection H as <- <-; congruence|].
  destruct (negb (valid _)); [injection H as <- <-; cbn; congruence|].
  destruct (negb _ || _ || _ || _); injection H as <- <-; cbn; congruence.
Qed.

Lemma walk_decompressedSize fuel : forall cB dB r e r',
  walk fuel cB dB r = Done (e, r') -> decompressedSize r' = decompressedSize r.
Proof.
  induction fuel as [|fuel IH]; intros cB dB r e r' H; [discriminate|].
  cbn [walk] in H.
  destruct (findChunkContaining _ _ _) as [i|]; [|discriminate].
  destruct (isLeaf _ i).
  - injection H as <- <-. reflexivity.
  - destruct (loadAndValidate _ _ _ _ _ _ r) as [[e0|] r0] eqn:E;
      apply loadAndValidate_decompressedSize in E.
    + injection H as <- <-. exact E.
    + apply IH in H. congruence.
Qed.

Lemma resolveSeekPosition_decompressedSize fuel r e r' :
  resolveSeekPosition fuel r = Done (e, r') ->
  decompressedSize r' = decompressedSize r.
Proof.
  unfold resolveSeekPosition. intros H.
  destruct (load _ _ r) as [[e0|] r0] eqn:E; apply load_decompressedSize in E.
  - injection H as <- <-. exact E.
  - apply walk_decompressedSize in H. congruence.
Qed.

Lemma emitLoop_decompressedSize n k : forall r c r',
  emitLoop n k r = (c, r') -> decompressedSize r' = decompressedSize r.
Proof.
  induction k as [|k IH]; intros r c r' H; cbn [emitLoop] in H.
  - injection H as <- <-. reflexivity.
  - destruct (nextChunk r <? n); [|injection H as <- <-; reflexivity].
    destruct (negb _); [injection H as <- <-; reflexivity|].
    apply IH in H. exact H.
Qed.

Lemma nextChunkLoop_decompressedSize wfuel fuel : forall r c e r',
  nextChunkLoop wfuel fuel r = Done (c, e, r') ->
  decompressedSize r' = decompressedSize r.
Proof.
  induction fuel as [|fuel IH]; intros r c e r' H; [discriminate|].
  cbn [nextChunkLoop] in H.
  assert (EM : forall r0,
             match emitLoop (arity (currNode r0))
                     (Z.to_nat (arity (currNode r0) - nextChunk r0)) r0 with
             | (Some c0, r1) => Done (c0, None, r1)
             | (None, r1) =>
                 nextChunkLoop wfuel fuel (set_needToResolveSeekPosition true r1)
             end = Done (c, e, r') ->
             decompressedSize r' = decompressedSize r0).
  { intros r0 H0.
    destruct (emitLoop _ _ r0) as [[c0|] r1] eqn:E;
      apply emitLoop_decompressedSize in E.
    - injection H0 as <- <- <-. exact E.
    - apply IH in H0. cbn in H0. congruence. }
  destruct (needToResolveSeekPosition r); [|now apply EM].
  destruct (seekPosition r >=? decompressedSize r);
    [injection H as <- <- <-; reflexivity|].
  destruct (resolveSeekPosition wfuel _) as [[[e0|] r0]| |] eqn:E; try discriminate;
    apply resolveSeekPosition_decompressedSize in E; cbn in E.
  - injection H as <- <- <-. exact E.
  - apply EM in H. congruence.
Qed.

(** [tryRootNode] and the fields that [initialize] answers for. *)
Lemma sizeSane_trans r1 r2 r3 : sizeSane r1 r2 -> sizeSane r2 r3 -> sizeSane r1 r3.
Proof. unfold sizeSane. intros [H1|H1] [H2|H2]; (left; congruence) || (right; lia). Qed.

Lemma sizeSane_eq r r' : decompressedSize r' = decompressedSize r -> sizeSane r r'.
Proof. now left. Qed.

Lemma tryRootNode_fields a fromEnd r found e r' :
  tryRootNode a fromEnd r = (found, e, r') ->
  initialized r' = initialized r /\ errKept e r r' /\ sizeSane r r'.
Proof.
  unfold tryRootNode. intros H. cbv zeta in H.
  destruct (a =? 0) eqn:Ea; [injection H as <- <- <-; repeat split; now left|].
  destruct (CompressedSize r <? nodeSize a);
    [injection H as <- <- <-; repeat split; now left|].
  destruct (load _ a r) as [[e0|] r0] eqn:E.
  - injection H as <- <- <-.
    pose proof (load_decompressedSize _ _ _ _ _ E) as D.
    unfold load, latch in E. rewrite Ea in E.
    destruct (readNode _ _ r) as [[e1|] r1] eqn:E1; [|discriminate].
    apply readNode_fields in E1. destruct E1 as (_ & _ & I & _ & _).
    injection E as <- <-. cbn. repeat split; [exact I|now left].
  - pose proof (load_decompressedSize _ _ _ _ _ E) as D.
    apply load_None in E. destruct E as (Er & I).
    destruct (negb (valid _));
      [injection H as <- <- <-; repeat split; try assumption; now left|].
    destruct (negb (_ =? _));
      [injection H as <- <- <-; repeat split; try assumption; now left|].
    injection H as <- <- <-. cbn. repeat split; try assumption.
    right. apply u48LE_range.
Qed.

Lemma findRootNode_fields r e r' :
  findRootNode r = (e, r') ->
  initialized r' = initialized r /\ errKept e r r' /\ sizeSane r r'.
Proof.
  unfold findRootNode, latch. intros H. cbv zeta in H.
  destruct (readNode 4 0 r) as [[e0|] r0] eqn:E0;
    apply readNode_fields in E0; destruct E0 as (_ & _ & I0 & Er0 & D0).
  { injection H as <- <-. cbn. repeat split; [exact I0|now left]. }
  destruct (negb _ || _ || _).
  { injection H as <- <-. cbn. repeat split; [exact I0|now left]. }
  destruct (tryRootNode _ false r0) as [[found1 e1] r1] eqn:E1.
  apply tryRootNode_fields in E1. destruct E1 as (I1 & Er1 & D1).
  pose proof (sizeSane_trans r r0 r1 (sizeSane_eq _ _ D0) D1) as D01.
  destruct e1 as [e1|].
  { destruct found1; injection H as <- <-; repeat split; try exact D01; congruence. }
  cbn in Er1.
  destruct found1.
  { injection H as <- <-. repeat split; [congruence| |exact D01]. cbn. congruence. }
  destruct (readNode 1 _ r1) as [[e2|] r2] eqn:E2;
    apply readNode_fields in E2; destruct E2 as (_ & _ & I2 & Er2 & D2);
    pose proof (sizeSane_trans r r1 r2 D01 (sizeSane_eq _ _ D2)) as D02.
  { injection H as <- <-. cbn. repeat split; [congruence|exact D02]. }
  destruct (tryRootNode _ true r2) as [[found3 e3] r3] eqn:E3.
  apply tryRootNode_fields in E3. destruct E3 as (I3 & Er3 & D3).
  pose proof (sizeSane_trans r r2 r3 D02 D3) as D03.
  destruct e3 as [e3|].
  { destruct found3; injection H as <- <-; repeat split; try exact D03; congruence. }
  cbn in Er3.
  destruct found3; injection H as <- <-; repeat split;
    try exact D03; cbn; congruence.
Qed.

Lemma initialize_fields r e r' :
  initialize r = (e, r') ->
  match e with
  | None => err r' = None /\ initialized r' = true
  | Some _ => True
  end /\ sizeSane r r'.
Proof.
  unfold initialize, checkParameters, latch. intros H. cbv zeta in H.
  destruct (err r) as [e0|] eqn:Er.
  { injection H as <- <-. split; [exact I|now left]. }
  destruct (initialized r) eqn:Ei.
  { injection H as <- <-. split; [now split|now left]. }
  cbn [CompressedSize ReadSeeker set_initialized] in H.
  destruct (ReadSeeker r) as [f|].
  2:{ injection H as <- <-. split; [exact I|now left]. }
  destruct (CompressedSize r <? 32).
  { injection H as <- <-. split; [exact I|now left]. }
  destruct (findRootNode _) as [[e1|] r1] eqn:E1;
    apply findRootNode_fields in E1; destruct E1 as (I1 & Er1 & D1);
    cbn in I1, Er1; unfold sizeSane in D1; cbn in D1.
  { injection H as <- <-. split; [exact I|exact D1]. }
  destruct (negb _); injection H as <- <-; cbn.
  - split; [exact I|exact D1].
  - split; [split; congruence|exact D1].
Qed.

(** ** Which errors are latched *)

Lemma load_latches off a r e r' :
  load off a r = (Some e, r') -> err r' = Some e.
Proof.
  unfold load, latch. destruct (a =? 0).
  - intros H. injection H as <- <-. reflexivity.
  - destruct (readNode _ _ r) as [[e0|] r0]; intros H; [|discriminate].
    injection H as <- <-. reflexivity.
Qed.

Lemma loadAndValidate_latches off pc pv pm cb ds r e r' :
  loadAndValidate off pc pv pm cb ds r = (Some e, r') -> err r' = Some e.
Proof.
  unfold loadAndValidate, latch. intros H. cbv zeta in H.
  destruct ((off <? 0) || _); [injection H as <- <-; reflexivity|].
  destruct (readNode 4 off r) as [[e0|] r0]; [injection H as <- <-; reflexivity|].
  destruct (idx (currNode r0) 3 =? 0); [injection H as <- <-; reflexivity|].
  destruct ((CompressedSize r0 <? _) || _); [injection H as <- <-; reflexivity|].
  destruct (load off _ r0) as [[e1|] r1] eqn:E1.
  { apply load_latches in E1. injection H as <- <-. exact E1. }
  destruct (negb (valid _)); [injection H as <- <-; reflexivity|].
  destruct (negb _ || _ || _ || _); [injection H as <- <-; reflexivity|discriminate].
Qed.

Lemma walk_latches fuel : forall cB dB r e r',
  walk fuel cB dB r = Done (Some e, r') -> err r' = Some e.
Proof.
  induction fuel as [|fuel IH]; intros cB dB r e r' H; [discriminate|].
  cbn [walk] in H.
  destruct (findChunkContaining _ _ _) as [i|]; [|discriminate].
  destruct (isLeaf _ i); [discriminate|].
  destruct (loadAndValidate _ _ _ _ _ _ r) as [[e0|] r0] eqn:E.
  - apply loadAndValidate_latches in E. injection H as <- <-. exact E.
  - exact (IH _ _ _ _ _ H).
Qed.

Lemma resolveSeekPosition_latches fuel r e r' :
  resolveSeekPosition fuel r = Done (Some e, r') -> err r' = Some e.
Proof.
  unfold resolveSeekPosition. intros H.
  destruct (load _ _ r) as [[e0|] r0] eqn:E.
  - apply load_latches in E. injection H as <- <-. exact E.
  - exact (walk_latches _ _ _ _ _ _ H).
Qed.

Lemma loadAndValidate_None_err off pc pv pm cb ds r r' :
  loadAndValidate off pc pv pm cb ds r = (None, r') -> err r' = err r.
Proof.
  unfold loadAndValidate, latch. intros H. cbv zeta in H.
  destruct ((off <? 0) || _); [discriminate|].
  destruct (readNode 4 off r) as [[e0|] r0] eqn:E0; [discriminate|].
  apply readNode_fields in E0. destruct E0 as (_ & _ & _ & Er0 & _).
  destruct (idx (currNode r0) 3 =? 0); [discriminate|].
  destruct ((CompressedSize r0 <? _) || _); [discriminate|].
  destruct (load off _ r0) as [[e1|] r1] eqn:E1; [discriminate|].
  apply load_None in E1. destruct E1 as (Er1 & _).
  destruct (negb (valid _)); [discriminate|].
  destruct (negb _ || _ || _ || _); [discriminate|].
  injection H as <-. congruence.
Qed.

Lemma walk_None_err fuel : forall cB dB r r',
  walk fuel cB dB r = Done (None, r') -> err r' = err r.
Proof.
  induction fuel as [|fuel IH]; intros cB dB r r' H; [discriminate|].
  cbn [walk] in H.
  destruct (findChunkContaining _ _ _) as [i|]; [|discriminate].
  destruct (isLeaf _ i); [injection H as <-; reflexivity|].
  destruct (loadAndValidate _ _ _ _ _ _ r) as [[e0|] r0] eqn:E; [discriminate|].
  apply loadAndValidate_None_err in E. apply IH in H. congruence.
Qed.

Lemma resolveSeekPosition_None_err fuel r r' :
  resolveSeekPosition fuel r = Done (None, r') -> err r' = err r.
Proof.
  unfold resolveSeekPosition. intros H.
  destruct (load _ _ r) as [[e0|] r0] eqn:E; [discriminate|].
  apply load_None in E. destruct E as (E & _).
  apply walk_None_err in H. congruence.
Qed.

Lemma emitLoop_err n k : forall r c r',
  emitLoop n k r = (c, r') -> err r' = err r.
Proof.
  induction k as [|k IH]; intros r c r' H; cbn [emitLoop] in H.
  - injection H as <- <-. reflexivity.
  - destruct (nextChunk r <? n); [|injection H as <- <-; reflexivity].
    destruct (negb _); [injection H as <- <-; reflexivity|].
    apply IH in H. exact H.
Qed.

Lemma nextChunkLoop_latches wfuel fuel : forall r c e r',
  nextChunkLoop wfuel fuel r = Done (c, Some e, r') ->
  err r' = Some e \/ e = io_EOF /\ err r' = err r.
Proof.
  induction fuel as [|fuel IH]; intros r c e r' H; [discriminate|].
  cbn [nextChunkLoop] in H.
  assert (EM : forall r0,
             err r0 = err r ->
             match emitLoop (arity (currNode r0))
                     (Z.to_nat (arity (currNode r0) - nextChunk r0)) r0 with
             | (Some c0, r1) => Done (c0, None, r1)
             | (None, r1) =>
                 nextChunkLoop wfuel fuel (set_needToResolveSeekPosition true r1)
             end = Done (c, Some e, r') ->
             err r' = Some e \/ e = io_EOF /\ err r' = err r).
  { intros r0 E0 H0.
    destruct (emitLoop _ _ r0) as [[c0|] r1] eqn:E; [discriminate|].
    assert (E1 : err r1 = err r0) by exact (emitLoop_err _ _ _ _ _ E).
    apply IH in H0. cbn [err set_needToResolveSeekPosition] in H0.
    destruct H0 as [H0|(H0 & H1)]; [now left|right; split; congruence]. }
  destruct (needToResolveSeekPosition r); [|now apply (EM r)].
  destruct (seekPosition r >=? decompressedSize r).
  { injection H as <- <- <-. right. split; reflexivity. }
  destruct (resolveSeekPosition wfuel _) as [[[e0|] r0]| |] eqn:E; try discriminate.
  - apply resolveSeekPosition_latches in E. injection H as <- <- <-. now left.
  - apply resolveSeekPosition_None_err in E. cbn [err set_needToResolveSeekPosition] in E.
    now apply (EM r0).
Qed.

Lemma tryRootNode_latches a fromEnd r found e r' :
  tryRootNode a fromEnd r = (found, Some e, r') -> err r' = Some e.
Proof.
  unfold tryRootNode. intros H. cbv zeta in H.
  destruct (a =? 0); [discriminate|].
  destruct (CompressedSize r <? nodeSize a); [discriminate|].
  destruct (load _ a r) as [[e0|] r0] eqn:E.
  - apply load_latches in E. injection H as _ <- <-. exact E.
  - destruct (negb (valid _)); [discriminate|].
    destruct (negb (_ =? _)); discriminate.
Qed.

Lemma findRootNode_latches r e r' :
  findRootNode r = (Some e, r') ->
  err r' = Some e \/ e = errMissingRootNode /\ err r' = err r.
Proof.
  unfold findRootNode, latch. intros H. cbv zeta in H.
  destruct (readNode 4 0 r) as [[e0|] r0] eqn:E0;
    [injection H as <- <-; now left|].
  apply readNode_fields in E0. destruct E0 as (_ & _ & _ & Er0 & _).
  destruct (negb _ || _ || _); [injection H as <- <-; now left|].
  destruct (tryRootNode _ false r0) as [[found1 [e1|]] r1] eqn:E1.
  { apply tryRootNode_latches in E1.
    destruct found1; injection H as <- <-; now left. }
  apply tryRootNode_fields in E1. destruct E1 as (_ & Er1 & _). cbn in Er1.
  destruct found1; [discriminate|].
  destruct (readNode 1 _ r1) as [[e2|] r2] eqn:E2;
    [injection H as <- <-; now left|].
  apply readNode_fields in E2. destruct E2 as (_ & _ & _ & Er2 & _).
  destruct (tryRootNode _ true r2) as [[found3 [e3|]] r3] eqn:E3.
  { apply tryRootNode_latches in E3.
    destruct found3; injection H as <- <-; now left. }
  apply tryRootNode_fields in E3. destruct E3 as (_ & Er3 & _). cbn in Er3.
  destruct found3; [discriminate|].
  injection H as <- <-. right. split; [reflexivity|congruence].
Qed.

Lemma initialize_latches r e r' :
  initialize r = (Some e, r') ->
  err r' = Some e \/ e = errMissingRootNode /\ err r' = None.
Proof.
  unfold initialize, checkParameters, latch. intros H. cbv zeta in H.
  destruct (err r) as [e0|] eqn:Er.
  { injection H as <- <-. now left. }
  destruct (initialized r); [discriminate|].
  cbn [CompressedSize ReadSeeker set_initialized] in H.
  destruct (ReadSeeker r) as [f|]; [|injection H as <- <-; now left].
  destruct (CompressedSize r <? 32); [injection H as <- <-; now left|].
  destruct (findRootNode _) as [[e1|] r1] eqn:E1.
  - apply findRootNode_latches in E1. cbn [err set_initialized] in E1.
    injection H as <- <-. rewrite Er in E1. exact E1.
  - destruct (negb _); [injection H as <- <-; now left|discriminate].
Qed.

(** ** The descent of the reader follows the tree *)

Lemma sameSettings_refl r : sameSettings r r.
Proof. constructor; reflexivity. Qed.

Lemma sameSettings_trans r1 r2 r3 :
  sameSettings r1 r2 -> sameSettings r2 r3 -> sameSettings r1 r3.
Proof. intros [] []. constructor; congruence. Qed.

Lemma sameSettings_set_currNode b r : sameSettings r (set_currNode b r).
Proof. constructor; reflexivity. Qed.

Lemma step_slot_range f s p i :
  findChunkContaining (nodeAt f (p_off p)) s (p_dBias p) = Some i ->
  0 <= i < arity (nodeAt f (p_off p)).
Proof. intros H. now apply findChunkContaining_some in H. Qed.

Lemma walk_descend (f : list byte) (fuel : nat) : forall (r : Reader) (p : pos),
  ReadSeeker r = Some f -> CompressedSize r = fileSize f ->
  sameNode (nodeAt f (p_off p)) (currNode r) ->
  match descend f fuel (seekPosition r) p with
  | Done (Some (p', i)) =>
      exists r', walk fuel (p_cBias p) (p_dBias p) r = Done (None, r')
                 /\ sameSettings r r'
                 /\ sameNode (nodeAt f (p_off p')) (currNode r')
                 /\ nextChunk r' = i
                 /\ currNodeCBias r' = p_cBias p'
                 /\ currNodeDBias r' = p_dBias p'
  | Done None =>
      exists r', walk fuel (p_cBias p) (p_dBias p) r = Done (Some errInvalidIndexNode, r')
                 /\ err r' = Some errInvalidIndexNode
  | Panic => walk fuel (p_cBias p) (p_dBias p) r = Panic
  | OutOfFuel => walk fuel (p_cBias p) (p_dBias p) r = OutOfFuel
  end.
Proof.
  induction fuel as [|fuel IH]; intros r p Hf Hs Hn; [reflexivity|].
  cbn [descend walk]. unfold step.
  rewrite (same_findChunkContaining _ _ Hn).
  destruct (findChunkContaining (nodeAt f (p_off p)) (seekPosition r) (p_dBias p))
    as [i|] eqn:Ei; [|reflexivity].
  pose proof (step_slot_range _ _ _ _ Ei) as Ri.
  rewrite (same_isLeaf _ _ Hn) by assumption.
  destruct (isLeaf (nodeAt f (p_off p)) i).
  { eexists. split; [reflexivity|].
    split; [constructor; reflexivity|].
    cbn. repeat split; try reflexivity. exact Hn. }
  rewrite (same_codec _ _ Hn), (same_version _ _ Hn), (same_cPtrMax _ _ Hn),
          (same_dSize _ _ Hn), (same_sTag _ _ Hn), (same_arity _ _ Hn),
          (same_dOff _ _ Hn) by lia.
  rewrite !(same_cOff _ _ Hn i) by lia.
  assert (EC : (if sTag (nodeAt f (p_off p)) i <? arity (nodeAt f (p_off p))
                then cOff (currNode r) (sTag (nodeAt f (p_off p)) i) (p_cBias p)
                else p_cBias p)
               = childCBiasOf (nodeAt f (p_off p)) i (p_cBias p)).
  { unfold childCBiasOf.
    destruct (Z.ltb_spec (sTag (nodeAt f (p_off p)) i) (arity (nodeAt f (p_off p))));
      [|reflexivity].
    apply (same_cOff _ _ Hn).
    unfold sTag. pose proof (idx_range (nodeAt f (p_off p))
                               (8 * i + (8 * idx (nodeAt f (p_off p)) 3 + 15))).
    unfold sTag in *. lia. }
  rewrite EC.
  match goal with
  | |- context [childOK f ?o ?pc ?pv ?pm ?cb ?ds] =>
      pose proof (loadAndValidate_childOK f r o pc pv pm cb ds Hf Hs) as LV;
      destruct (childOK f o pc pv pm cb ds)
  end.
  - destruct LV as (b & -> & Sb).
    specialize (IH (set_currNode b r)
                  (mkPos (cOff (nodeAt f (p_off p)) i (p_cBias p))
                         (childCBiasOf (nodeAt f (p_off p)) i (p_cBias p))
                         (dOff (nodeAt f (p_off p)) i (p_dBias p)))
                  Hf Hs Sb).
    cbn [p_off p_cBias p_dBias seekPosition set_currNode] in IH.
    destruct (descend f fuel (seekPosition r) _) as [[[p' i']|]| |]; try exact IH.
    destruct IH as (r' & W & SS & R).
    exists r'. split; [exact W|]. split; [|exact R].
    eapply sameSettings_trans; [apply sameSettings_set_currNode|exact SS].
  - destruct LV as (r' & -> & E). exists r'. split; [reflexivity|exact E].
Qed.

(** ** The DPtr table of a valid node *)

Lemma DPtr0_range b i : 0 <= DPtr0 b i < 2 ^ 48.
Proof.
  unfold DPtr0, DPtr. destruct (i =? 0); [lia|apply u48LE_range].
Qed.

Lemma DPtr0_step b i :
  valid b = true -> 0 <= i < arity b -> DPtr0 b i <= DPtr0 b (i + 1).
Proof.
  intros V Hi. apply valid_structuralInvariants in V.
  unfold DPtr0. destruct (Z.eqb_spec i 0) as [-> |Hne].
  - cbn. apply u48LE_range.
  - destruct (Z.eqb_spec (i + 1) 0); [lia|]. apply (si_dPtr b V). lia.
Qed.

Lemma DPtr0_mono b i j :
  valid b = true -> 0 <= i <= j -> j <= arity b -> DPtr0 b i <= DPtr0 b j.
Proof.
  intros V Hij Hj.
  replace j with (i + Z.of_nat (Z.to_nat (j - i))) in * by lia.
  induction (Z.to_nat (j - i)) as [|n IH].
  - replace (i + Z.of_nat 0) with i by lia. lia.
  - replace (i + Z.of_nat (S n)) with (i + Z.of_nat n + 1) in * by lia.
    etransitivity; [apply IH; lia|]. apply DPtr0_step; [assumption|lia].
Qed.

Lemma DPtr0_arity b : arity b <> 0 -> DPtr0 b (arity b) = dPtrMax b.
Proof.
  intros H. unfold DPtr0, DPtr, dPtrMax, arity in *.
  destruct (Z.eqb_spec (idx b 3) 0); [contradiction|reflexivity].
Qed.

Lemma dOff_DPtr0 b i dBias : dOff b i dBias = add64 dBias (DPtr0 b i) \/ i = 0.
Proof.
  unfold dOff, DPtr0, DPtr. destruct (Z.eqb_spec i 0); [now right|now left].
Qed.

Section GoodPos.
Variable f : list byte.
Variable p : pos.
Hypothesis good : goodPos f p.

Let n := nodeAt f (p_off p).

Lemma good_valid : valid n = true.
Proof. exact (proj1 good). Qed.

Lemma good_arity : 1 <= arity n <= 255.
Proof. exact (si_arity _ (valid_structuralInvariants _ good_valid)). Qed.

Lemma good_slotLow i :
  0 <= i <= arity n -> slotLow f p i = p_dBias p + DPtr0 n i.
Proof.
  intros Hi. destruct good as (V & L & H).
  unfold slotLow, nodeHigh in *. fold n in H |- *.
  pose proof (DPtr0_range n i).
  pose proof (DPtr0_mono n i (arity n) V ltac:(lia) ltac:(lia)) as M.
  rewrite DPtr0_arity in M by (pose proof good_arity; lia).
  destruct (dOff_DPtr0 n i (p_dBias p)) as [E| ->].
  - rewrite E. apply add64_small. lia.
  - unfold dOff, DPtr0. cbn. lia.
Qed.

Lemma good_slotHigh i :
  0 <= i < arity n -> slotHigh f p i = p_dBias p + DPtr0 n (i + 1).
Proof. intros Hi. unfold slotHigh. fold (slotLow f p (i + 1)). apply good_slotLow. lia. Qed.

Lemma good_slot_order i :
  0 <= i < arity n ->
  nodeLow p <= slotLow f p i /\ slotLow f p i <= slotHigh f p i
  /\ slotHigh f p i <= nodeHigh f p.
Proof.
  intros Hi. rewrite good_slotLow, good_slotHigh by lia.
  unfold nodeLow, nodeHigh. fold n.
  pose proof (DPtr0_range n i).
  pose proof (DPtr0_step n i good_valid Hi).
  pose proof (DPtr0_mono n (i + 1) (arity n) good_valid ltac:(lia) ltac:(lia)) as M.
  rewrite DPtr0_arity in M by lia. lia.
Qed.

Lemma good_slot_mono i j :
  0 <= i -> i < j -> j < arity n -> slotHigh f p i <= slotLow f p j.
Proof.
  intros Hi Hij Hj. rewrite good_slotLow, good_slotHigh by lia.
  pose proof (DPtr0_mono n (i + 1) j good_valid ltac:(lia) ltac:(lia)). lia.
Qed.

Lemma good_nodeHigh : slotLow f p (arity n) = nodeHigh f p.
Proof.
  pose proof good_arity.
  rewrite good_slotLow by lia. rewrite DPtr0_arity by lia. reflexivity.
Qed.

(** The slot search finds the slot that holds the position. *)
Lemma good_find s :
  nodeLow p <= s < nodeHigh f p ->
  exists i, findChunkContaining n s (p_dBias p) = Some i
            /\ 0 <= i < arity n
            /\ slotLow f p i <= s < slotHigh f p i.
Proof.
  intros Hs. pose proof good_arity as HA.
  destruct (findChunkContaining_total n s (p_dBias p)) as [i Hi]; [lia| |].
  - change (s < slotLow f p (arity n)). rewrite good_nodeHigh. lia.
  - exists i. split; [exact Hi|].
    destruct (findChunkContaining_some _ _ _ _ Hi) as (R & L & M).
    split; [exact R|]. split; [|exact L].
    destruct (Z.eq_dec i 0) as [-> |Hne].
    + unfold slotLow, dOff. cbn. unfold nodeLow in Hs. lia.
    + specialize (M (i - 1) ltac:(lia)).
      replace (i - 1 + 1) with i in M by lia. exact M.
Qed.

Lemma good_find_unique s i :
  0 <= i < arity n -> slotLow f p i <= s < slotHigh f p i ->
  findChunkContaining n s (p_dBias p) = Some i.
Proof.
  intros Hi Hs.
  pose proof (good_slot_order i Hi) as O.
  destruct (good_find s ltac:(lia)) as (k & Ek & Rk & Hk).
  rewrite Ek. f_equal.
  destruct (Z.lt_trichotomy k i) as [L|[E|L]]; [|exact E|].
  - pose proof (good_slot_mono k i ltac:(lia) L ltac:(lia)). lia.
  - pose proof (good_slot_mono i k ltac:(lia) L ltac:(lia)). lia.
Qed.
End GoodPos.

Lemma good_found f p s i :
  goodPos f p -> nodeLow p <= s ->
  findChunkContaining (nodeAt f (p_off p)) s (p_dBias p) = Some i ->
  0 <= i < arity (nodeAt f (p_off p)) /\ slotLow f p i <= s < slotHigh f p i.
Proof.
  intros G Hs Hi.
  destruct (findChunkContaining_some _ _ _ _ Hi) as (R & L & _).
  pose proof (good_slot_order f p G i R) as O. unfold slotHigh in O.
  destruct (good_find f p G s ltac:(lia)) as (k & Ek & Rk & Hk).
  rewrite Hi in Ek. injection Ek as <-. split; assumption.
Qed.

Lemma dSize_DPtr0 b i : 0 <= i -> dSize b i = DPtr0 b (i + 1) - DPtr0 b i.
Proof.
  intros Hi. unfold dSize, DPtr0, DPtr.
  destruct (Z.eqb_spec (i + 1) 0); [lia|].
  replace (8 * (i + 1)) with (8 * i + 8) by lia.
  pose proof (u48LE_range (slice_from b (8 * i + 8))).
  pose proof (u48LE_range (slice_from b (8 * i))).
  destruct (Z.eqb_spec i 0) as [-> |Hne].
  - change (0 >? 0) with false. cbv iota. apply sub64_small. lia.
  - destruct (Z.gtb_spec i 0); [|lia]. apply sub64_small. lia.
Qed.

(** ** One step of the descent *)

Lemma childOK_true f off pc pv pm cb ds :
  childOK f off pc pv pm cb ds = true ->
  valid (nodeAt f off) = true /\ dPtrMax (nodeAt f off) = ds
  /\ add64 cb (cPtrMax (nodeAt f off)) <= pm
  /\ 0 <= off /\ off + nodeSize (arity (nodeAt f off)) <= fileSize f
  /\ bitwiseSubset pc (codec (nodeAt f off)) = true
  /\ version (nodeAt f off) <= pv.
Proof.
  unfold childOK. intros H.
  repeat match type of H with
         | _ && _ = true => apply andb_true_iff in H; destruct H as [H ?]
         end.
  repeat match goal with
         | E : negb _ = true |- _ => apply negb_true_iff in E
         | E : _ || _ = false |- _ => apply orb_false_iff in E; destruct E
         | E : negb _ = false |- _ => apply negb_false_iff in E
         | E : (_ <? _) = false |- _ => apply Z.ltb_ge in E
         | E : (_ =? _) = true |- _ => apply Z.eqb_eq in E
         end.
  repeat split; try assumption; try lia; congruence.
Qed.

Lemma step_Down f s p p' :
  goodPos f p -> nodeLow p <= s -> step f s p = Down p' ->
  exists i,
    findChunkContaining (nodeAt f (p_off p)) s (p_dBias p) = Some i
    /\ isLeaf (nodeAt f (p_off p)) i = false
    /\ 0 <= i < arity (nodeAt f (p_off p))
    /\ slotLow f p i <= s < slotHigh f p i
    /\ goodPos f p'
    /\ nodeLow p' = slotLow f p i /\ nodeHigh f p' = slotHigh f p i.
Proof.
  intros G Hs H. unfold step in H.
  destruct (findChunkContaining _ s _) as [i|] eqn:Ei; [|discriminate].
  destruct (isLeaf _ i) eqn:El; [discriminate|].
  destruct (childOK _ _ _ _ _ _ _) eqn:Ec; [|discriminate].
  injection H as <-.
  destruct (good_found _ _ _ _ G Hs Ei) as (Ri & Hi).
  apply childOK_true in Ec. destruct Ec as (V & D & _).
  pose proof (good_slot_order f p G i Ri) as O.
  assert (NH : nodeHigh f (mkPos (cOff (nodeAt f (p_off p)) i (p_cBias p))
                              (childCBiasOf (nodeAt f (p_off p)) i (p_cBias p))
                              (dOff (nodeAt f (p_off p)) i (p_dBias p)))
               = slotHigh f p i).
  { unfold nodeHigh. cbn [p_off p_dBias]. rewrite D.
    change (dOff (nodeAt f (p_off p)) i (p_dBias p)) with (slotLow f p i).
    rewrite good_slotLow, good_slotHigh, dSize_DPtr0 by (assumption || lia). lia. }
  exists i. repeat split; try assumption; try lia.
  - cbn [p_dBias].
    change (dOff (nodeAt f (p_off p)) i (p_dBias p)) with (slotLow f p i).
    destruct G as (_ & G0 & _). unfold nodeLow in *. lia.
  - rewrite NH. destruct G as (_ & _ & G1). lia.
Qed.

Lemma step_AtLeaf f s p i :
  goodPos f p -> nodeLow p <= s -> step f s p = AtLeaf i ->
  findChunkContaining (nodeAt f (p_off p)) s (p_dBias p) = Some i
  /\ isLeaf (nodeAt f (p_off p)) i = true
  /\ 0 <= i < arity (nodeAt f (p_off p))
  /\ slotLow f p i <= s < slotHigh f p i.
Proof.
  intros G Hs H. unfold step in H.
  destruct (findChunkContaining _ s _) as [k|] eqn:Ei; [|discriminate].
  destruct (isLeaf _ k) eqn:El.
  - injection H as ->. destruct (good_found _ _ _ _ G Hs Ei). repeat split; tauto.
  - destruct (childOK _ _ _ _ _ _ _); discriminate.
Qed.

(** The step depends on the position sought only through the slot. *)
Lemma step_slot f s x p i :
  findChunkContaining (nodeAt f (p_off p)) s (p_dBias p) = Some i ->
  findChunkContaining (nodeAt f (p_off p)) x (p_dBias p) = Some i ->
  step f x p = step f s p.
Proof. intros Hs Hx. unfold step. now rewrite Hs, Hx. Qed.

(** ** Whole descents *)

(** Where a descent ends: at a leaf slot that holds the position, inside the
    part of DSpace of the node it started from; and every position of that
    slot leads to the same slot. *)
Lemma descend_leaf f fuel : forall s p q i,
  goodPos f p -> nodeLow p <= s ->
  descend f fuel s p = Done (Some (q, i)) ->
  goodPos f q
  /\ nodeLow p <= nodeLow q /\ nodeHigh f q <= nodeHigh f p
  /\ 0 <= i < arity (nodeAt f (p_off q))
  /\ isLeaf (nodeAt f (p_off q)) i = true
  /\ slotLow f q i <= s < slotHigh f q i
  /\ forall x, slotLow f q i <= x < slotHigh f q i ->
               descend f fuel x p = Done (Some (q, i)).
Proof.
  induction fuel as [|fuel IH]; intros s p q i G Hs H; [discriminate|].
  cbn [descend] in H.
  destruct (step f s p) as [k|p'| |] eqn:Es; try discriminate.
  - injection H as <- <-.
    destruct (step_AtLeaf _ _ _ _ G Hs Es) as (Ef & El & Ri & Hi).
    repeat match goal with |- _ /\ _ => split end; try assumption; try lia.
    intros x Hx. cbn [descend].
    rewrite (step_slot f s x p k Ef (good_find_unique f p G x k Ri Hx)), Es.
    reflexivity.
  - destruct (step_Down _ _ _ _ G Hs Es) as (k & Ef & El & Rk & Hk & G' & L' & H').
    destruct (IH s p' q i G' ltac:(lia) H) as (Gq & Lq & Hq & Ri & Li & Si & Sx).
    pose proof (good_slot_order f p G k Rk) as O.
    repeat match goal with |- _ /\ _ => split end; try assumption; try lia.
    intros x Hx. cbn [descend].
    pose proof (good_slot_order f q Gq i Ri) as Oq.
    rewrite (step_slot f s x p k Ef (good_find_unique f p G x k Rk ltac:(lia))), Es.
    apply Sx. exact Hx.
Qed.

(** A second descent, for a position inside the node where a first descent
    ended, ends inside that node's part of DSpace. *)
Lemma descend_through f fuel : forall s p q i,
  goodPos f p -> nodeLow p <= s ->
  descend f fuel s p = Done (Some (q, i)) ->
  forall x fuel' q' i',
    nodeLow q <= x < nodeHigh f q ->
    descend f fuel' x p = Done (Some (q', i')) ->
    nodeLow q <= slotLow f q' i' /\ slotHigh f q' i' <= nodeHigh f q.
Proof.
  induction fuel as [|fuel IH]; intros s p q i G Hs H x fuel' q' i' Hx H';
    [discriminate|].
  cbn [descend] in H.
  destruct (step f s p) as [k|p1| |] eqn:Es; try discriminate.
  - injection H as <- <-.
    destruct (descend_leaf f fuel' x p q' i' G ltac:(lia) H')
      as (Gq & Lq & Hq & Ri & _ & Si & _).
    pose proof (good_slot_order f q' Gq i' Ri). lia.
  - destruct (step_Down _ _ _ _ G Hs Es) as (k & Ef & El & Rk & Hk & G1 & L1 & H1).
    destruct (descend_leaf f fuel s p1 q i G1 ltac:(lia) H)
      as (Gq & Lq & Hq & _).
    destruct fuel' as [|fuel']; [discriminate|].
    cbn [descend] in H'.
    rewrite (step_slot f s x p k Ef (good_find_unique f p G x k Rk ltac:(lia))), Es in H'.
    exact (IH s p1 q i G1 ltac:(lia) H x fuel' q' i' Hx H').
Qed.

(** Fuel beyond what a descent needs changes nothing. *)
Lemma descend_more_fuel f fuel : forall fuel' s p res,
  descend f fuel s p = Done res -> (fuel <= fuel')%nat ->
  descend f fuel' s p = Done res.
Proof.
  induction fuel as [|fuel IH]; intros fuel' s p res H L; [discriminate|].
  destruct fuel' as [|fuel']; [lia|].
  cbn [descend] in *.
  destruct (step f s p); try exact H. apply IH; [exact H|lia].
Qed.

(** ** Boundaries *)

Lemma descend_at_boundary f fuel p0 b q i :
  goodPos f p0 -> nodeLow p0 = 0 -> 0 <= b ->
  noStraddle f p0 b ->
  descend f fuel b p0 = Done (Some (q, i)) ->
  slotLow f q i = b.
Proof.
  intros G L0 Hb NS H.
  destruct (descend_leaf f fuel b p0 q i G ltac:(lia) H)
    as (Gq & Lq & Hq & Ri & _ & Si & Sx).
  destruct (Z.eq_dec (slotLow f q i) b) as [E|Hne]; [exact E|exfalso].
  specialize (Sx (b - 1) ltac:(lia)).
  pose proof (good_slot_order f q Gq i Ri) as O.
  specialize (NS fuel (b - 1) q i ltac:(lia) Sx). lia.
Qed.

Lemma noStraddle_after f fuel p0 b q i :
  goodPos f p0 -> nodeLow p0 = 0 -> 0 <= b ->
  noStraddle f p0 b ->
  descend f fuel b p0 = Done (Some (q, i)) ->
  noStraddle f p0 (nodeHigh f q).
Proof.
  intros G L0 Hb NS H.
  pose proof (descend_at_boundary f fuel p0 b q i G L0 Hb NS H) as E.
  destruct (descend_leaf f fuel b p0 q i G ltac:(lia) H)
    as (Gq & Lq & Hq & Ri & _ & Si & _).
  pose proof (good_slot_order f q Gq i Ri) as O.
  intros fuel' x q' i' Hx H'.
  destruct (Z.lt_ge_cases x b) as [Lx|Lx].
  - specialize (NS fuel' x q' i' ltac:(lia) H'). lia.
  - apply (descend_through f fuel b p0 q i G ltac:(lia) H x fuel' q' i'); [lia|exact H'].
Qed.

(** A descent for a position inside the node it starts from does not reach
    the panic of the slot search. *)
Lemma descend_no_panic f fuel : forall s p,
  goodPos f p -> nodeLow p <= s < nodeHigh f p ->
  descend f fuel s p <> Panic.
Proof.
  induction fuel as [|fuel IH]; intros s p G Hs; [discriminate|].
  cbn [descend].
  destruct (step f s p) as [k|p'| |] eqn:Es; try discriminate.
  - destruct (step_Down f s p p' G ltac:(lia) Es) as (k & _ & _ & _ & Hk & G' & L' & H').
    apply IH; [exact G'|lia].
  - exfalso. unfold step in Es.
    destruct (good_find f p G s Hs) as (i & Ei & _). rewrite Ei in Es.
    destruct (isLeaf _ i); [discriminate|].
    destruct (childOK _ _ _ _ _ _ _); discriminate.
Qed.

(** ** Readers on an accepted container *)

Lemma sameFile_refl r : sameFile r r.
Proof. constructor; reflexivity. Qed.

Lemma sameFile_trans r1 r2 r3 : sameFile r1 r2 -> sameFile r2 r3 -> sameFile r1 r3.
Proof. intros [] []. constructor; congruence. Qed.

Lemma sameSettings_sameFile r r' : sameSettings r r' -> sameFile r r'.
Proof. intros []. constructor; assumption. Qed.

Lemma accepted_sameFile f r r' : accepted f r -> sameFile r r' -> accepted f r'.
Proof.
  intros A S. destruct S as [S1 S2 S3 S4 S5 S6 S7]. destruct A.
  constructor; rewrite ?S1, ?S2, ?S3, ?S4, ?S5, ?S6, ?S7; assumption.
Qed.

Lemma accepted_rootPos f r :
  accepted f r ->
  goodPos f (rootPos r) /\ nodeLow (rootPos r) = 0
  /\ nodeHigh f (rootPos r) = decompressedSize r.
Proof.
  intros A. unfold goodPos, nodeLow, nodeHigh, rootPos. cbn [p_off p_dBias].
  rewrite (acc_dPtrMax f r A).
  pose proof (u48LE_range (slice_from (nodeAt f (rootNodeCOffset r))
                             (8 * idx (nodeAt f (rootNodeCOffset r)) 3))) as R.
  fold (dPtrMax (nodeAt f (rootNodeCOffset r))) in R.
  rewrite (acc_dPtrMax f r A) in R.
  repeat split; try lia. exact (acc_valid f r A).
Qed.

Lemma initialize_accepted f r : accepted f r -> initialize r = (None, r).
Proof.
  intros A. unfold initialize.
  now rewrite (acc_err f r A), (acc_initialized f r A).
Qed.

Lemma loaded_sameNode_le (f p : list byte) (off a : Z) :
  0 <= off -> arity (nodeAt f off) <= a ->
  off + nodeSize a <= Z.of_nat (length f) ->
  sameNode (nodeAt f off)
    (firstn (Z.to_nat (nodeSize a)) (skipn (Z.to_nat off) f)
       ++ skipn (Z.to_nat (nodeSize a)) p).
Proof.
  intros Ho Ha Hl. unfold sameNode.
  pose proof (idx_range (nodeAt f off) 3) as R. fold (arity (nodeAt f off)) in R.
  apply (sameUpTo_le (nodeSize a)); [unfold nodeSize; lia|].
  apply loaded_sameUpTo; unfold nodeSize in *; lia.
Qed.

Lemma resolveSeekPosition_descend (f : list byte) (fuel : nat) (r : Reader) :
  accepted f r ->
  match descend f fuel (seekPosition r) (rootPos r) with
  | Done (Some (q, i)) =>
      exists r', resolveSeekPosition fuel r = Done (None, r')
                 /\ sameSettings r r'
                 /\ sameNode (nodeAt f (p_off q)) (currNode r')
                 /\ nextChunk r' = i
                 /\ currNodeCBias r' = p_cBias q
                 /\ currNodeDBias r' = p_dBias q
  | Done None =>
      exists r', resolveSeekPosition fuel r = Done (Some errInvalidIndexNode, r')
                 /\ err r' = Some errInvalidIndexNode
  | Panic => resolveSeekPosition fuel r = Panic
  | OutOfFuel => resolveSeekPosition fuel r = OutOfFuel
  end.
Proof.
  intros A. unfold resolveSeekPosition.
  pose proof (si_arity _ (valid_structuralInvariants _ (acc_valid f r A))) as HA.
  pose proof (acc_arity f r A) as HR.
  pose proof (acc_fits f r A) as HF. pose proof (acc_offset f r A) as HO.
  unfold fileSize in HF.
  rewrite (load_inside f) by (try exact (acc_ReadSeeker f r A); lia).
  set (b := firstn _ _ ++ skipn _ _).
  pose proof (walk_descend f fuel (set_currNode b r) (rootPos r)
                (acc_ReadSeeker f r A) (acc_CompressedSize f r A)) as W.
  cbn [rootPos p_off p_cBias p_dBias currNode set_currNode seekPosition] in W.
  specialize (W (loaded_sameNode_le f (currNode r) _ _ HO HR HF)).
  destruct (descend f fuel (seekPosition r) (rootPos r)) as [[[q i]|]| |];
    try exact W.
  destruct W as (r' & W & SS & R). exists r'. split; [exact W|].
  split; [|exact R].
  eapply sameSettings_trans; [apply sameSettings_set_currNode|exact SS].
Qed.

(** ** The inner loop of [NextChunk] *)

Lemma inNode_arity f r q : inNode f r q -> arity (currNode r) = arity (nodeAt f (p_off q)).
Proof. intros I. exact (same_arity _ _ (in_node f r q I)). Qed.

Lemma inNode_DRange f r q i :
  inNode f r q -> 0 <= i < arity (nodeAt f (p_off q)) ->
  DRange (chunk (currNode r) i (currNodeCBias r) (currNodeDBias r))
  = mkRange (slotLow f q i) (slotHigh f q i).
Proof.
  intros I Hi. unfold chunk. cbn [DRange]. unfold dOffRange, slotLow, slotHigh.
  rewrite (in_dBias f r q I).
  now rewrite !(same_dOff _ _ (in_node f r q I)) by lia.
Qed.

Lemma emitLoop_inNode f q (k : nat) : forall r,
  inNode f r q ->
  k = Z.to_nat (arity (currNode r) - nextChunk r) ->
  match emitLoop (arity (currNode r)) k r with
  | (Some c, r') =>
      sameFile r r'
      /\ needToResolveSeekPosition r' = needToResolveSeekPosition r
      /\ inNode f r' q
      /\ exists j, nextChunk r <= j < arity (nodeAt f (p_off q))
                   /\ nextChunk r' = j + 1
                   /\ slotLow f q j = slotLow f q (nextChunk r)
                   /\ DRange c = mkRange (slotLow f q j) (slotHigh f q j)
                   /\ slotLow f q j < slotHigh f q j
                   /\ seekPosition r' = slotHigh f q j
  | (None, r') =>
      sameFile r r'
      /\ needToResolveSeekPosition r' = needToResolveSeekPosition r
      /\ slotLow f q (nextChunk r) = nodeHigh f q
      /\ (seekPosition r' = seekPosition r \/ seekPosition r' = nodeHigh f q)
  end.
Proof.
  induction k as [|k IH]; intros r I Hk.
  - cbn [emitLoop]. pose proof (in_next f r q I) as N.
    rewrite (inNode_arity f r q I) in Hk.
    assert (E : nextChunk r = arity (nodeAt f (p_off q))) by lia.
    repeat split; [|now left].
    rewrite E. apply good_nodeHigh. exact (in_good f r q I).
  - cbn [emitLoop]. pose proof (in_next f r q I) as N.
    pose proof (inNode_arity f r q I) as EA.
    destruct (Z.ltb_spec (nextChunk r) (arity (currNode r))) as [L|L]; [|lia].
    assert (Ri : 0 <= nextChunk r < arity (nodeAt f (p_off q))) by lia.
    rewrite (inNode_DRange f r q _ I Ri). cbn [high low Empty].
    set (r1 := set_seekPosition _ (set_nextChunk _ r)).
    assert (I1 : inNode f r1 q).
    { destruct I. constructor; cbn; try assumption; lia. }
    pose proof (good_slot_order f q (in_good f r q I) _ Ri) as O.
    unfold Empty. cbn [low high].
    destruct (Z.eqb_spec (slotLow f q (nextChunk r)) (slotHigh f q (nextChunk r)))
      as [E|NE]; cbn [negb].
    + specialize (IH r1 I1).
      change (arity (currNode r1)) with (arity (currNode r)) in IH.
      change (nextChunk r1) with (nextChunk r + 1) in IH.
      specialize (IH ltac:(lia)).
      change (seekPosition r1) with (slotHigh f q (nextChunk r)) in IH.
      change (needToResolveSeekPosition r1) with (needToResolveSeekPosition r) in IH.
      change (slotLow f q (nextChunk r + 1)) with (slotHigh f q (nextChunk r)) in IH.
      assert (SF : sameFile r r1) by (constructor; reflexivity).
      destruct (emitLoop (arity (currNode r)) k r1) as [[c|] r'].
      * destruct IH as (S' & Nd & I' & j & Rj & Nj & Lj & Dj & NEj & Sj).
        split; [eapply sameFile_trans; eassumption|].
        split; [exact Nd|]. split; [exact I'|].
        exists j.
        repeat match goal with |- _ /\ _ => split end; try assumption; lia.
      * destruct IH as (S' & Nd & Sk & Hh).
        split; [eapply sameFile_trans; eassumption|].
        split; [exact Nd|].
        split; [lia|]. right. destruct Hh; lia.
    + split; [constructor; reflexivity|]. split; [reflexivity|].
      split; [exact I1|].
      exists (nextChunk r).
      repeat match goal with |- _ /\ _ => split end; try reflexivity; try lia.
      apply (inNode_DRange f r q _ I Ri).
Qed.

(** ** [NextChunk] right after a seek *)

Lemma accepted_set_need f r v :
  accepted f r -> accepted f (set_needToResolveSeekPosition v r).
Proof. intros A. apply (accepted_sameFile f r); [exact A|constructor; reflexivity]. Qed.

Lemma nextChunk_after_seek f r d :
  accepted f r ->
  needToResolveSeekPosition r = true -> seekPosition r = d ->
  0 <= d < decompressedSize r ->
  forall n,
    match resolveSeekPosition n (set_needToResolveSeekPosition false r) with
    | Done (None, _) =>
        exists c r2, NextChunk n r = Done (c, None, r2)
                     /\ low (DRange c) <= d < high (DRange c)
                     /\ accepted f r2
    | Done (Some e, r2) =>
        NextChunk n r = Done (noChunk, Some e, r2)
        /\ e = errInvalidIndexNode /\ err r2 = Some e
    | Panic => False
    | OutOfFuel => NextChunk n r = OutOfFuel
    end.
Proof.
  intros A Hn Hd Hr n.
  unfold NextChunk. rewrite (initialize_accepted f r A).
  set (r1 := set_needToResolveSeekPosition false r).
  assert (A1 : accepted f r1) by now apply accepted_set_need.
  pose proof (resolveSeekPosition_descend f n r1 A1) as RD.
  change (seekPosition r1) with (seekPosition r) in RD. rewrite Hd in RD.
  change (rootPos r1) with (rootPos r) in RD.
  destruct (accepted_rootPos f r A) as (G0 & L0 & H0).
  destruct n as [|m].
  { cbn [descend] in RD. rewrite RD. reflexivity. }
  cbn [nextChunkLoop]. rewrite Hn, Hd.
  destruct (Z.geb_spec d (decompressedSize r)) as [L|L]; [lia|].
  fold r1.
  destruct (descend f (S m) d (rootPos r)) as [[[q i]|]| |] eqn:ED.
  - destruct RD as (r' & -> & SS & Sn & Ni & Nc & Nd).
    destruct (descend_leaf f (S m) d (rootPos r) q i G0 ltac:(lia) ED)
      as (Gq & Lq & Hq & Ri & _ & Si & _).
    assert (I : inNode f r' q) by (constructor; try assumption; lia).
    pose proof (emitLoop_inNode f q _ r' I eq_refl) as EL.
    pose proof (good_slot_order f q Gq i Ri) as O.
    destruct (emitLoop _ _ r') as [[c|] r2].
    + destruct EL as (SF & _ & _ & j & Rj & _ & Lj & Dj & NEj & _).
      exists c, r2. split; [reflexivity|].
      rewrite Ni in *.
      assert (j = i).
      { destruct (Z.eq_dec j i) as [E|NE]; [exact E|exfalso].
        pose proof (good_slot_mono f q Gq i j ltac:(lia) ltac:(lia) ltac:(lia)). lia. }
      subst j. rewrite Dj. cbn [low high]. split; [lia|].
      apply (accepted_sameFile f r1); [exact A1|].
      eapply sameFile_trans; [apply sameSettings_sameFile; exact SS|exact SF].
    + exfalso. destruct EL as (_ & _ & E & _). rewrite Ni in E. lia.
  - destruct RD as (r' & -> & E). repeat split. exact E.
  - exfalso. apply (descend_no_panic f (S m) d (rootPos r) G0); [lia|exact ED].
  - rewrite RD. reflexivity.
Qed.

(** ** Readers a caller can hold *)

Lemma DecompressedSize_sizeSane r n e r' :
  DecompressedSize r = (n, e, r') -> sizeSane r r'.
Proof.
  unfold DecompressedSize. intros H.
  destruct (initialize r) as [[e0|] r0] eqn:E; apply initialize_fields in E;
    destruct E as (_ & S); injection H as <- <- <-; exact S.
Qed.

Lemma SeekToChunkContaining_sizeSane d r e r' :
  SeekToChunkContaining d r = (e, r') -> sizeSane r r'.
Proof.
  unfold SeekToChunkContaining, latch. intros H. cbv zeta in H.
  destruct (initialize r) as [[e0|] r0] eqn:E; apply initialize_fields in E;
    destruct E as (_ & S); [injection H as <- <-; exact S|].
  destruct (d <? 0); injection H as <- <-; exact S.
Qed.

Lemma NextChunk_sizeSane fuel r c e r' :
  NextChunk fuel r = Done (c, e, r') -> sizeSane r r'.
Proof.
  unfold NextChunk. intros H.
  destruct (initialize r) as [[e0|] r0] eqn:E; apply initialize_fields in E;
    destruct E as (_ & S); [injection H as <- <- <-; exact S|].
  apply nextChunkLoop_decompressedSize in H.
  eapply sizeSane_trans; [exact S|now left].
Qed.

Lemma reachable_decompressedSize r :
  reachable r -> 0 <= decompressedSize r < 2 ^ 48.
Proof.
  induction 1 as [rs cs|r n e r' _ IH H|r d e r' _ IH H|r fuel c e r' _ IH H].
  - cbn. lia.
  - destruct (DecompressedSize_sizeSane _ _ _ _ H) as [E|E]; [rewrite E|]; assumption.
  - destruct (SeekToChunkContaining_sizeSane _ _ _ _ H) as [E|E]; [rewrite E|]; assumption.
  - destruct (NextChunk_sizeSane _ _ _ _ _ H) as [E|E]; [rewrite E|]; assumption.
Qed.

(** ** Reading a container in order *)

Lemma tiles_le l : forall a b, tiles l a b -> a <= b.
Proof.
  induction l as [|r l IH]; intros a b H; cbn [tiles] in H.
  - lia.
  - destruct H as (E & L & T). specialize (IH _ _ T). lia.
Qed.

Lemma tiles_nonempty l : forall a b,
  tiles l a b -> Forall (fun r => low r < high r) l.
Proof.
  induction l as [|r l IH]; intros a b H; cbn [tiles] in H; constructor.
  - tauto.
  - destruct H as (_ & _ & T). exact (IH _ _ T).
Qed.

Lemma tiles_within l : forall a b,
  tiles l a b -> Forall (fun r => a <= low r /\ high r <= b) l.
Proof.
  induction l as [|r l IH]; intros a b H; cbn [tiles] in H; constructor.
  - destruct H as (E & L & T). pose proof (tiles_le _ _ _ T). lia.
  - destruct H as (E & L & T).
    eapply Forall_impl; [|exact (IH _ _ T)].
    cbn beta. intros x Hx. lia.
Qed.

Lemma tiles_ordered l : forall a b,
  tiles l a b -> ForallOrdPairs (fun r1 r2 => high r1 <= low r2) l.
Proof.
  induction l as [|r l IH]; intros a b H; cbn [tiles] in H; constructor.
  - destruct H as (_ & _ & T).
    eapply Forall_impl; [|exact (tiles_within _ _ _ T)].
    cbn beta. intros x Hx. lia.
  - destruct H as (_ & _ & T). exact (IH _ _ T).
Qed.

Lemma tiles_cover l : forall a b,
  tiles l a b ->
  forall x, a <= x < b <-> exists r, In r l /\ low r <= x < high r.
Proof.
  induction l as [|r l IH]; intros a b H x; cbn [tiles] in H.
  - split; [lia|]. intros (r & [] & _).
  - destruct H as (E & L & T). pose proof (tiles_le _ _ _ T) as Le.
    specialize (IH _ _ T x). split.
    + intros Hx. destruct (Z.lt_ge_cases x (high r)) as [Lt|Ge].
      * exists r. split; [now left|lia].
      * destruct (proj1 IH ltac:(lia)) as (r' & In' & Hr').
        exists r'. split; [now right|exact Hr'].
    + intros (r' & [<-|In'] & Hr'); [lia|].
      pose proof (proj2 IH (ex_intro _ r' (conj In' Hr'))). lia.
Qed.

Lemma rootPos_sameFile r r' : sameFile r r' -> rootPos r' = rootPos r.
Proof. intros S. unfold rootPos. now rewrite (sf_rootNodeCOffset _ _ S). Qed.

(** The rounds of [NextChunk] after the cursor is in a node. *)
Lemma emit_tiling f wfuel fuel r q c e r' :
  (forall r0 c0 e0 r0',
      tilingInv f r0 -> nextChunkLoop wfuel fuel r0 = Done (c0, e0, r0') ->
      tilingPost f (seekPosition r0) (decompressedSize r0) c0 e0 r0') ->
  accepted f r -> needToResolveSeekPosition r = false ->
  inNode f r q -> seekPosition r = slotLow f q (nextChunk r) ->
  nodeHigh f q <= decompressedSize r ->
  noStraddle f (rootPos r) (nodeHigh f q) ->
  match emitLoop (arity (currNode r)) (Z.to_nat (arity (currNode r) - nextChunk r)) r with
  | (Some c0, r1) => Done (c0, None, r1)
  | (None, r1) => nextChunkLoop wfuel fuel (set_needToResolveSeekPosition true r1)
  end = Done (c, e, r') ->
  tilingPost f (seekPosition r) (decompressedSize r) c e r'.
Proof.
  intros IH A Nd I Sk Hh NS H.
  pose proof (emitLoop_inNode f q _ r I eq_refl) as EL.
  pose proof (in_good f r q I) as Gq.
  assert (G0 : 0 <= p_dBias q) by (destruct Gq as (_ & G & _); exact G).
  destruct (emitLoop _ _ r) as [[c0|] r1].
  - injection H as <- <- <-.
    destruct EL as (SF & Nd1 & I1 & j & Rj & Nj & Lj & Dj & NEj & Sj).
    pose proof (in_next f r q I) as Nx.
    pose proof (good_slot_order f q Gq j ltac:(lia)) as O. unfold nodeLow in O.
    cbn [tilingPost]. rewrite Dj. cbn [low high].
    split; [congruence|]. split; [exact NEj|]. split; [now symmetry|].
    split; [exact (accepted_sameFile f r r1 A SF)|].
    rewrite (sf_decompressedSize _ _ SF), (rootPos_sameFile _ _ SF).
    split; [lia|]. right. split; [congruence|].
    exists q. split; [exact I1|]. split; [rewrite Nj; exact Sj|]. split; assumption.
  - destruct EL as (SF & Nd1 & E & Sk1).
    assert (S1 : seekPosition r1 = nodeHigh f q) by (destruct Sk1; congruence).
    assert (S0 : seekPosition r = nodeHigh f q) by congruence.
    set (r2 := set_needToResolveSeekPosition true r1) in *.
    assert (SF2 : sameFile r r2).
    { eapply sameFile_trans; [exact SF|constructor; reflexivity]. }
    assert (T2 : tilingInv f r2).
    { split; [exact (accepted_sameFile f r r2 A SF2)|].
      change (seekPosition r2) with (seekPosition r1).
      rewrite (sf_decompressedSize _ _ SF2), (rootPos_sameFile _ _ SF2), S1.
      pose proof (in_next f r q I) as Nx.
      assert (0 <= nodeHigh f q).
      { rewrite <- E.
        destruct (Z.eq_dec (nextChunk r) (arity (nodeAt f (p_off q)))) as [Ea|Na].
        - rewrite Ea, good_nodeHigh by assumption.
          pose proof (good_arity f q Gq) as HA.
          pose proof (good_slot_order f q Gq 0 ltac:(lia)) as O.
          unfold nodeLow in O. lia.
        - pose proof (good_slot_order f q Gq (nextChunk r) ltac:(lia)) as O.
          unfold nodeLow in O. lia. }
      split; [lia|]. left. split; [reflexivity|exact NS]. }
    specialize (IH r2 c e r' T2 H).
    change (seekPosition r2) with (seekPosition r1) in IH.
    rewrite (sf_decompressedSize _ _ SF2), S1 in IH. rewrite S0. exact IH.
Qed.

Lemma nextChunkLoop_tiling f wfuel fuel : forall r c e r',
  tilingInv f r -> nextChunkLoop wfuel fuel r = Done (c, e, r') ->
  tilingPost f (seekPosition r) (decompressedSize r) c e r'.
Proof.
  induction fuel as [|fuel IH]; intros r c e r' T H; [discriminate|].
  cbn [nextChunkLoop] in H.
  destruct T as (A & Rg & [(Nd & NS)|(Nd & q & I & Sk & Hh & NS)]); rewrite Nd in H.
  - destruct (Z.geb_spec (seekPosition r) (decompressedSize r)) as [Ge|Lt].
    { injection H as <- <- <-. cbn [tilingPost]. left.
      repeat split; [lia|exact (acc_err f r A)]. }
    set (r1 := set_needToResolveSeekPosition false r) in *.
    assert (A1 : accepted f r1) by now apply accepted_set_need.
    pose proof (resolveSeekPosition_descend f wfuel r1 A1) as RD.
    change (seekPosition r1) with (seekPosition r) in RD.
    change (rootPos r1) with (rootPos r) in RD.
    destruct (accepted_rootPos f r A) as (G0 & L0 & H0).
    destruct (descend f wfuel (seekPosition r) (rootPos r)) as [[[q i]|]| |] eqn:ED.
    + destruct RD as (r2 & RS & SS & Sn & Ni & Nc & Ndb). rewrite RS in H.
      destruct (descend_leaf f wfuel (seekPosition r) (rootPos r) q i G0 ltac:(lia) ED)
        as (Gq & Lq & Hq & Ri & _ & Si & _).
      pose proof (descend_at_boundary f wfuel (rootPos r) (seekPosition r) q i
                    G0 L0 ltac:(lia) NS ED) as Eb.
      pose proof (noStraddle_after f wfuel (rootPos r) (seekPosition r) q i
                    G0 L0 ltac:(lia) NS ED) as NS'.
      pose proof (sameSettings_sameFile _ _ SS) as SF.
      assert (I2 : inNode f r2 q) by (constructor; try assumption; lia).
      pose proof (emit_tiling f wfuel fuel r2 q c e r' IH
                    (accepted_sameFile f r1 r2 A1 SF)) as ET.
      rewrite (ss_need _ _ SS), (ss_seekPosition _ _ SS), Ni,
              (sf_decompressedSize _ _ SF), (rootPos_sameFile _ _ SF) in ET.
      change (seekPosition r1) with (seekPosition r) in ET.
      change (decompressedSize r1) with (decompressedSize r) in ET.
      change (rootPos r1) with (rootPos r) in ET.
      apply ET; try assumption; try reflexivity; try lia.
      rewrite Ni in H. exact H.
    + destruct RD as (r2 & RS & Er). rewrite RS in H.
      injection H as <- <- <-. cbn [tilingPost]. right. split; [reflexivity|exact Er].
    + rewrite RD in H. discriminate H.
    + rewrite RD in H. discriminate H.
  - apply (emit_tiling f wfuel fuel r q c e r' IH); assumption.
Qed.

Lemma NextChunk_tiling f fuel r c e r' :
  tilingInv f r -> NextChunk fuel r = Done (c, e, r') ->
  tilingPost f (seekPosition r) (decompressedSize r) c e r'.
Proof.
  intros T H. unfold NextChunk in H.
  rewrite (initialize_accepted f r (proj1 T)) in H.
  exact (nextChunkLoop_tiling f fuel fuel r c e r' T H).
Qed.

Lemma readChunks_tiles f fuel n : forall r cs r',
  tilingInv f r ->
  readChunks n fuel r = Done (cs, io_EOF, r') ->
  tiles (map DRange cs) (seekPosition r) (decompressedSize r).
Proof.
  induction n as [|n IH]; intros r cs r' T H; [discriminate|].
  cbn [readChunks] in H.
  destruct (NextChunk fuel r) as [[[c [e|]] r1]| |] eqn:N; try discriminate.
  - injection H as E1 E2 E3. subst cs e r'.
    pose proof (NextChunk_tiling f fuel r c _ r1 T N) as P. cbn [tilingPost] in P.
    destruct P as [(_ & E & _)|(E & _)]; [exact E|discriminate E].
  - pose proof (NextChunk_tiling f fuel r c _ r1 T N) as P. cbn [tilingPost] in P.
    destruct P as (Lo & Ne & Hi & T1).
    destruct (readChunks n fuel r1) as [[[cs1 e1] r2]| |] eqn:R; try discriminate.
    injection H as E1 E2 E3. subst cs e1 r'.
    specialize (IH r1 cs1 r2 T1 R).
    assert (D : decompressedSize r1 = decompressedSize r).
    { unfold NextChunk in N. rewrite (initialize_accepted f r (proj1 T)) in N.
      exact (nextChunkLoop_decompressedSize _ _ _ _ _ _ N). }
    cbn [map tiles]. rewrite <- Hi, D in IH. repeat split; assumption.
Qed.

(** ** Locating the root *)

Lemma tryRootNode_at (f : list byte) (r : Reader) (a : Z) (fromEnd : bool) :
  ReadSeeker r = Some f -> CompressedSize r = fileSize f ->
  0 <= a ->
  let off := if fromEnd then fileSize f - nodeSize a else 0 in
  (a <> 0 -> nodeSize a <= fileSize f -> arity (nodeAt f off) <= a) ->
  exists r',
    tryRootNode a fromEnd r = (rootAt f off a, None, r')
    /\ ReadSeeker r' = ReadSeeker r /\ CompressedSize r' = CompressedSize r
    /\ err r' = err r /\ initialized r' = initialized r
    /\ seekPosition r' = seekPosition r
    /\ (rootAt f off a = true ->
        rootNodeCOffset r' = off /\ rootNodeArity r' = a
        /\ decompressedSize r' = dPtrMax (nodeAt f off)
        /\ needToResolveSeekPosition r' = true
        /\ sameNode (nodeAt f off) (currNode r')).
Proof.
  intros Hf Hs Ha off Har. unfold tryRootNode, rootAt. rewrite Hs.
  destruct (Z.eqb_spec a 0) as [E0|E0]; cbn [negb andb].
  { exists r. repeat match goal with |- _ /\ _ => split end; cbn; try reflexivity; try assumption; intro; discriminate. }
  destruct (Z.ltb_spec (fileSize f) (nodeSize a)) as [L|L];
    destruct (Z.leb_spec (nodeSize a) (fileSize f)) as [L'|L']; try lia;
    cbn [andb].
  { exists r. repeat match goal with |- _ /\ _ => split end; cbn; try reflexivity; try assumption; intro; discriminate. }
  specialize (Har E0 L).
  assert (Ho : 0 <= off) by (subst off; destruct fromEnd; lia).
  assert (Hfit : off + nodeSize a <= Z.of_nat (length f))
    by (subst off; unfold fileSize in *; destruct fromEnd; lia).
  fold off.
  rewrite (load_inside f) by (try assumption; lia).
  set (b := firstn _ _ ++ skipn _ _).
  assert (Sb : sameNode (nodeAt f off) b) by now apply loaded_sameNode_le.
  cbn [currNode set_currNode CompressedSize]. rewrite Hs.
  rewrite (same_valid _ _ Sb), (same_cPtrMax _ _ Sb).
  destruct (valid (nodeAt f off)); cbn [negb andb].
  2:{ eexists. split; [reflexivity|]. repeat match goal with |- _ /\ _ => split end; cbn; try reflexivity; try assumption; intro; discriminate. }
  destruct (cPtrMax (nodeAt f off) =? fileSize f); cbn [negb].
  - eexists. split; [reflexivity|]. cbn.
    repeat match goal with |- _ /\ _ => split end; try reflexivity; try assumption.
    intros _. repeat split; [apply (same_dPtrMax _ _ Sb)|exact Sb].
  - eexists. split; [reflexivity|]. repeat match goal with |- _ /\ _ => split end; cbn; try reflexivity; try assumption; intro; discriminate.
Qed.

Lemma readNode_head (f : list byte) (r : Reader) (n : Z) :
  ReadSeeker r = Some f -> 0 <= n <= fileSize f ->
  exists b, readNode n 0 r = (None, set_currNode b r)
            /\ forall k, 0 <= k < n -> idx b k = idx f k.
Proof.
  intros Hf Hn. unfold fileSize in Hn.
  rewrite (readNode_inside f) by (try assumption; lia).
  eexists. split; [reflexivity|].
  intros k Hk. symmetry.
  pose proof (loaded_sameUpTo f (currNode r) n 0 ltac:(lia) ltac:(lia) ltac:(lia)) as S.
  unfold slice_from in S. cbn [Z.to_nat skipn] in S.
  apply (sameUpTo_idx n); assumption.
Qed.

Lemma findRootNode_at (f : list byte) (r : Reader) :
  ReadSeeker r = Some f -> CompressedSize r = fileSize f -> 32 <= fileSize f ->
  (startsWithMagic f = false ->
   exists r', findRootNode r = (Some errMissingMagic, r')
              /\ err r' = Some errMissingMagic)
  /\ (startsWithMagic f = true -> headRoot f = true ->
      exists r', findRootNode r = (None, r')
                 /\ ReadSeeker r' = ReadSeeker r /\ CompressedSize r' = CompressedSize r
                 /\ err r' = err r /\ initialized r' = initialized r
                 /\ rootNodeCOffset r' = 0 /\ rootNodeArity r' = idx f 3
                 /\ decompressedSize r' = dPtrMax (nodeAt f 0)
                 /\ needToResolveSeekPosition r' = true
                 /\ sameNode (nodeAt f 0) (currNode r')
                 /\ seekPosition r' = seekPosition r)
  /\ (startsWithMagic f = true -> headRoot f = false -> tailRoot f = true ->
      exists r', findRootNode r = (None, r')
                 /\ ReadSeeker r' = ReadSeeker r /\ CompressedSize r' = CompressedSize r
                 /\ err r' = err r /\ initialized r' = initialized r
                 /\ rootNodeCOffset r' = tailOffset f /\ rootNodeArity r' = tailArity f
                 /\ decompressedSize r' = dPtrMax (nodeAt f (tailOffset f))
                 /\ needToResolveSeekPosition r' = true
                 /\ sameNode (nodeAt f (tailOffset f)) (currNode r')
                 /\ seekPosition r' = seekPosition r).
Proof.
  intros Hf Hs H32.
  destruct (readNode_head f r 4 Hf ltac:(lia)) as (b1 & R1 & B1).
  assert (M : (negb (idx b1 0 =? idx magic 0) || negb (idx b1 1 =? idx magic 1)
               || negb (idx b1 2 =? idx magic 2)) = negb (startsWithMagic f)).
  { unfold startsWithMagic. rewrite !B1 by lia.
    destruct (idx f 0 =? _), (idx f 1 =? _), (idx f 2 =? _); reflexivity. }
  pose proof (tryRootNode_at f (set_currNode b1 r) (idx f 3) false Hf Hs
                (proj1 (idx_range f 3))) as T1.
  cbv zeta in T1.
  assert (A1 : arity (nodeAt f 0) = idx f 3).
  { unfold arity, nodeAt. rewrite idx_slice_from by lia. reflexivity. }
  destruct T1 as (r2 & T1 & Hf2 & Hs2 & He2 & Hi2 & Hk2 & Found2); [lia|].
  fold (headRoot f) in T1, Found2.
  cbn [ReadSeeker CompressedSize err initialized seekPosition set_currNode] in *.
  split; [|split].
  - intros Mg. unfold findRootNode. rewrite R1.
    cbn [currNode set_currNode]. rewrite M, Mg. cbn [negb].
    eexists. split; reflexivity.
  - intros Mg Hd. unfold findRootNode. rewrite R1.
    cbn [currNode set_currNode]. rewrite M, Mg. cbn [negb].
    rewrite B1 by lia. rewrite T1, Hd.
    exists r2. split; [reflexivity|].
    destruct (Found2 Hd) as (F1 & F2 & F3 & F4 & F5).
    repeat split; assumption.
  - intros Mg Hd Tl. unfold findRootNode. rewrite R1.
    cbn [currNode set_currNode]. rewrite M, Mg. cbn [negb].
    rewrite B1 by lia. rewrite T1, Hd. rewrite Hs2, Hs.
    assert (Hf2' : ReadSeeker r2 = Some f) by congruence.
    assert (Hs2' : CompressedSize r2 = fileSize f) by congruence.
    unfold fileSize in *.
    rewrite (readNode_inside f) by (try assumption; lia).
    set (b3 := firstn _ _ ++ skipn _ _).
    assert (B3 : idx b3 0 = tailArity f).
    { unfold tailArity, fileSize. symmetry.
      pose proof (loaded_sameUpTo f (currNode r2) 1 (Z.of_nat (length f) - 1)
                    ltac:(lia) ltac:(lia) ltac:(lia)) as S.
      transitivity (idx (slice_from f (Z.of_nat (length f) - 1)) 0).
      - rewrite idx_slice_from by lia. f_equal. lia.
      - apply (sameUpTo_idx 1); [exact S|lia]. }
    cbn [currNode set_currNode]. rewrite B3.
    unfold tailRoot in Tl. apply andb_true_iff in Tl. destruct Tl as [Ta Tr].
    apply Z.eqb_eq in Ta.
    pose proof (tryRootNode_at f (set_currNode b3 r2) (tailArity f) true Hf2' Hs2'
                  (proj1 (idx_range f _))) as T3.
    cbv zeta in T3. fold (tailOffset f) in T3.
    destruct T3 as (r4 & T3 & Hf4 & Hs4 & He4 & Hi4 & Hk4 & Found4); [lia|].
    rewrite Tr in T3. rewrite T3.
    exists r4. split; [reflexivity|].
    cbn [ReadSeeker CompressedSize err initialized seekPosition set_currNode] in *.
    destruct (Found4 Tr) as (F1 & F2 & F3 & F4 & F5).
    repeat split; try congruence; assumption.
Qed.

Lemma accepted_intro (f : list byte) (r : Reader) :
  ReadSeeker r = Some f -> CompressedSize r = fileSize f ->
  err r = None -> initialized r = true ->
  acceptedRoot f r = true -> accepted f r.
Proof.
  intros Hf Hs He Hi H. unfold acceptedRoot in H.
  repeat match type of H with
         | _ && _ = true => apply andb_true_iff in H; destruct H as [H ?]
         end.
  repeat match goal with
         | E : (_ <=? _) = true |- _ => apply Z.leb_le in E
         | E : (_ =? _) = true |- _ => apply Z.eqb_eq in E
         end.
  constructor; assumption.
Qed.

Lemma rootAt_true f off a :
  rootAt f off a = true ->
  a <> 0 /\ nodeSize a <= fileSize f /\ valid (nodeAt f off) = true
  /\ cPtrMax (nodeAt f off) = fileSize f.
Proof.
  unfold rootAt. intros H.
  repeat match type of H with
         | _ && _ = true => apply andb_true_iff in H; destruct H as [H ?]
         end.
  apply negb_true_iff, Z.eqb_neq in H.
  repeat match goal with
         | E : (_ <=? _) = true |- _ => apply Z.leb_le in E
         | E : (_ =? _) = true |- _ => apply Z.eqb_eq in E
         end.
  repeat split; assumption.
Qed.

Lemma accepted_of_root (f : list byte) (r : Reader) (off a : Z) :
  ReadSeeker r = Some f -> CompressedSize r = fileSize f ->
  err r = None -> initialized r = true ->
  rootNodeCOffset r = off -> rootNodeArity r = a ->
  0 <= off -> off + nodeSize a <= fileSize f ->
  arity (nodeAt f off) <= a ->
  rootAt f off a = true -> version (nodeAt f off) = 1 ->
  decompressedSize r = dPtrMax (nodeAt f off) ->
  accepted f r.
Proof.
  intros Hf Hs He Hi Ho Ha H0 Hfit Har Hr Hv Hd.
  apply rootAt_true in Hr. destruct Hr as (_ & _ & V & C).
  constructor; rewrite ?Ho, ?Ha; try assumption. now symmetry.
Qed.

(** [initialize] on a new reader accepts a container of at least 32 bytes
    that starts with the magic and has a version 1 root at the head or, when
    the head holds none, at the tail. *)
Lemma initialize_accepts (f : list byte) :
  32 <= fileSize f -> startsWithMagic f = true ->
  forall off,
    (headRoot f = true /\ off = 0
     \/ headRoot f = false /\ tailRoot f = true /\ off = tailOffset f) ->
    version (nodeAt f off) = 1 ->
    exists r, initialize (newReader (Some f) (fileSize f)) = (None, r)
              /\ accepted f r /\ rootNodeCOffset r = off
              /\ needToResolveSeekPosition r = true /\ seekPosition r = 0.
Proof.
  intros H32 Mg off Hoff Hv.
  set (r0 := set_initialized true (newReader (Some f) (fileSize f))).
  destruct (findRootNode_at f r0 eq_refl eq_refl H32) as (_ & Hhead & Htail).
  assert (I0 : forall r, findRootNode r0 = (None, r) ->
                         version (currNode r) = 1 ->
                         initialize (newReader (Some f) (fileSize f)) = (None, r)).
  { intros r F V. unfold initialize, checkParameters.
    cbn [err initialized newReader]. fold r0.
    cbn [ReadSeeker CompressedSize r0 set_initialized newReader].
    destruct (Z.ltb_spec (fileSize f) 32); [lia|].
    change (set_initialized true (newReader (Some f) (fileSize f))) with r0.
    rewrite F, V. reflexivity. }
  destruct Hoff as [(Hd & ->)|(Hd & Tl & ->)].
  - destruct (Hhead Mg Hd) as (r & F & A1 & A2 & A3 & A4 & A5 & A6 & A7 & A8 & A9 & A10).
    exists r.
    split; [apply (I0 r F); now rewrite (same_version _ _ A9)|].
    split; [|repeat split; assumption].
    assert (Ar : arity (nodeAt f 0) = idx f 3).
    { unfold arity, nodeAt. rewrite idx_slice_from by lia. reflexivity. }
    destruct (rootAt_true _ _ _ Hd) as (_ & Fit & _).
    apply (accepted_of_root f r 0 (idx f 3)); try assumption; try lia.
  - destruct (Htail Mg Hd Tl) as (r & F & A1 & A2 & A3 & A4 & A5 & A6 & A7 & A8 & A9 & A10).
    exists r.
    split; [apply (I0 r F); now rewrite (same_version _ _ A9)|].
    split; [|repeat split; assumption].
    unfold tailRoot in Tl. apply andb_true_iff in Tl. destruct Tl as [Ta Tr].
    apply Z.eqb_eq in Ta.
    destruct (rootAt_true _ _ _ Tr) as (_ & Fit & _).
    apply (accepted_of_root f r (tailOffset f) (tailArity f));
      try assumption; unfold tailOffset in *; lia.
Qed.

(** ** The CPtrMax window *)

Lemma loadAndValidate_ceiling off pc pv pm cb ds r r' :
  loadAndValidate off pc pv pm cb ds r = (None, r') ->
  add64 cb (cPtrMax (currNode r')) <= pm.
Proof.
  unfold loadAndValidate, latch. intros H. cbv zeta in H.
  destruct ((off <? 0) || _); [discriminate|].
  destruct (readNode 4 off r) as [[e0|] r0]; [discriminate|].
  destruct (idx (currNode r0) 3 =? 0); [discriminate|].
  destruct ((CompressedSize r0 <? _) || _); [discriminate|].
  destruct (load off _ r0) as [[e1|] r1]; [discriminate|].
  destruct (negb (valid _)); [discriminate|].
  destruct (negb _ || _ || _ || _) eqn:E; [discriminate|].
  injection H as <-.
  repeat (apply orb_false_iff in E; destruct E as [E ?]).
  match goal with
  | L : (pm <? _) = false |- _ => apply Z.ltb_ge in L; exact L
  end.
Qed.

Lemma childCBiasOf_range (n : rNode) (i cB : Z) :
  0 <= cB <= 2 ^ 62 ->
  cB <= childCBiasOf n i cB < cB + 2 ^ 48.
Proof.
  intros H. unfold childCBiasOf, cOff.
  destruct (sTag n i <? arity n); [|lia].
  match goal with |- context [u48LE ?x] => pose proof (u48LE_range x) end.
  rewrite add64_small; lia.
Qed.

Lemma window_range f p : windowOK f p -> 0 <= window f p.
Proof.
  intros (H & _). unfold window.
  pose proof (u48LE_range (slice_from (nodeAt f (p_off p))
                             (16 * idx (nodeAt f (p_off p)) 3 + 8))) as R.
  fold (cPtrMax (nodeAt f (p_off p))) in R. lia.
Qed.

Lemma step_window f s p p' :
  windowOK f p -> step f s p = Down p' ->
  windowOK f p' /\ window f p' <= window f p.
Proof.
  intros W H. pose proof (window_range f p W) as W0.
  destruct W as (C0 & C1). unfold window in *.
  unfold step in H.
  destruct (findChunkContaining _ s _) as [i|]; [|discriminate].
  destruct (isLeaf _ i); [discriminate|].
  destruct (childOK _ _ _ _ _ _ _) eqn:Ec; [|discriminate].
  injection H as <-.
  apply childOK_true in Ec. destruct Ec as (_ & _ & Ce & _).
  pose proof (u48LE_range (slice_from (nodeAt f (p_off p))
                             (16 * idx (nodeAt f (p_off p)) 3 + 8))) as R.
  fold (cPtrMax (nodeAt f (p_off p))) in R.
  pose proof (childCBiasOf_range (nodeAt f (p_off p)) i (p_cBias p) ltac:(lia)) as B.
  match type of Ce with
  | add64 _ (cPtrMax ?n) <= _ =>
      pose proof (u48LE_range (slice_from n (16 * idx n 3 + 8))) as R';
      fold (cPtrMax n) in R'
  end.
  rewrite !add64_small in Ce by lia.
  unfold windowOK, window. cbn [p_off p_cBias]. lia.
Qed.

Lemma descend_terminates f fuel : forall s p,
  windowOK f p -> window f p < Z.of_nat fuel ->
  (forall k q q', posAfter f k s p = Some q -> step f s q = Down q' ->
                  window f q' < window f q) ->
  descend f fuel s p <> OutOfFuel.
Proof.
  induction fuel as [|fuel IH]; intros s p W L St.
  - pose proof (window_range f p W). lia.
  - cbn [descend].
    destruct (step f s p) as [i|p'| |] eqn:Es; try discriminate.
    destruct (step_window f s p p' W Es) as (W' & _).
    pose proof (St O p p' eq_refl Es) as Lt.
    apply IH; [exact W'|lia|].
    intros k q q' Hk Hq. apply (St (S k) q q'); [|exact Hq].
    cbn [posAfter]. rewrite Es. exact Hk.
Qed.

Lemma accepted_window f r :
  accepted f r -> windowOK f (rootPos r) /\ window f (rootPos r) = fileSize f.
Proof.
  intros A. unfold windowOK, window, rootPos. cbn [p_off p_cBias].
  rewrite (acc_cPtrMax f r A).
  pose proof (u48LE_range (slice_from (nodeAt f (rootNodeCOffset r))
                             (16 * idx (nodeAt f (rootNodeCOffset r)) 3 + 8))) as R.
  fold (cPtrMax (nodeAt f (rootNodeCOffset r))) in R.
  rewrite (acc_cPtrMax f r A) in R. lia.
Qed.

(** ** The model on concrete containers *)

(** The check value of CRC-32/IEEE. *)
Example ChecksumIEEE_check :
  ChecksumIEEE (bytes_of [49; 50; 51; 52; 53; 54; 55; 56; 57]) = 0xCBF43926.
Proof. vm_compute. reflexivity. Qed.

(** A flat file: one chunk over [0, 100), then the end of the stream. *)
Example flatFile_chunks :
  match readChunks 3 2 (openReader flatFile) with
  | Done (cs, e, r) =>
      map DRange cs = [mkRange 0 100] /\ map CPrimary cs = [mkRange 32 40]
      /\ e = io_EOF /\ err r = None /\ decompressedSize r = 100
  | _ => False
  end.
Proof. vm_compute. repeat split. Qed.

(** A two-level tree read from a seek into its middle; the empty slot is
    skipped. *)
Example twoLevelFile_seek_600 :
  match readChunks 3 3 (snd (SeekToChunkContaining 600 (openReader twoLevelFile))) with
  | Done (cs, e, r) => map DRange cs = [mkRange 600 900] /\ e = io_EOF
  | _ => False
  end.
Proof. vm_compute. repeat split. Qed.

Example twoLevelFile_chunks :
  match readChunks 6 3 (openReader twoLevelFile) with
  | Done (cs, e, r) =>
      map DRange cs = [mkRange 0 200; mkRange 200 500; mkRange 500 600; mkRange 600 900]
      /\ e = io_EOF
  | _ => False
  end.
Proof. vm_compute. repeat split. Qed.

(** A root at the tail of a file that starts with the magic. *)
Example tailFile_root :
  acceptedFile tailFile /\ rootNodeCOffset (openReader tailFile) = 8
  /\ decompressedSize (openReader tailFile) = 100.
Proof. vm_compute. repeat split. Qed.

(** A version 2 root: the error is returned, and returned again. *)
Example version2_unsupported :
  let f := bytes_of
    [ 114; 195; 99; 1; 54; 171; 0; 255; 100; 0; 0; 0; 0; 0; 0; 1;
      32; 0; 0; 0; 0; 0; 0; 255; 40; 0; 0; 0; 0; 0; 2; 1;
      1; 2; 3; 4; 5; 6; 7; 8 ] in
  let '(_, e1, r1) := DecompressedSize (newReader (Some f) (fileSize f)) in
  let '(_, e2, _) := DecompressedSize r1 in
  e1 = Some errUnsupportedVersion /\ e2 = Some errUnsupportedVersion.
Proof. vm_compute. split; reflexivity. Qed.

Lemma twoLevelFile_accepted : accepted twoLevelFile (openReader twoLevelFile).
Proof. apply accepted_intro; vm_compute; reflexivity. Qed.

Lemma flatFile_accepted : accepted flatFile (openReader flatFile).
Proof. apply accepted_intro; vm_compute; reflexivity. Qed.

Lemma loopFile_accepted : accepted loopFile (openReader loopFile).
Proof. apply accepted_intro; vm_compute; reflexivity. Qed.

(** On [loopFile] the descent steps from the root to the root. *)
Lemma loopFile_descend fuel : descend loopFile fuel 0 (mkPos 0 0 0) = OutOfFuel.
Proof.
  induction fuel as [|fuel IH]; [reflexivity|].
  cbn [descend].
  replace (step loopFile 0 (mkPos 0 0 0)) with (Down (mkPos 0 0 0))
    by (vm_compute; reflexivity).
  exact IH.
Qed.

Lemma loopFile_NextChunk fuel : NextChunk fuel (openReader loopFile) = OutOfFuel.
Proof.
  pose proof (nextChunk_after_seek loopFile (openReader loopFile) 0 loopFile_accepted) as N.
  specialize (N ltac:(vm_compute; reflexivity) ltac:(vm_compute; reflexivity)).
  assert (D : decompressedSize (openReader loopFile) = 100) by (vm_compute; reflexivity).
  specialize (N ltac:(lia) fuel).
  pose proof (resolveSeekPosition_descend loopFile fuel
                (set_needToResolveSeekPosition false (openReader loopFile))
                (accepted_set_need _ _ false loopFile_accepted)) as R.
  replace (seekPosition (set_needToResolveSeekPosition false (openReader loopFile)))
    with 0 in R by (vm_compute; reflexivity).
  replace (rootPos (set_needToResolveSeekPosition false (openReader loopFile)))
    with (mkPos 0 0 0) in R by (vm_compute; reflexivity).
  rewrite loopFile_descend in R. rewrite R in N. exact N.
Qed.

(** * More on the node codec and the reader *)

(** ** Little-endian decoding *)

Lemma lor_shiftl_add (x y k : Z) :
  0 <= k -> 0 <= x < 2 ^ k -> 0 <= y -> Z.lor x (Z.shiftl y k) = x + y * 2 ^ k.
Proof.
  intros Hk Hx Hy. rewrite Z.shiftl_mul_pow2 by lia.
  assert (L : Z.land x (y * 2 ^ k) = 0).
  { apply Z.bits_inj'. intros n Hn. rewrite Z.land_spec, Z.bits_0.
    destruct (Z.lt_ge_cases n k) as [Lt|Ge].
    - rewrite (Z.mul_pow2_bits_low y k n) by lia. apply andb_false_r.
    - rewrite <- (Z.mod_small x (2 ^ k)) by lia.
      rewrite Z.mod_pow2_bits_high by lia. reflexivity. }
  rewrite <- (Z.lxor_lor _ _ L). symmetry. apply Z.add_nocarry_lxor. exact L.
Qed.

(** ** bitwiseSubset as an order on codecs *)

Lemma bitwiseSubset_spec (outer inner : Codec) :
  bitwiseSubset outer inner = true <->
  forall n, Z.testbit inner n = true -> Z.testbit outer n = true.
Proof.
  unfold bitwiseSubset. rewrite Z.eqb_eq. split.
  - intros E n Hn. rewrite E, Z.lor_spec, Hn. apply orb_true_r.
  - intros H. apply Z.bits_inj'. intros n _. rewrite Z.lor_spec.
    destruct (Z.testbit inner n) eqn:I.
    + rewrite (H n I). reflexivity.
    + now rewrite orb_false_r.
Qed.

Lemma bitwiseSubset_refl (c : Codec) : bitwiseSubset c c = true.
Proof. apply bitwiseSubset_spec. auto. Qed.

Lemma bitwiseSubset_trans (a b c : Codec) :
  bitwiseSubset a b = true -> bitwiseSubset b c = true -> bitwiseSubset a c = true.
Proof. rewrite !bitwiseSubset_spec. auto. Qed.

Lemma bitwiseSubset_antisym (a b : Codec) :
  bitwiseSubset a b = true -> bitwiseSubset b a = true -> a = b.
Proof.
  rewrite !bitwiseSubset_spec. intros H1 H2. apply Z.bits_inj'. intros n _.
  destruct (Z.testbit a n) eqn:A, (Z.testbit b n) eqn:B; auto.
  - rewrite (H2 n A) in B. discriminate.
  - rewrite (H1 n B) in A. discriminate.
Qed.
(** ** What [valid] accepts *)

Lemma validTagsLoop_intro (b : rNode) (n : nat) : forall i,
  (forall j, i <= j < i + Z.of_nat n ->
     idx b (8 * j + 6) = 0 /\ ~ (0xC0 <= idx b (8 * j + 7) < 0xFE)) ->
  validTagsLoop b i n = true.
Proof.
  induction n as [|n IH]; intros i H; [reflexivity|].
  cbn [validTagsLoop].
  destruct (H i ltac:(lia)) as [E6 E7]. rewrite E6. cbn [Z.eqb negb].
  destruct ((192 <=? idx b (8 * i + 7)) && (idx b (8 * i + 7) <? 254)) eqn:E.
  - apply andb_true_iff in E. destruct E as [E1 E2].
    apply Z.leb_le in E1. apply Z.ltb_lt in E2. exfalso. apply E7. lia.
  - apply IH. intros j Hj. apply H. lia.
Qed.

Lemma validDPtrLoop_intro (b : rNode) (n : nat) : forall i,
  (forall j, i <= j < i + Z.of_nat n -> DPtr b (j - 1) <= DPtr b j) ->
  validDPtrLoop b (DPtr b (i - 1)) i n = true.
Proof.
  induction n as [|n IH]; intros i H; [reflexivity|].
  cbn [validDPtrLoop]. fold (DPtr b i).
  pose proof (H i ltac:(lia)) as Hi.
  destruct (DPtr b i <? DPtr b (i - 1)) eqn:E; [apply Z.ltb_lt in E; lia|].
  replace i with (i + 1 - 1) at 1 by lia.
  apply IH. intros j Hj. apply H. lia.
Qed.

Lemma validCPtrLoop_intro (b : rNode) (base m : Z) (n : nat) : forall i,
  (forall j, i <= j < i + Z.of_nat n -> u48LE (slice_from b (8 * j + base)) <= m) ->
  validCPtrLoop b base m i n = true.
Proof.
  induction n as [|n IH]; intros i H; [reflexivity|].
  cbn [validCPtrLoop].
  pose proof (H i ltac:(lia)) as Hi.
  destruct (u48LE (slice_from b (8 * i + base)) >? m) eqn:E; [lia|].
  apply IH. intros j Hj. apply H. lia.
Qed.

Lemma structuralInvariants_valid (b : rNode) :
  structuralInvariants b -> valid b = true.
Proof.
  intros [(M0 & M1 & M2) HA HD HR HT HC HV HDP HCP HK].
  unfold arity, codec, version, tTag, CPtr, cPtrMax, nodeSize in *.
  unfold valid.
  change (idx magic 0) with 0x72. change (idx magic 1) with 0xC3.
  change (idx magic 2) with 0x63.
  rewrite M0, M1, M2.
  replace (idx b 3 =? 0) with false by (symmetry; apply Z.eqb_neq; lia).
  cbn [Z.eqb Pos.eqb negb orb]. cbv zeta.
  rewrite HD, Z.eqb_refl. cbn [negb].
  rewrite validTagsLoop_intro.
  2:{ intros j Hj. split; [apply HR|apply HT]; lia. }
  cbn [negb].
  rewrite (HR (idx b 3)) by lia. cbn [Z.eqb negb].
  replace (idx b (8 * idx b 3 + 7) =? 0) with false by (symmetry; now apply Z.eqb_neq).
  change (u48LE (slice_from b (8 * 1))) with (DPtr b (2 - 1)).
  rewrite validDPtrLoop_intro.
  2:{ intros j Hj. pose proof (HDP (j - 1) ltac:(lia)) as P.
      replace (j - 1 + 1) with j in P by lia. exact P. }
  cbn [negb].
  rewrite validCPtrLoop_intro.
  2:{ intros j Hj. replace (16 * idx b 3 + 16 - 8) with (16 * idx b 3 + 8) by lia.
      apply HCP. lia. }
  cbn [negb].
  replace (idx b (16 * idx b 3 + 14) =? 0) with false by (symmetry; now apply Z.eqb_neq).
  rewrite <- low_two_bytes in HK.
  set (x := foldedChecksum b (16 * idx b 3 + 16)) in *.
  pose proof (idx_range b 4). pose proof (idx_range b 5).
  pose proof (Z.mod_pos_bound x 256 ltac:(lia)).
  pose proof (Z.mod_pos_bound (Z.shiftr x 8) 256 ltac:(lia)).
  replace (idx b 4 =? x mod 256) with true by (symmetry; apply Z.eqb_eq; lia).
  replace (idx b 5 =? Z.shiftr x 8 mod 256) with true by (symmetry; apply Z.eqb_eq; lia).
  reflexivity.
Qed.
(** ** The slots of a valid node *)

Lemma dOff_value (b : rNode) (i dBias : Z) :
  0 <= dBias <= 2 ^ 62 -> dOff b i dBias = dBias + DPtr0 b i.
Proof.
  intros Hd. pose proof (DPtr0_range b i) as R.
  destruct (dOff_DPtr0 b i dBias) as [E| ->].
  - rewrite E. apply add64_small. lia.
  - unfold dOff, DPtr0. cbn. lia.
Qed.

Lemma cOff_value (b : rNode) (i cBias : Z) :
  0 <= cBias <= 2 ^ 62 -> cOff b i cBias = cBias + CPtr b i.
Proof.
  intros Hc. unfold cOff, CPtr. cbv zeta.
  pose proof (u48LE_range (slice_from b (8 * i + (8 * idx b 3 + 8)))).
  apply add64_small. lia.
Qed.

Lemma cOffRange_bounds (b : rNode) (i cBias : Z) :
  valid b = true -> 0 <= cBias <= 2 ^ 62 -> 0 <= i ->
  cBias <= low (cOffRange b i cBias)
  /\ low (cOffRange b i cBias) <= high (cOffRange b i cBias)
  /\ high (cOffRange b i cBias) <= cBias + cPtrMax b
  /\ (arity b <= i ->
      cOffRange b i cBias = mkRange (cBias + cPtrMax b) (cBias + cPtrMax b))
  /\ (i < arity b ->
      low (cOffRange b i cBias) = cBias + CPtr b i
      /\ (cLen b i = 0 -> high (cOffRange b i cBias) = cBias + cPtrMax b)
      /\ (cLen b i <> 0 ->
          high (cOffRange b i cBias)
          = Z.min (cBias + cPtrMax b) (cBias + CPtr b i + 1024 * cLen b i))).
Proof.
  intros V Hc Hi.
  pose proof (valid_structuralInvariants b V) as SI.
  pose proof (si_arity _ SI) as HA.
  assert (R : 0 <= cPtrMax b < 2 ^ 48) by apply u48LE_range.
  assert (M : add64 cBias (cPtrMax b) = cBias + cPtrMax b) by (apply add64_small; lia).
  unfold cOffRange. cbv zeta. rewrite M.
  destruct (i >=? arity b) eqn:E.
  - assert (arity b <= i) by lia. cbn [low high].
    repeat match goal with |- _ /\ _ => split end; try lia; try reflexivity.
  - assert (Hlt : i < arity b) by lia.
    pose proof (si_cPtr _ SI i ltac:(lia)) as HC.
    assert (RC : 0 <= CPtr b i < 2 ^ 48) by apply u48LE_range.
    rewrite cOff_value by lia.
    assert (RL : 0 <= cLen b i < 256) by apply idx_range.
    rewrite (wrap64_small (cLen b i * 1024)) by lia.
    rewrite (add64_small (cBias + CPtr b i)) by lia.
    cbn [low high].
    destruct (cLen b i =? 0) eqn:L; cbn [negb];
      [apply Z.eqb_eq in L|apply Z.eqb_neq in L;
       destruct (cBias + cPtrMax b >? cBias + CPtr b i + cLen b i * 1024) eqn:G];
      repeat match goal with
             | |- _ /\ _ => split
             | |- _ -> _ => intro
             end; try reflexivity; lia.
Qed.
(** ** The root stays where it is *)

Lemma sameRoot_refl r : sameRoot r r.
Proof. constructor; reflexivity. Qed.

Lemma sameRoot_trans r1 r2 r3 : sameRoot r1 r2 -> sameRoot r2 r3 -> sameRoot r1 r3.
Proof. intros [] []. constructor; congruence. Qed.

Lemma readNode_sameRoot n off r e r' : readNode n off r = (e, r') -> sameRoot r r'.
Proof.
  unfold readNode. destruct (readAt _ _ _ _) as [e0 p]. intros H.
  injection H as <- <-. constructor; reflexivity.
Qed.

Lemma load_sameRoot off a r e r' : load off a r = (e, r') -> sameRoot r r'.
Proof.
  unfold load, latch. destruct (a =? 0).
  - intros H. injection H as <- <-. constructor; reflexivity.
  - destruct (readNode _ _ r) as [[e0|] r0] eqn:E; apply readNode_sameRoot in E;
      intros H; injection H as <- <-; [|exact E].
    apply (sameRoot_trans _ _ _ E). constructor; reflexivity.
Qed.

Lemma loadAndValidate_sameRoot off pc pv pm cb ds r e r' :
  loadAndValidate off pc pv pm cb ds r = (e, r') -> sameRoot r r'.
Proof.
  unfold loadAndValidate, latch. intros H. cbv zeta in H.
  destruct ((off <? 0) || _); [injection H as <- <-; constructor; reflexivity|].
  destruct (readNode 4 off r) as [[e0|] r0] eqn:E0; apply readNode_sameRoot in E0;
    [injection H as <- <-; apply (sameRoot_trans _ _ _ E0); constructor; reflexivity|].
  destruct (idx (currNode r0) 3 =? 0);
    [injection H as <- <-; apply (sameRoot_trans _ _ _ E0); constructor; reflexivity|].
  destruct ((CompressedSize r0 <? _) || _);
    [injection H as <- <-; apply (sameRoot_trans _ _ _ E0); constructor; reflexivity|].
  destruct (load off _ r0) as [[e1|] r1] eqn:E1; apply load_sameRoot in E1;
    pose proof (sameRoot_trans _ _ _ E0 E1) as S;
    [injection H as <- <-; exact S|].
  destruct (negb (valid _));
    [injection H as <- <-; apply (sameRoot_trans _ _ _ S); constructor; reflexivity|].
  destruct (negb _ || _ || _ || _); injection H as <- <-;
    [apply (sameRoot_trans _ _ _ S); constructor; reflexivity|exact S].
Qed.

Lemma walk_sameRoot fuel : forall cB dB r e r',
  walk fuel cB dB r = Done (e, r') -> sameRoot r r'.
Proof.
  induction fuel as [|fuel IH]; intros cB dB r e r' H; [discriminate|].
  cbn [walk] in H.
  destruct (findChunkContaining _ _ _) as [i|]; [|discriminate].
  destruct (isLeaf _ i).
  - injection H as <- <-. constructor; reflexivity.
  - destruct (loadAndValidate _ _ _ _ _ _ r) as [[e0|] r0] eqn:E;
      apply loadAndValidate_sameRoot in E.
    + injection H as <- <-. exact E.
    + apply IH in H. exact (sameRoot_trans _ _ _ E H).
Qed.

Lemma resolveSeekPosition_sameRoot fuel r e r' :
  resolveSeekPosition fuel r = Done (e, r') -> sameRoot r r'.
Proof.
  unfold resolveSeekPosition. intros H.
  destruct (load _ _ r) as [[e0|] r0] eqn:E; apply load_sameRoot in E.
  - injection H as <- <-. exact E.
  - apply walk_sameRoot in H. exact (sameRoot_trans _ _ _ E H).
Qed.

Lemma emitLoop_sameRoot n k : forall r c r',
  emitLoop n k r = (c, r') -> sameRoot r r'.
Proof.
  induction k as [|k IH]; intros r c r' H; cbn [emitLoop] in H.
  - injection H as <- <-. apply sameRoot_refl.
  - destruct (nextChunk r <? n); [|injection H as <- <-; apply sameRoot_refl].
    destruct (negb _); [injection H as <- <-; constructor; reflexivity|].
    apply IH in H. destruct H. constructor; assumption.
Qed.

Lemma nextChunkLoop_sameRoot wfuel fuel : forall r c e r',
  nextChunkLoop wfuel fuel r = Done (c, e, r') -> sameRoot r r'.
Proof.
  induction fuel as [|fuel IH]; intros r c e r' H; [discriminate|].
  cbn [nextChunkLoop] in H.
  assert (EM : forall r0,
             match emitLoop (arity (currNode r0))
                     (Z.to_nat (arity (currNode r0) - nextChunk r0)) r0 with
             | (Some c0, r1) => Done (c0, None, r1)
             | (None, r1) =>
                 nextChunkLoop wfuel fuel (set_needToResolveSeekPosition true r1)
             end = Done (c, e, r') ->
             sameRoot r0 r').
  { intros r0 H0.
    destruct (emitLoop _ _ r0) as [[c0|] r1] eqn:E; apply emitLoop_sameRoot in E.
    - injection H0 as <- <- <-. exact E.
    - apply IH in H0. apply (sameRoot_trans _ _ _ E).
      apply (sameRoot_trans _ (set_needToResolveSeekPosition true r1));
        [constructor; reflexivity|exact H0]. }
  destruct (needToResolveSeekPosition r); [|now apply EM].
  destruct (seekPosition r >=? decompressedSize r);
    [injection H as <- <- <-; apply sameRoot_refl|].
  destruct (resolveSeekPosition wfuel _) as [[[e0|] r0]| |] eqn:E; try discriminate;
    apply resolveSeekPosition_sameRoot in E;
    pose proof (sameRoot_trans r (set_needToResolveSeekPosition false r) r0
                  ltac:(constructor; reflexivity) E) as S.
  - injection H as <- <- <-. exact S.
  - apply EM in H. exact (sameRoot_trans _ _ _ S H).
Qed.

(** [initialize] runs once. *)
Lemma initialize_done r :
  initialized r = true -> initialize r = (err r, r).
Proof. intros I. unfold initialize. rewrite I. destruct (err r); reflexivity. Qed.

Lemma initialize_initialized r e r' :
  initialize r = (e, r') -> initialized r' = true \/ exists e', err r' = Some e'.
Proof.
  unfold initialize. intros H.
  destruct (err r) as [e0|] eqn:Er;
    [injection H as <- <-; right; now exists e0|].
  destruct (initialized r) eqn:I; [injection H as <- <-; now left|].
  destruct (checkParameters _) as [[e1|] r1] eqn:C.
  - injection H as <- <-. right. exists e1.
    unfold checkParameters, latch in C. cbn [ReadSeeker CompressedSize set_initialized] in C.
    destruct (ReadSeeker r); [destruct (CompressedSize r <? 32); [|discriminate]|];
      injection C as <- <-; reflexivity.
  - assert (I1 : initialized r1 = true).
    { unfold checkParameters, latch in C.
      cbn [ReadSeeker CompressedSize set_initialized] in C.
      destruct (ReadSeeker r); [destruct (CompressedSize r <? 32); [discriminate|]|discriminate].
      injection C as <-. reflexivity. }
    destruct (findRootNode r1) as [[e2|] r2] eqn:F;
      apply findRootNode_fields in F; destruct F as (I2 & _ & _).
    + injection H as <- <-. left. congruence.
    + destruct (negb _); [unfold latch in H|]; injection H as <- <-;
        [right; now eexists|left; congruence].
Qed.

Lemma public_sameRoot r :
  initialized r = true ->
  (forall n e r', DecompressedSize r = (n, e, r') -> sameRoot r r')
  /\ (forall d e r', SeekToChunkContaining d r = (e, r') -> sameRoot r r')
  /\ (forall fuel c e r', NextChunk fuel r = Done (c, e, r') -> sameRoot r r').
Proof.
  intros I. pose proof (initialize_done r I) as D.
  unfold DecompressedSize, SeekToChunkContaining, NextChunk, latch. rewrite D.
  split; [|split].
  - intros n e r' H. destruct (err r); injection H as _ _ <-; apply sameRoot_refl.
  - intros d e r' H. cbv zeta in H.
    destruct (err r); [injection H as _ <-; apply sameRoot_refl|].
    destruct (d <? 0); injection H as _ <-; constructor; reflexivity.
  - intros fuel c e r' H.
    destruct (err r); [injection H as _ _ <-; apply sameRoot_refl|].
    now apply nextChunkLoop_sameRoot in H.
Qed.

Lemma reachableFrom_sameRoot r0 r :
  initialized r0 = true -> reachableFrom r0 r -> sameRoot r0 r.
Proof.
  intros I R. induction R as [|r n e r' R IH H|r d e r' R IH H|r fuel c e r' R IH H].
  - apply sameRoot_refl.
  - apply (sameRoot_trans _ _ _ IH).
    apply (proj1 (public_sameRoot r ltac:(rewrite (sr_initialized _ _ IH); exact I)) n e r' H).
  - apply (sameRoot_trans _ _ _ IH).
    apply (proj1 (proj2 (public_sameRoot r ltac:(rewrite (sr_initialized _ _ IH); exact I)))
             d e r' H).
  - apply (sameRoot_trans _ _ _ IH).
    apply (proj2 (proj2 (public_sameRoot r ltac:(rewrite (sr_initialized _ _ IH); exact I)))
             fuel c e r' H).
Qed.
(** ** The chunk that the inner loop of [NextChunk] returns *)

Lemma emitLoop_chunk n k : forall r c r',
  emitLoop n k r = (Some c, r') ->
  exists j, nextChunk r <= j < n
    /\ c = chunk (currNode r) j (currNodeCBias r) (currNodeDBias r)
    /\ Empty (DRange c) = false
    /\ nextChunk r' = j + 1 /\ seekPosition r' = high (DRange c)
    /\ currNode r' = currNode r
    /\ currNodeCBias r' = currNodeCBias r /\ currNodeDBias r' = currNodeDBias r
    /\ needToResolveSeekPosition r' = needToResolveSeekPosition r
    /\ err r' = err r.
Proof.
  induction k as [|k IH]; intros r c r' H; cbn [emitLoop] in H; [discriminate|].
  destruct (Z.ltb_spec (nextChunk r) n) as [Lt|Ge]; [|discriminate].
  destruct (Empty (DRange (chunk (currNode r) (nextChunk r) (currNodeCBias r)
                             (currNodeDBias r)))) eqn:Em; cbn [negb] in H.
  - apply IH in H. cbn in H. destruct H as (j & Hj & H). exists j. split; [lia|exact H].
  - injection H as <- <-. exists (nextChunk r). cbn.
    repeat match goal with |- _ /\ _ => split end; try reflexivity; try lia. exact Em.
Qed.

(** ** Along a descent *)

Lemma step_Down_child f s p p' :
  step f s p = Down p' ->
  exists i,
    findChunkContaining (nodeAt f (p_off p)) s (p_dBias p) = Some i
    /\ p' = mkPos (cOff (nodeAt f (p_off p)) i (p_cBias p))
                  (childCBiasOf (nodeAt f (p_off p)) i (p_cBias p))
                  (dOff (nodeAt f (p_off p)) i (p_dBias p))
    /\ childOK f (p_off p') (codec (nodeAt f (p_off p))) (version (nodeAt f (p_off p)))
         (add64 (p_cBias p) (cPtrMax (nodeAt f (p_off p)))) (p_cBias p')
         (dSize (nodeAt f (p_off p)) i) = true.
Proof.
  unfold step. destruct (findChunkContaining _ _ _) as [i|]; [|discriminate].
  destruct (isLeaf _ i); [discriminate|].
  destruct (childOK _ _ _ _ _ _ _) eqn:C; [|discriminate].
  intros H. injection H as <-. exists i. cbn [p_off p_cBias]. repeat split. exact C.
Qed.

Lemma descend_window_le f fuel : forall s p q i,
  windowOK f p -> descend f fuel s p = Done (Some (q, i)) ->
  windowOK f q /\ window f q <= window f p.
Proof.
  induction fuel as [|fuel IH]; intros s p q i W H; [discriminate|].
  cbn [descend] in H. destruct (step f s p) as [j|p'| |] eqn:St; try discriminate.
  - injection H as <- <-. split; [exact W|lia].
  - destruct (step_window f s p p' W St) as (W' & L).
    destruct (IH s p' q i W' H) as (Wq & Lq). split; [exact Wq|lia].
Qed.

Lemma descend_codec f fuel : forall s p q i,
  descend f fuel s p = Done (Some (q, i)) ->
  bitwiseSubset (codec (nodeAt f (p_off p))) (codec (nodeAt f (p_off q))) = true
  /\ version (nodeAt f (p_off q)) <= version (nodeAt f (p_off p)).
Proof.
  induction fuel as [|fuel IH]; intros s p q i H; [discriminate|].
  cbn [descend] in H. destruct (step f s p) as [j|p'| |] eqn:St; try discriminate.
  - injection H as <- <-. split; [apply bitwiseSubset_refl|lia].
  - destruct (step_Down_child f s p p' St) as (j & _ & _ & C).
    apply childOK_true in C. destruct C as (_ & _ & _ & _ & _ & Sub & Ver).
    destruct (IH s p' q i H) as (Sq & Vq).
    split; [exact (bitwiseSubset_trans _ _ _ Sub Sq)|lia].
Qed.

(** ** The loop of [NextChunk] on a steady reader *)

Lemma reached_sameFile f r r' q : sameFile r r' -> reached f r q -> reached f r' q.
Proof. intros S. unfold reached. now rewrite (rootPos_sameFile _ _ S). Qed.

Lemma inNode_chunk f r q j :
  inNode f r q -> 0 <= j < arity (nodeAt f (p_off q)) ->
  chunk (currNode r) j (currNodeCBias r) (currNodeDBias r)
  = chunk (nodeAt f (p_off q)) j (p_cBias q) (p_dBias q).
Proof.
  intros I Hj. rewrite (in_cBias f r q I), (in_dBias f r q I).
  exact (same_chunk _ _ (in_node f r q I) j _ _ Hj).
Qed.

Lemma goodPos_nonneg f q j :
  goodPos f q -> 0 <= j < arity (nodeAt f (p_off q)) ->
  0 <= slotLow f q j /\ slotLow f q j <= slotHigh f q j
  /\ slotHigh f q j <= nodeHigh f q.
Proof.
  intros G Hj. pose proof (good_slot_order f q G j Hj) as O. unfold nodeLow in O.
  destruct G as (_ & G0 & _). lia.
Qed.

Lemma nextChunkLoop_at_leaf f wfuel fuel r q i :
  accepted f r -> needToResolveSeekPosition r = true ->
  0 <= seekPosition r < decompressedSize r ->
  descend f wfuel (seekPosition r) (rootPos r) = Done (Some (q, i)) ->
  exists r2,
    nextChunkLoop wfuel (S fuel) r
      = Done (chunk (nodeAt f (p_off q)) i (p_cBias q) (p_dBias q), None, r2)
    /\ sameFile r r2 /\ needToResolveSeekPosition r2 = false
    /\ inNode f r2 q /\ nextChunk r2 = i + 1
    /\ seekPosition r2 = slotHigh f q i.
Proof.
  intros A Hn Hr ED.
  set (r1 := set_needToResolveSeekPosition false r).
  assert (A1 : accepted f r1) by now apply accepted_set_need.
  pose proof (resolveSeekPosition_descend f wfuel r1 A1) as RD.
  change (seekPosition r1) with (seekPosition r) in RD.
  change (rootPos r1) with (rootPos r) in RD.
  destruct (accepted_rootPos f r A) as (G0 & L0 & H0).
  cbn [nextChunkLoop]. rewrite Hn.
  destruct (Z.geb_spec (seekPosition r) (decompressedSize r)) as [L|L]; [lia|].
  fold r1. rewrite ED in RD.
  destruct RD as (r' & -> & SS & Sn & Ni & Nc & Nd).
  destruct (descend_leaf f wfuel (seekPosition r) (rootPos r) q i G0 ltac:(lia) ED)
    as (Gq & Lq & Hq & Ri & _ & Si & _).
  assert (I : inNode f r' q) by (constructor; try assumption; lia).
  pose proof (emitLoop_inNode f q _ r' I eq_refl) as EL.
  pose proof (good_slot_order f q Gq i Ri) as O.
  destruct (emitLoop _ _ r') as [[c|] r2] eqn:EE.
  - destruct EL as (SF & Nd2 & I2 & j & Rj & Nj & Lj & Dj & NEj & Sj).
    destruct (emitLoop_chunk _ _ _ _ _ EE) as (j' & _ & Ec & _ & Nj' & _).
    assert (j' = j) by lia. subst j'.
    rewrite Ni in *.
    assert (j = i).
    { destruct (Z.eq_dec j i) as [E|NE]; [exact E|exfalso].
      pose proof (good_slot_mono f q Gq i j ltac:(lia) ltac:(lia) ltac:(lia)). lia. }
    subst j. exists r2.
    rewrite Ec, (inNode_chunk f r' q i I Ri).
    split; [reflexivity|].
    split; [apply (sameFile_trans r r1);
            [constructor; reflexivity|
             eapply sameFile_trans; [apply sameSettings_sameFile; exact SS|exact SF]]|].
    split; [rewrite Nd2, (ss_need _ _ SS); reflexivity|].
    split; [exact I2|]. split; [exact Nj|exact Sj].
  - exfalso. destruct EL as (_ & _ & E & _). rewrite Ni in E. lia.
Qed.

Lemma emitLoop_exhausted f r q r1 :
  accepted f r -> 0 <= seekPosition r -> inNode f r q ->
  emitLoop (arity (currNode r)) (Z.to_nat (arity (currNode r) - nextChunk r)) r
    = (None, r1) ->
  sameFile r r1 /\ steady f (set_needToResolveSeekPosition true r1).
Proof.
  intros A S0 I EE.
  pose proof (emitLoop_inNode f q _ r I eq_refl) as EL. rewrite EE in EL.
  destruct EL as (SF & Nd1 & E & Sk1).
  split; [exact SF|].
  assert (SF2 : sameFile r (set_needToResolveSeekPosition true r1)).
  { eapply sameFile_trans; [exact SF|constructor; reflexivity]. }
  split; [exact (accepted_sameFile f r _ A SF2)|].
  split; [|left; reflexivity].
  change (0 <= seekPosition r1).
  destruct Sk1 as [->| ->]; [exact S0|].
  destruct (in_good f r q I) as (_ & G0 & _). unfold nodeHigh.
  pose proof (u48LE_range (slice_from (nodeAt f (p_off q)) (8 * idx (nodeAt f (p_off q)) 3))).
  unfold dPtrMax. lia.
Qed.

Lemma emit_steady f wfuel fuel r q :
  (forall r0, steady f r0 -> steadyPost f (nextChunkLoop wfuel fuel r0)) ->
  accepted f r -> 0 <= seekPosition r -> needToResolveSeekPosition r = false ->
  inNode f r q -> reached f r q ->
  steadyPost f
    match emitLoop (arity (currNode r)) (Z.to_nat (arity (currNode r) - nextChunk r)) r with
    | (Some c0, r1) => Done (c0, None, r1)
    | (None, r1) => nextChunkLoop wfuel fuel (set_needToResolveSeekPosition true r1)
    end.
Proof.
  intros IH A S0 Nd I Rq.
  pose proof (emitLoop_inNode f q _ r I eq_refl) as EL.
  pose proof (in_good f r q I) as Gq.
  destruct (emitLoop _ _ r) as [[c0|] r1] eqn:EE.
  - destruct EL as (SF & Nd1 & I1 & j & Rj & Nj & Lj & Dj & NEj & Sj).
    destruct (emitLoop_chunk _ _ _ _ _ EE) as (j' & _ & Ec & Em & Nj' & _).
    assert (j' = j) by lia. subst j'.
    pose proof (in_next f r q I) as Nx.
    assert (Hj : 0 <= j < arity (nodeAt f (p_off q))) by lia.
    pose proof (goodPos_nonneg f q j Gq Hj) as O.
    cbn [steadyPost].
    assert (R1 : reached f r1 q) by exact (reached_sameFile f r r1 q SF Rq).
    split; [|split; [congruence|]].
    + split; [exact (accepted_sameFile f r r1 A SF)|]. split; [lia|].
      right. exists q. split; assumption.
    + exists q, j. repeat match goal with |- _ /\ _ => split end; try assumption; try lia.
      rewrite Ec. now apply inNode_chunk.
  - apply IH. exact (proj2 (emitLoop_exhausted f r q r1 A S0 I EE)).
Qed.

Lemma nextChunkLoop_steady f wfuel fuel : forall r,
  steady f r -> steadyPost f (nextChunkLoop wfuel fuel r).
Proof.
  induction fuel as [|fuel IH]; intros r (A & S0 & C); [exact I|].
  destruct (needToResolveSeekPosition r) eqn:Nd.
  - clear C.
    destruct (Z.geb_spec (seekPosition r) (decompressedSize r)) as [Ge|Lt].
    { cbn [nextChunkLoop]. rewrite Nd.
      destruct (Z.geb_spec (seekPosition r) (decompressedSize r)) as [_|Lt]; [|lia].
      cbn [steadyPost]. split; [reflexivity|]. left. split; [reflexivity|].
      split; [exact A|]. split; [exact S0|now left]. }
    destruct (accepted_rootPos f r A) as (G0 & L0 & H0).
    pose proof (resolveSeekPosition_descend f wfuel
                  (set_needToResolveSeekPosition false r)
                  (accepted_set_need f r false A)) as RD.
    change (seekPosition (set_needToResolveSeekPosition false r))
      with (seekPosition r) in RD.
    change (rootPos (set_needToResolveSeekPosition false r)) with (rootPos r) in RD.
    destruct (descend f wfuel (seekPosition r) (rootPos r)) as [[[q i]|]| |] eqn:ED.
    + clear RD.
      destruct (nextChunkLoop_at_leaf f wfuel fuel r q i A Nd ltac:(lia) ED)
        as (r2 & -> & SF & Nd2 & I2 & Ni & Sk).
      destruct (descend_leaf f wfuel (seekPosition r) (rootPos r) q i G0 ltac:(lia) ED)
        as (Gq & Lq & Hq & Ri & _ & Si & _).
      pose proof (goodPos_nonneg f q i Gq Ri) as O.
      assert (Rq : reached f r2 q).
      { apply (reached_sameFile f r r2 q SF). exists wfuel, (seekPosition r), i.
        split; [exact S0|exact ED]. }
      cbn [steadyPost]. split; [|split; [exact Nd2|]].
      * split; [exact (accepted_sameFile f r r2 A SF)|]. split; [lia|].
        right. exists q. split; assumption.
      * exists q, i.
        repeat match goal with |- _ /\ _ => split end;
          try assumption; try lia; try reflexivity.
        unfold Empty, chunk, dOffRange. cbn [DRange low high].
        apply Z.eqb_neq. unfold slotLow, slotHigh in Si. lia.
    + cbn [nextChunkLoop]. rewrite Nd.
      destruct (Z.geb_spec (seekPosition r) (decompressedSize r)) as [Ge|_]; [lia|].
      destruct RD as (r2 & -> & Er).
      cbn [steadyPost]. split; [reflexivity|]. right. split; [reflexivity|exact Er].
    + exfalso. apply (descend_no_panic f wfuel (seekPosition r) (rootPos r) G0); [lia|exact ED].
    + cbn [nextChunkLoop]. rewrite Nd.
      destruct (Z.geb_spec (seekPosition r) (decompressedSize r)) as [Ge|_]; [lia|].
      rewrite RD. exact I.
  - destruct C as [C|(q & I & Rq)]; [discriminate C|].
    cbn [nextChunkLoop]. rewrite Nd.
    exact (emit_steady f wfuel fuel r q IH A S0 Nd I Rq).
Qed.
Lemma reached_node f r q :
  accepted f r -> reached f r q ->
  goodPos f q /\ nodeHigh f q <= decompressedSize r
  /\ windowOK f q /\ window f q <= fileSize f
  /\ bitwiseSubset (codec (nodeAt f (rootNodeCOffset r))) (codec (nodeAt f (p_off q))) = true
  /\ version (nodeAt f (p_off q)) = 1.
Proof.
  intros A (fuel & s & i & Hs & ED).
  destruct (accepted_rootPos f r A) as (G0 & L0 & H0).
  destruct (accepted_window f r A) as (W0 & E0).
  destruct (descend_leaf f fuel s (rootPos r) q i G0 ltac:(lia) ED)
    as (Gq & Lq & Hq & Ri & _ & Si & _).
  destruct (descend_window_le f fuel s (rootPos r) q i W0 ED) as (Wq & Lw).
  destruct (descend_codec f fuel s (rootPos r) q i ED) as (Sub & Ver).
  cbn [rootPos p_off] in Sub, Ver. rewrite (acc_version f r A) in Ver.
  pose proof (si_version _ (valid_structuralInvariants _ (proj1 Gq))) as V0.
  pose proof (idx_range (nodeAt f (p_off q)) (16 * idx (nodeAt f (p_off q)) 3 + 14)) as VR.
  unfold version in *.
  repeat match goal with |- _ /\ _ => split end; try assumption; lia.
Qed.

Lemma reachableFrom_steady f r0 r :
  steady f r0 -> reachableFrom r0 r -> (exists e, err r = Some e) \/ steady f r.
Proof.
  intros S0 R.
  induction R as [|r n e r' R IH H|r d e r' R IH H|r fuel c e r' R IH H].
  - now right.
  - unfold DecompressedSize in H. destruct IH as [(e0 & E)|S].
    + unfold initialize in H. rewrite E in H. injection H as _ _ <-. left. now exists e0.
    + rewrite (initialize_accepted f r (proj1 S)) in H. injection H as _ _ <-. now right.
  - unfold SeekToChunkContaining, latch in H. cbv zeta in H. destruct IH as [(e0 & E)|S].
    + unfold initialize in H. rewrite E in H. injection H as _ <-. left. now exists e0.
    + rewrite (initialize_accepted f r (proj1 S)) in H.
      destruct (Z.ltb_spec d 0) as [Lt|Ge]; injection H as _ <-.
      * left. now eexists.
      * right. destruct S as (A & _ & _).
        split; [apply (accepted_sameFile f r); [exact A|constructor; reflexivity]|].
        split; [exact Ge|now left].
  - unfold NextChunk in H. destruct IH as [(e0 & E)|S].
    + unfold initialize in H. rewrite E in H. injection H as _ _ <-. left. now exists e0.
    + rewrite (initialize_accepted f r (proj1 S)) in H.
      pose proof (nextChunkLoop_steady f fuel fuel r S) as P. rewrite H in P.
      cbn [steadyPost] in P. destruct e as [e|].
      * destruct P as (_ & [(_ & S')|(_ & E)]); [now right|left; now exists e].
      * right. exact (proj1 P).
Qed.

Lemma NextChunk_cursor f r0 r fuel c r' :
  steady f r0 -> reachableFrom r0 r -> NextChunk fuel r = Done (c, None, r') ->
  exists q j,
    reached f r' q /\ accepted f r'
    /\ 0 <= j < arity (nodeAt f (p_off q))
    /\ c = chunk (nodeAt f (p_off q)) j (p_cBias q) (p_dBias q)
    /\ Empty (DRange c) = false.
Proof.
  intros S0 R H. unfold NextChunk in H.
  destruct (reachableFrom_steady f r0 r S0 R) as [(e0 & E)|S].
  - unfold initialize in H. rewrite E in H. discriminate H.
  - rewrite (initialize_accepted f r (proj1 S)) in H.
    pose proof (nextChunkLoop_steady f fuel fuel r S) as P. rewrite H in P.
    cbn [steadyPost] in P. destruct P as (S' & _ & q & j & _ & Rq & Hj & _ & Ec & Em).
    exists q, j. repeat match goal with |- _ /\ _ => split end; try assumption; try lia.
    exact (proj1 S').
Qed.

(** ** [NextChunk] makes at most two rounds *)

Lemma nextChunkLoop_resolve_returns f wfuel fuel r :
  accepted f r -> 0 <= seekPosition r -> needToResolveSeekPosition r = true ->
  (seekPosition r < decompressedSize r ->
   descend f wfuel (seekPosition r) (rootPos r) <> OutOfFuel) ->
  nextChunkLoop wfuel (S fuel) r <> OutOfFuel.
Proof.
  intros A S0 Nd T.
  destruct (Z.geb_spec (seekPosition r) (decompressedSize r)) as [Ge|Lt].
  { cbn [nextChunkLoop]. rewrite Nd.
    destruct (Z.geb_spec (seekPosition r) (decompressedSize r)) as [_|Lt]; [|lia].
    discriminate. }
  specialize (T Lt).
  pose proof (resolveSeekPosition_descend f wfuel
                (set_needToResolveSeekPosition false r)
                (accepted_set_need f r false A)) as RD.
  change (seekPosition (set_needToResolveSeekPosition false r))
    with (seekPosition r) in RD.
  change (rootPos (set_needToResolveSeekPosition false r)) with (rootPos r) in RD.
  destruct (descend f wfuel (seekPosition r) (rootPos r)) as [[[q i]|]| |] eqn:ED.
  - destruct (nextChunkLoop_at_leaf f wfuel fuel r q i A Nd ltac:(lia) ED) as (r2 & -> & _).
    discriminate.
  - cbn [nextChunkLoop]. rewrite Nd.
    destruct (Z.geb_spec (seekPosition r) (decompressedSize r)) as [Ge|_]; [lia|].
    destruct RD as (r2 & -> & _). discriminate.
  - cbn [nextChunkLoop]. rewrite Nd.
    destruct (Z.geb_spec (seekPosition r) (decompressedSize r)) as [Ge|_]; [lia|].
    rewrite RD. discriminate.
  - now contradiction T.
Qed.

Lemma nextChunkLoop_returns f wfuel fuel r :
  steady f r ->
  (forall s, 0 <= s < decompressedSize r ->
     descend f wfuel s (rootPos r) <> OutOfFuel) ->
  nextChunkLoop wfuel (S (S fuel)) r <> OutOfFuel.
Proof.
  intros (A & S0 & C) T.
  destruct (needToResolveSeekPosition r) eqn:Nd.
  - apply (nextChunkLoop_resolve_returns f wfuel (S fuel) r A S0 Nd).
    intros Lt. apply T. lia.
  - destruct C as [C|(q & I & _)]; [discriminate C|].
    cbn [nextChunkLoop]. rewrite Nd.
    destruct (emitLoop _ _ r) as [[c0|] r1] eqn:EE; [discriminate|].
    destruct (emitLoop_exhausted f r q r1 A S0 I EE) as (SF & (A2 & S2 & _)).
    apply (nextChunkLoop_resolve_returns f wfuel fuel _ A2 S2 eq_refl).
    intros Lt. change (rootPos (set_needToResolveSeekPosition true r1)) with (rootPos r1).
    rewrite (rootPos_sameFile _ _ SF). apply T.
    change (decompressedSize (set_needToResolveSeekPosition true r1))
      with (decompressedSize r1) in Lt.
    rewrite (sf_decompressedSize _ _ SF) in Lt. lia.
Qed.
(** ** [NextChunk] right after a position is set *)

Lemma nextChunkLoop_resolve f wfuel fuel r :
  accepted f r -> needToResolveSeekPosition r = true ->
  0 <= seekPosition r < decompressedSize r ->
  match descend f wfuel (seekPosition r) (rootPos r) with
  | Done (Some (q, i)) =>
      exists r2,
        nextChunkLoop wfuel (S fuel) r
          = Done (chunk (nodeAt f (p_off q)) i (p_cBias q) (p_dBias q), None, r2)
  | Done None =>
      exists r2,
        nextChunkLoop wfuel (S fuel) r = Done (noChunk, Some errInvalidIndexNode, r2)
  | Panic => False
  | OutOfFuel => nextChunkLoop wfuel (S fuel) r = OutOfFuel
  end.
Proof.
  intros A Nd Hr.
  destruct (accepted_rootPos f r A) as (G0 & L0 & H0).
  pose proof (resolveSeekPosition_descend f wfuel
                (set_needToResolveSeekPosition false r)
                (accepted_set_need f r false A)) as RD.
  change (seekPosition (set_needToResolveSeekPosition false r))
    with (seekPosition r) in RD.
  change (rootPos (set_needToResolveSeekPosition false r)) with (rootPos r) in RD.
  destruct (descend f wfuel (seekPosition r) (rootPos r)) as [[[q i]|]| |] eqn:ED.
  - destruct (nextChunkLoop_at_leaf f wfuel fuel r q i A Nd Hr ED) as (r2 & E & _).
    now exists r2.
  - cbn [nextChunkLoop]. rewrite Nd.
    destruct (Z.geb_spec (seekPosition r) (decompressedSize r)) as [Ge|_]; [lia|].
    destruct RD as (r2 & -> & _). now exists r2.
  - apply (descend_no_panic f wfuel (seekPosition r) (rootPos r) G0); [lia|exact ED].
  - cbn [nextChunkLoop]. rewrite Nd.
    destruct (Z.geb_spec (seekPosition r) (decompressedSize r)) as [Ge|_]; [lia|].
    rewrite RD. reflexivity.
Qed.

(** ** Loads *)

Lemma idx_app_left (a b : list byte) (k : Z) :
  0 <= k < Z.of_nat (length a) -> idx (a ++ b) k = idx a k.
Proof. intros H. unfold idx. rewrite app_nth1 by lia. reflexivity. Qed.

Lemma idx_app_right (a b : list byte) (k : Z) :
  Z.of_nat (length a) <= k -> idx (a ++ b) k = idx b (k - Z.of_nat (length a)).
Proof.
  intros H. unfold idx. rewrite app_nth2 by lia.
  f_equal. f_equal. lia.
Qed.

Lemma idx_skipn (p : list byte) (n k : Z) :
  0 <= n -> 0 <= k -> idx (skipn (Z.to_nat n) p) k = idx p (n + k).
Proof. intros Hn Hk. exact (idx_slice_from p n k Hn Hk). Qed.

Lemma loaded_bytes (f p : list byte) (n off : Z) :
  0 <= off -> 0 <= n -> off + n <= Z.of_nat (length f) -> (Z.to_nat n <= length p)%nat ->
  let b := firstn (Z.to_nat n) (skipn (Z.to_nat off) f) ++ skipn (Z.to_nat n) p in
  length b = length p
  /\ (forall k, 0 <= k < n -> idx b k = idx f (off + k))
  /\ (forall k, n <= k -> idx b k = idx p k).
Proof.
  intros Ho Hn Hl Hp b.
  assert (L : length (firstn (Z.to_nat n) (skipn (Z.to_nat off) f)) = Z.to_nat n).
  { rewrite length_firstn, length_skipn. lia. }
  split; [|split].
  - unfold b. rewrite length_app, L, length_skipn. lia.
  - intros k Hk. unfold b. rewrite idx_app_left by lia.
    unfold idx. rewrite nth_firstn.
    destruct (Nat.ltb_spec (Z.to_nat k) (Z.to_nat n)) as [_|Ge]; [|lia].
    rewrite nth_skipn. f_equal. f_equal. lia.
  - intros k Hk. unfold b. rewrite idx_app_right by lia.
    rewrite L, idx_skipn by lia. f_equal. lia.
Qed.

Lemma load_outside (f : list byte) (r : Reader) (a off : Z) :
  ReadSeeker r = Some f -> 0 < a -> 0 <= off -> fileSize f < off + nodeSize a ->
  exists r',
    load off a r
    = (Some (if fileSize f <=? off then io_EOF else io_ErrUnexpectedEOF), r')
    /\ err r' = Some (if fileSize f <=? off then io_EOF else io_ErrUnexpectedEOF).
Proof.
  intros Hf Ha Ho Hl. unfold load, readNode, theFile, readAt, latch. rewrite Hf.
  destruct (Z.eqb_spec a 0); [lia|].
  destruct (Z.ltb_spec off 0); [lia|].
  unfold fileSize in *.
  set (got := firstn (Z.to_nat (nodeSize a)) (skipn (Z.to_nat off) f)).
  assert (L : length got = (length f - Z.to_nat off)%nat).
  { unfold got. rewrite length_firstn, length_skipn. unfold nodeSize in *. lia. }
  cbv zeta.
  destruct (Z.eqb_spec (Z.of_nat (length got)) (nodeSize a)) as [E|NE];
    [unfold nodeSize in *; lia|].
  destruct (Nat.eqb_spec (length got) 0) as [Z0|NZ];
    destruct (Z.leb_spec (Z.of_nat (length f)) off); try lia;
    eexists; split; reflexivity.
Qed.

(** ** Seeks *)

Lemma SeekToChunkContaining_ok d r r1 :
  SeekToChunkContaining d r = (None, r1) ->
  0 <= d /\ exists r0, initialize r = (None, r0)
                       /\ r1 = set_seekPosition d (set_needToResolveSeekPosition true r0)
                       /\ err r0 = None /\ initialized r0 = true.
Proof.
  unfold SeekToChunkContaining, latch. intros H. cbv zeta in H.
  destruct (initialize r) as [[e|] r0] eqn:I; [discriminate|].
  destruct (Z.ltb_spec d 0); [discriminate|].
  injection H as <-. split; [lia|]. exists r0.
  apply initialize_fields in I. destruct I as ((E & In) & _).
  repeat split; assumption.
Qed.

(** ** End of stream *)

Lemma nextChunkLoop_EOF wfuel fuel : forall r c r',
  nextChunkLoop wfuel fuel r = Done (c, Some io_EOF, r') ->
  err r' = Some io_EOF
  \/ needToResolveSeekPosition r' = true
     /\ seekPosition r' >= decompressedSize r' /\ err r' = err r.
Proof.
  induction fuel as [|fuel IH]; intros r c r' H; [discriminate|].
  cbn [nextChunkLoop] in H.
  assert (EM : forall r0,
             match emitLoop (arity (currNode r0))
                     (Z.to_nat (arity (currNode r0) - nextChunk r0)) r0 with
             | (Some c0, r1) => Done (c0, None, r1)
             | (None, r1) =>
                 nextChunkLoop wfuel fuel (set_needToResolveSeekPosition true r1)
             end = Done (c, Some io_EOF, r') ->
             err r' = Some io_EOF
             \/ needToResolveSeekPosition r' = true
                /\ seekPosition r' >= decompressedSize r' /\ err r' = err r0).
  { intros r0 H0.
    destruct (emitLoop _ _ r0) as [[c0|] r1] eqn:E; [discriminate|].
    apply emitLoop_err in E. apply IH in H0. cbn [err set_needToResolveSeekPosition] in H0.
    destruct H0 as [H0|(H1 & H2 & H3)]; [now left|right].
    repeat split; try assumption. congruence. }
  destruct (needToResolveSeekPosition r) eqn:Nd; [|now apply EM].
  destruct (Z.geb_spec (seekPosition r) (decompressedSize r)) as [Ge|Lt].
  - injection H as _ <-. right. repeat split; [exact Nd|lia].
  - destruct (resolveSeekPosition wfuel _) as [[[e0|] r0]| |] eqn:E; try discriminate.
    + injection H as _ <- <-. left. exact (resolveSeekPosition_latches _ _ _ _ E).
    + apply resolveSeekPosition_None_err in E. cbn [err set_needToResolveSeekPosition] in E.
      apply EM in H. destruct H as [H|(H1 & H2 & H3)]; [now left|right].
      repeat split; try assumption. congruence.
Qed.

Lemma nextChunkLoop_error_chunk wfuel fuel : forall r c e r',
  nextChunkLoop wfuel fuel r = Done (c, Some e, r') -> c = noChunk.
Proof.
  induction fuel as [|fuel IH]; intros r c e r' H; [discriminate|].
  cbn [nextChunkLoop] in H.
  assert (EM : forall r0,
             match emitLoop (arity (currNode r0))
                     (Z.to_nat (arity (currNode r0) - nextChunk r0)) r0 with
             | (Some c0, r1) => Done (c0, None, r1)
             | (None, r1) =>
                 nextChunkLoop wfuel fuel (set_needToResolveSeekPosition true r1)
             end = Done (c, Some e, r') -> c = noChunk).
  { intros r0 H0. destruct (emitLoop _ _ r0) as [[c0|] r1]; [discriminate|].
    exact (IH _ _ _ _ H0). }
  destruct (needToResolveSeekPosition r); [|exact (EM _ H)].
  destruct (seekPosition r >=? decompressedSize r); [now injection H as <- _ _|].
  destruct (resolveSeekPosition wfuel _) as [[[e0|] r0]| |]; try discriminate.
  - now injection H as <- _ _.
  - exact (EM _ H).
Qed.

Lemma nextChunkLoop_nonempty wfuel fuel : forall r c r',
  nextChunkLoop wfuel fuel r = Done (c, None, r') ->
  Empty (DRange c) = false /\ seekPosition r' = high (DRange c).
Proof.
  induction fuel as [|fuel IH]; intros r c r' H; [discriminate|].
  cbn [nextChunkLoop] in H.
  assert (EM : forall r0,
             match emitLoop (arity (currNode r0))
                     (Z.to_nat (arity (currNode r0) - nextChunk r0)) r0 with
             | (Some c0, r1) => Done (c0, None, r1)
             | (None, r1) =>
                 nextChunkLoop wfuel fuel (set_needToResolveSeekPosition true r1)
             end = Done (c, None, r') ->
             Empty (DRange c) = false /\ seekPosition r' = high (DRange c)).
  { intros r0 H0.
    destruct (emitLoop _ _ r0) as [[c0|] r1] eqn:E; [|exact (IH _ _ _ H0)].
    injection H0 as <- <-.
    destruct (emitLoop_chunk _ _ _ _ _ E) as (j & _ & _ & Em & _ & Sk & _).
    split; assumption. }
  destruct (needToResolveSeekPosition r) eqn:Nd; [|exact (EM _ H)].
  destruct (seekPosition r >=? decompressedSize r); [discriminate|].
  destruct (resolveSeekPosition wfuel _) as [[[e0|] r0]| |] eqn:E; try discriminate.
  exact (EM _ H).
Qed.

(** ** Reading on from any position *)

Lemma noStraddle_reached f fuel p0 d q i :
  goodPos f p0 -> nodeLow p0 = 0 -> 0 <= d ->
  descend f fuel d p0 = Done (Some (q, i)) ->
  noStraddle f p0 (nodeHigh f q).
Proof.
  intros G0 L0 Hd ED fuel' x q' i' Hx EDx.
  destruct (descend_leaf f fuel d p0 q i G0 ltac:(lia) ED)
    as (Gq & Lq & Hq & Ri & _ & Si & _).
  pose proof (good_slot_order f q Gq i Ri) as O.
  destruct (Z.lt_ge_cases x (nodeLow q)) as [Lt|Ge].
  - destruct (descend_leaf f fuel' x p0 q' i' G0 ltac:(lia) EDx)
      as (_ & _ & _ & _ & _ & Sx & Same).
    destruct (Z.le_gt_cases (slotHigh f q' i') (nodeLow q)) as [Le|Gt]; [lia|].
    pose proof (Same (nodeLow q) ltac:(lia)) as EDz.
    exact (proj2 (descend_through f fuel d p0 q i G0 ltac:(lia) ED
                    (nodeLow q) fuel' q' i' ltac:(lia) EDz)).
  - exact (proj2 (descend_through f fuel d p0 q i G0 ltac:(lia) ED
                    x fuel' q' i' ltac:(lia) EDx)).
Qed.

(** ** The positions of a descent *)

Lemma step_Down_nested f s p p' :
  goodPos f p -> windowOK f p -> step f s p = Down p' ->
  goodPos f p' /\ windowOK f p'
  /\ 0 <= p_off p' <= fileSize f
  /\ p_cBias p <= p_cBias p' /\ window f p' <= window f p
  /\ nodeLow p <= nodeLow p' /\ nodeHigh f p' <= nodeHigh f p.
Proof.
  intros G W H.
  destruct (step_window f s p p' W H) as (W' & Lw).
  destruct (step_Down_child f s p p' H) as (i & Ei & -> & Ec).
  cbn [p_off p_cBias] in Ec.
  apply findChunkContaining_some in Ei. destruct Ei as (Ri & _).
  apply childOK_true in Ec. destruct Ec as (V & D & _ & O0 & Fit & _).
  pose proof (good_slot_order f p G i Ri) as O.
  assert (NH : nodeHigh f (mkPos (cOff (nodeAt f (p_off p)) i (p_cBias p))
                              (childCBiasOf (nodeAt f (p_off p)) i (p_cBias p))
                              (dOff (nodeAt f (p_off p)) i (p_dBias p)))
               = slotHigh f p i).
  { unfold nodeHigh. cbn [p_off p_dBias]. rewrite D.
    change (dOff (nodeAt f (p_off p)) i (p_dBias p)) with (slotLow f p i).
    rewrite good_slotLow, good_slotHigh, dSize_DPtr0 by (assumption || lia). lia. }
  set (n := nodeAt f (p_off p)) in *.
  set (p' := mkPos (cOff n i (p_cBias p)) (childCBiasOf n i (p_cBias p))
                   (dOff n i (p_dBias p))) in *.
  assert (NL : nodeLow p' = slotLow f p i) by reflexivity.
  pose proof (window_range f p W) as W0.
  assert (CB : p_cBias p <= p_cBias p').
  { destruct W as (C0 & C1). unfold window in *.
    pose proof (u48LE_range (slice_from n (16 * idx n 3 + 8))) as R.
    fold (cPtrMax n) in R. fold n in C1, W0.
    pose proof (childCBiasOf_range n i (p_cBias p) ltac:(lia)) as B.
    unfold p'. cbn [p_cBias]. lia. }
  assert (A0 : 1 <= arity (nodeAt f (cOff n i (p_cBias p))))
    by exact (proj1 (si_arity _ (valid_structuralInvariants _ V))).
  destruct G as (Gv & G0 & G1). unfold nodeLow in O.
  split; [split; [exact V|split; [change (0 <= nodeLow p'); rewrite NL; lia
                                 |rewrite NH; lia]]|].
  split; [exact W'|].
  split; [unfold p'; cbn [p_off]; unfold nodeSize in Fit; lia|].
  split; [exact CB|]. split; [exact Lw|].
  split; [rewrite NL; unfold nodeLow; lia|rewrite NH; lia].
Qed.

Lemma posAfter_nested f s k : forall p q,
  goodPos f p -> windowOK f p -> 0 <= p_off p <= fileSize f ->
  posAfter f k s p = Some q ->
  goodPos f q /\ windowOK f q
  /\ 0 <= p_off q <= fileSize f
  /\ p_cBias p <= p_cBias q /\ window f q <= window f p
  /\ nodeLow p <= nodeLow q /\ nodeHigh f q <= nodeHigh f p.
Proof.
  induction k as [|k IH]; intros p q G W O H; cbn [posAfter] in H.
  - injection H as <-.
    repeat match goal with |- _ /\ _ => split end; try assumption; lia.
  - destruct (step f s p) as [i|p'| |] eqn:St; try discriminate.
    destruct (step_Down_nested f s p p' G W St) as (G' & W' & O' & C & Lw & Ln & Lh).
    destruct (IH p' q G' W' O' H) as (Gq & Wq & Oq & Cq & Lwq & Lnq & Lhq).
    repeat match goal with |- _ /\ _ => split end; try assumption; lia.
Qed.

Lemma posAfter_add f s j : forall m p,
  posAfter f (j + m) s p
  = match posAfter f j s p with
    | Some q => posAfter f m s q
    | None => None
    end.
Proof.
  induction j as [|j IH]; intros m p; [reflexivity|].
  cbn [posAfter Nat.add]. destruct (step f s p) as [i|p'| |]; try reflexivity.
  apply IH.
Qed.

Lemma same_off_same_pos f s p j k qj qk :
  goodPos f p -> windowOK f p -> 0 <= p_off p <= fileSize f ->
  (j <= k)%nat ->
  posAfter f j s p = Some qj -> posAfter f k s p = Some qk ->
  p_off qj = p_off qk -> qj = qk.
Proof.
  intros G W O Le Hj Hk E.
  replace k with (j + (k - j))%nat in Hk by lia.
  rewrite posAfter_add, Hj in Hk.
  destruct (posAfter_nested f s j p qj G W O Hj) as (Gj & Wj & Oj & _).
  destruct (posAfter_nested f s (k - j) qj qk Gj Wj Oj Hk)
    as (_ & _ & _ & C & Lw & Ln & Lh).
  unfold window, nodeHigh, nodeLow in *. rewrite <- E in *.
  destruct qj as [o1 c1 d1], qk as [o2 c2 d2]. cbn [p_off p_cBias p_dBias] in *.
  subst o2. f_equal; lia.
Qed.

Lemma descend_OutOfFuel_path f s n : forall p,
  descend f n s p = OutOfFuel ->
  forall k, (k <= n)%nat -> exists q, posAfter f k s p = Some q.
Proof.
  induction n as [|n IH]; intros p H k Hk.
  - assert (k = O) by lia. subst k. now exists p.
  - cbn [descend] in H. destruct k as [|k]; [now exists p|].
    cbn [posAfter]. destruct (step f s p) as [i|p'| |]; try discriminate H.
    apply (IH p' H k). lia.
Qed.

Lemma NoDup_map_on {A B : Type} (g : A -> B) (l : list A) :
  NoDup l -> (forall x y, In x l -> In y l -> g x = g y -> x = y) ->
  NoDup (map g l).
Proof.
  induction 1 as [|a l Hn Hd IH]; intros Inj; [constructor|].
  cbn [map]. constructor.
  - intros Hin. apply in_map_iff in Hin. destruct Hin as (x & Ex & Hx).
    assert (x = a) by (apply Inj; [now right|now left|exact Ex]).
    subst x. contradiction.
  - apply IH. intros x y Hx Hy. apply Inj; now right.
Qed.

Lemma descend_ends f s p :
  goodPos f p -> windowOK f p -> 0 <= p_off p <= fileSize f ->
  neverTwice f s p ->
  descend f (S (Z.to_nat (fileSize f))) s p <> OutOfFuel.
Proof.
  intros G W O NT H.
  set (N := S (Z.to_nat (fileSize f))) in *.
  pose proof (descend_OutOfFuel_path f s N p H) as P.
  set (code := fun k => match posAfter f k s p with
                        | Some q => Z.to_nat (p_off q)
                        | None => 0%nat
                        end).
  assert (ND : NoDup (map code (seq 0 (S N)))).
  { apply NoDup_map_on; [apply seq_NoDup|].
    intros x y Hx Hy E. apply in_seq in Hx. apply in_seq in Hy.
    destruct (P x ltac:(lia)) as (qx & Ex). destruct (P y ltac:(lia)) as (qy & Ey).
    unfold code in E. rewrite Ex, Ey in E.
    destruct (posAfter_nested f s x p qx G W O Ex) as (_ & _ & Ox & _).
    destruct (posAfter_nested f s y p qy G W O Ey) as (_ & _ & Oy & _).
    assert (Eo : p_off qx = p_off qy) by lia.
    destruct (Nat.lt_trichotomy x y) as [Lt|[Eq|Gt]]; [exfalso|exact Eq|exfalso].
    - pose proof (same_off_same_pos f s p x y qx qy G W O ltac:(lia) Ex Ey Eo) as Eq.
      subst qy. exact (NT x y qx Lt Ex Ey).
    - pose proof (same_off_same_pos f s p y x qy qx G W O ltac:(lia) Ey Ex
                    (eq_sym Eo)) as Eq.
      subst qy. exact (NT y x qx Gt Ey Ex). }
  assert (IN : incl (map code (seq 0 (S N))) (seq 0 N)).
  { intros c Hc. apply in_map_iff in Hc. destruct Hc as (k & <- & Hk).
    apply in_seq in Hk. destruct (P k ltac:(lia)) as (q & Eq).
    unfold code. rewrite Eq.
    destruct (posAfter_nested f s k p q G W O Eq) as (_ & _ & Oq & _).
    apply in_seq. unfold N. lia. }
  pose proof (NoDup_incl_length ND IN) as Len.
  rewrite length_map, !length_seq in Len. lia.
Qed.

Lemma posAfter_descend f s m : forall p q,
  posAfter f m s p = Some q ->
  (forall n, descend f (m + n) s p = descend f n s q)
  /\ (forall n, (n < m)%nat -> descend f n s p = OutOfFuel).
Proof.
  induction m as [|m IH]; intros p q H; cbn [posAfter] in H.
  - injection H as <-. split; [reflexivity|intros n Hn; lia].
  - destruct (step f s p) as [i|p'| |] eqn:St; try discriminate.
    destruct (IH p' q H) as (A & B). split.
    + intros n. cbn [Nat.add descend]. rewrite St. apply A.
    + intros [|n] Hn; [reflexivity|]. cbn [descend]. rewrite St. apply B. lia.
Qed.

Lemma revisit_never_ends f s p j k q :
  (j < k)%nat ->
  posAfter f j s p = Some q -> posAfter f k s p = Some q ->
  forall fuel, descend f fuel s p = OutOfFuel.
Proof.
  intros Lt Hj Hk.
  replace k with (j + (k - j))%nat in Hk by lia.
  rewrite posAfter_add, Hj in Hk.
  destruct (posAfter_descend f s (k - j) q q Hk) as (A & B).
  assert (Q : forall fuel, descend f fuel s q = OutOfFuel).
  { intros fuel. induction fuel as [fuel IH] using lt_wf_ind.
    destruct (Nat.lt_ge_cases fuel (k - j)) as [L|Ge]; [now apply B|].
    replace fuel with ((k - j) + (fuel - (k - j)))%nat by lia.
    rewrite A. apply IH. lia. }
  destruct (posAfter_descend f s j p q Hj) as (A' & B').
  intros fuel. destruct (Nat.lt_ge_cases fuel j) as [L|Ge]; [now apply B'|].
  replace fuel with (j + (fuel - j))%nat by lia. rewrite A'. apply Q.
Qed.

Lemma strict_window_path f s m : forall p q,
  (0 < m)%nat ->
  (forall k q0 q', posAfter f k s p = Some q0 -> step f s q0 = Down q' ->
                   window f q' < window f q0) ->
  posAfter f m s p = Some q -> window f q < window f p.
Proof.
  induction m as [|m IH]; intros p q Hm St H; [lia|].
  cbn [posAfter] in H. destruct (step f s p) as [i|p'| |] eqn:Es; try discriminate.
  pose proof (St 0%nat p p' eq_refl Es) as L0.
  destruct m as [|m]; [cbn [posAfter] in H; injection H as <-; exact L0|].
  assert (L : window f q < window f p'); [|lia].
  apply (IH p' q ltac:(lia)); [|exact H].
  intros k q0 q' Hk Hq. apply (St (S k) q0 q'); [|exact Hq].
  cbn [posAfter]. rewrite Es. exact Hk.
Qed.

Lemma strict_window_neverTwice f s p :
  (forall k q q', posAfter f k s p = Some q -> step f s q = Down q' ->
                  window f q' < window f q) ->
  neverTwice f s p.
Proof.
  intros St j k q Lt Hj Hk.
  replace k with (j + (k - j))%nat in Hk by lia.
  rewrite posAfter_add, Hj in Hk.
  assert (L : window f q < window f q); [|lia].
  apply (strict_window_path f s (k - j) q q ltac:(lia)); [|exact Hk].
  intros k' q0 q' Hk' Hq. apply (St (j + k')%nat q0 q'); [|exact Hq].
  rewrite posAfter_add, Hj. exact Hk'.
Qed.

(** ** The model on [tagsFile] *)

Lemma tagsFile_accepted : accepted tagsFile (openReader tagsFile).
Proof. apply accepted_intro; vm_compute; reflexivity. Qed.

(** * The claims *)

(** C1, as the code has it.  [findRootNode] first looks for the magic at
    the start of the container: without it the container is rejected
    ("missing magic bytes at the start of file", latched), whatever lies at
    its tail.  With it, the head placement is tried first and, when it holds
    a valid root, is taken; only when it holds none is the tail placement
    tried, and a container that ends with a valid tail-placed root (last byte
    the root's arity, node valid, [cPtrMax] the container's length) is then
    accepted with that root. *)
Theorem findRootNode_placements (f : list byte) (r : Reader) :
  ReadSeeker r = Some f -> CompressedSize r = fileSize f -> 32 <= fileSize f ->
  (startsWithMagic f = false ->
   exists r', findRootNode r = (Some errMissingMagic, r')
              /\ err r' = Some errMissingMagic)
  /\ (startsWithMagic f = true -> headRoot f = true ->
      exists r', findRootNode r = (None, r')
                 /\ rootNodeCOffset r' = 0 /\ rootNodeArity r' = idx f 3
                 /\ decompressedSize r' = dPtrMax (nodeAt f 0))
  /\ (startsWithMagic f = true -> headRoot f = false -> tailRoot f = true ->
      exists r', findRootNode r = (None, r')
                 /\ rootNodeCOffset r' = tailOffset f
                 /\ rootNodeArity r' = tailArity f
                 /\ decompressedSize r' = dPtrMax (nodeAt f (tailOffset f))).
Proof.
  intros Hf Hs H32.
  destruct (findRootNode_at f r Hf Hs H32) as (Hno & Hhead & Htail).
  split; [exact Hno|]. split.
  - intros Mg Hd.
    destruct (Hhead Mg Hd) as (r' & F & _ & _ & _ & _ & O & A & D & _).
    exists r'. repeat split; assumption.
  - intros Mg Hd Tl.
    destruct (Htail Mg Hd Tl) as (r' & F & _ & _ & _ & _ & O & A & D & _).
    exists r'. repeat split; assumption.
Qed.

Lemma findRootNode_placements_witness :
  let f := tailFile in
  let r := newReader (Some f) (fileSize f) in
  ReadSeeker r = Some f /\ CompressedSize r = fileSize f /\ 32 <= fileSize f
  /\ startsWithMagic f = true /\ headRoot f = false /\ tailRoot f = true
  /\ exists r', findRootNode r = (None, r')
                /\ rootNodeCOffset r' = tailOffset f
                /\ rootNodeArity r' = tailArity f
                /\ decompressedSize r' = dPtrMax (nodeAt f (tailOffset f)).
Proof.
  intros f r.
  assert (H32 : 32 <= fileSize f) by (vm_compute; discriminate).
  assert (Mg : startsWithMagic f = true) by (vm_compute; reflexivity).
  assert (Hd : headRoot f = false) by (vm_compute; reflexivity).
  assert (Tl : tailRoot f = true) by (vm_compute; reflexivity).
  repeat match goal with |- _ /\ _ => split end; try reflexivity; try assumption.
  exact (proj2 (proj2 (findRootNode_placements f r eq_refl eq_refl H32)) Mg Hd Tl).
Defined.

(** C1 as stated fails: [tailFileNoMagic] does not start with the magic and
    ends with a valid tail-placed root, and root location rejects it. *)
Lemma tail_root_without_magic :
  ~ (forall f : list byte,
       32 <= fileSize f -> startsWithMagic f = false -> tailRoot f = true ->
       fst (findRootNode (newReader (Some f) (fileSize f))) = None).
Proof.
  intros H.
  specialize (H tailFileNoMagic).
  assert (H32 : 32 <= fileSize tailFileNoMagic) by (vm_compute; discriminate).
  assert (Mg : startsWithMagic tailFileNoMagic = false) by (vm_compute; reflexivity).
  assert (Tl : tailRoot tailFileNoMagic = true) by (vm_compute; reflexivity).
  specialize (H H32 Mg Tl).
  destruct (findRootNode_at tailFileNoMagic
              (newReader (Some tailFileNoMagic) (fileSize tailFileNoMagic))
              eq_refl eq_refl H32) as (Hno & _).
  destruct (Hno Mg) as (r' & F & _). rewrite F in H. discriminate H.
Qed.

(** C2 fails on the code.  On [corruptFile] no placement holds a valid root:
    the first [DecompressedSize] returns "missing index root node", but
    [findRootNode] returns that error without storing it in [r.err]; the
    second [DecompressedSize] returns 0 and nil, and [NextChunk] returns a
    chunk read from the node that failed validation. *)
Theorem missing_root_error_not_latched :
  let r0 := newReader (Some corruptFile) (fileSize corruptFile) in
  let '(_, e1, r1) := DecompressedSize r0 in
  let '(n2, e2, _) := DecompressedSize r1 in
  e1 = Some errMissingRootNode /\ err r1 = None
  /\ n2 = 0 /\ e2 = None
  /\ exists c r3, NextChunk 1 r1 = Done (c, None, r3)
                  /\ DRange c = mkRange 0 100.
Proof.
  vm_compute.
  repeat match goal with |- _ /\ _ => split end; try reflexivity.
  do 2 eexists. split; reflexivity.
Qed.

(** C3, as the code has it.  [loadAndValidate] returns nil only when
    [childCBias + cPtrMax] of the child is at most the parent's ceiling, so a
    step of the descent never enlarges the remaining CPtrMax window; it need
    not reduce it.  On a reader on an accepted container the descent ends,
    within [fileSize + 1] steps, exactly when it reaches no position (a node
    offset with its CBias and DBias) twice: a descent that reaches no
    position twice ends, as does in particular one in which every step
    strictly reduces the window, and a descent that comes back to a position
    never ends. *)
Theorem descent_window (f : list byte) :
  (forall off pc pv pm cb ds r r',
      loadAndValidate off pc pv pm cb ds r = (None, r') ->
      add64 cb (cPtrMax (currNode r')) <= pm)
  /\ (forall s p p',
        windowOK f p -> step f s p = Down p' ->
        windowOK f p' /\ window f p' <= window f p)
  /\ (forall r,
        accepted f r ->
        neverTwice f (seekPosition r) (rootPos r) ->
        resolveSeekPosition (S (Z.to_nat (fileSize f))) r <> OutOfFuel)
  /\ (forall s p,
        (forall k q q', posAfter f k s p = Some q -> step f s q = Down q' ->
                        window f q' < window f q) ->
        neverTwice f s p)
  /\ (forall r j k q,
        accepted f r -> (j < k)%nat ->
        posAfter f j (seekPosition r) (rootPos r) = Some q ->
        posAfter f k (seekPosition r) (rootPos r) = Some q ->
        forall fuel, resolveSeekPosition fuel r = OutOfFuel).
Proof.
  split; [exact loadAndValidate_ceiling|]. split; [exact (step_window f)|].
  split; [|split; [exact (strict_window_neverTwice f)|]].
  - intros r A NT.
    destruct (accepted_window f r A) as (W & _).
    destruct (accepted_rootPos f r A) as (G & _).
    assert (O : 0 <= p_off (rootPos r) <= fileSize f).
    { cbn [rootPos p_off]. pose proof (acc_offset f r A). pose proof (acc_fits f r A).
      pose proof (acc_arity f r A).
      pose proof (idx_range (nodeAt f (rootNodeCOffset r)) 3) as R.
      fold (arity (nodeAt f (rootNodeCOffset r))) in R. unfold nodeSize in *. lia. }
    pose proof (descend_ends f (seekPosition r) (rootPos r) G W O NT) as D.
    pose proof (resolveSeekPosition_descend f (S (Z.to_nat (fileSize f))) r A) as R.
    destruct (descend f _ (seekPosition r) (rootPos r)) as [[[q i]|]| |].
    + destruct R as (r' & -> & _). discriminate.
    + destruct R as (r' & -> & _). discriminate.
    + rewrite R. discriminate.
    + contradiction.
  - intros r j k q A Lt Hj Hk fuel.
    pose proof (revisit_never_ends f (seekPosition r) (rootPos r) j k q Lt Hj Hk fuel)
      as D.
    pose proof (resolveSeekPosition_descend f fuel r A) as R.
    rewrite D in R. exact R.
Qed.

Lemma descent_window_witness :
  let f := mixedFile in
  let r := snd (SeekToChunkContaining 150 (openReader f)) in
  accepted f r
  /\ posAfter f 1 (seekPosition r) (rootPos r) = Some (mkPos 48 0 100)
  /\ window f (mkPos 48 0 100) = window f (rootPos r)
  /\ neverTwice f (seekPosition r) (rootPos r)
  /\ resolveSeekPosition (S (Z.to_nat (fileSize f))) r <> OutOfFuel.
Proof.
  intros f r.
  assert (A : accepted f r) by (apply accepted_intro; vm_compute; reflexivity).
  assert (NT : neverTwice f (seekPosition r) (rootPos r)).
  { intros j k q Lt Hj Hk.
    destruct j as [|[|j]]; destruct k as [|[|k]]; try lia;
      vm_compute in Hj; vm_compute in Hk; congruence. }
  split; [exact A|]. split; [vm_compute; reflexivity|].
  split; [vm_compute; reflexivity|]. split; [exact NT|].
  exact (proj1 (proj2 (proj2 (descent_window f))) r A NT).
Defined.

(** C3 as stated fails: [initialize] accepts [loopFile], whose root has a
    branch to the root itself with the same window, and no amount of fuel
    lets [NextChunk] return on it. *)
Lemma descent_never_ends :
  ~ (forall f : list byte,
       acceptedFile f ->
       exists fuel res, NextChunk fuel (openReader f) = Done res).
Proof.
  intros H.
  destruct (H loopFile ltac:(vm_compute; reflexivity)) as (fuel & res & N).
  rewrite loopFile_NextChunk in N. discriminate N.
Qed.

(** C4, as the code has it.  On a reader on an accepted container, for a
    position [d] within the decompressed size, [SeekToChunkContaining d]
    returns nil, and the [NextChunk] that follows does what the descent to
    [d] does: when the descent reaches a leaf, [NextChunk] returns, without
    error, a chunk [c] with [c.DRange.low <= d < c.DRange.high]; when the
    descent meets a child that [loadAndValidate] refuses, [NextChunk] returns
    [errInvalidIndexNode], latched; when the descent does not end, neither
    does [NextChunk].  The panic of the slot search is not reached and
    [io.EOF] is not returned. *)
Theorem seek_then_NextChunk (f : list byte) (r : Reader) (d : Z) :
  accepted f r ->
  0 <= d < decompressedSize r ->
  exists r1,
    SeekToChunkContaining d r = (None, r1) /\
    forall n,
      match resolveSeekPosition n (set_needToResolveSeekPosition false r1) with
      | Done (None, _) =>
          exists c r2, NextChunk n r1 = Done (c, None, r2)
                       /\ low (DRange c) <= d < high (DRange c)
      | Done (Some e, r2) =>
          NextChunk n r1 = Done (noChunk, Some e, r2)
          /\ e = errInvalidIndexNode /\ err r2 = Some e
      | Panic => False
      | OutOfFuel => NextChunk n r1 = OutOfFuel
      end.
Proof.
  intros A Hd.
  unfold SeekToChunkContaining. rewrite (initialize_accepted f r A).
  destruct (Z.ltb_spec d 0); [lia|].
  eexists. split; [reflexivity|].
  set (r1 := set_seekPosition d (set_needToResolveSeekPosition true r)).
  assert (A1 : accepted f r1).
  { apply (accepted_sameFile f r); [exact A|constructor; reflexivity]. }
  intros n.
  pose proof (nextChunk_after_seek f r1 d A1 eq_refl eq_refl Hd n) as N.
  destruct (resolveSeekPosition n (set_needToResolveSeekPosition false r1))
    as [[[e|] r2]| |]; try exact N.
  destruct N as (c & r3 & N & C & _). now exists c, r3.
Qed.

Lemma seek_then_NextChunk_witness :
  let f := twoLevelFile in
  let r := openReader f in
  accepted f r /\ 0 <= 600 < decompressedSize r
  /\ exists r1,
       SeekToChunkContaining 600 r = (None, r1) /\
       forall n,
         match resolveSeekPosition n (set_needToResolveSeekPosition false r1) with
         | Done (None, _) =>
             exists c r2, NextChunk n r1 = Done (c, None, r2)
                          /\ low (DRange c) <= 600 < high (DRange c)
         | Done (Some e, r2) =>
             NextChunk n r1 = Done (noChunk, Some e, r2)
             /\ e = errInvalidIndexNode /\ err r2 = Some e
         | Panic => False
         | OutOfFuel => NextChunk n r1 = OutOfFuel
         end.
Proof.
  intros f r.
  assert (D : 0 <= 600 < decompressedSize r).
  { replace (decompressedSize r) with 900 by (vm_compute; reflexivity). lia. }
  split; [exact twoLevelFile_accepted|]. split; [exact D|].
  exact (seek_then_NextChunk f r 600 twoLevelFile_accepted D).
Defined.

(** C4 as stated fails: [initialize] accepts [badChildFile], whose root is
    valid, and [NextChunk] after [SeekToChunkContaining 0] returns
    [errInvalidIndexNode], because the branch of the root leads to bytes that
    are no node. *)
Lemma root_accepted_child_refused :
  ~ (forall (f : list byte) (d : Z),
       acceptedFile f -> 0 <= d < decompressedSize (openReader f) ->
       exists r1 fuel c r2,
         SeekToChunkContaining d (openReader f) = (None, r1)
         /\ NextChunk fuel r1 = Done (c, None, r2)
         /\ low (DRange c) <= d < high (DRange c)).
Proof.
  intros H.
  assert (A : acceptedFile badChildFile) by (vm_compute; reflexivity).
  assert (D : 0 <= 0 < decompressedSize (openReader badChildFile)).
  { replace (decompressedSize (openReader badChildFile)) with 100
      by (vm_compute; reflexivity). lia. }
  destruct (H badChildFile 0 A D) as (r1 & fuel & c & r2 & S & N & _).
  apply (f_equal snd) in S. cbn [snd] in S. subst r1.
  destruct fuel as [|fuel]; vm_compute in N; discriminate N.
Qed.

(** C5 fails on the code.  [initialize] accepts [staleRootFile]: the bytes
    loaded for the tail placement (arity 1, 32 bytes) carry the arity byte 4,
    and [valid] reads the 80 bytes of an arity 4 node, of which the last 48
    are left in the buffer from the head placement.  The decompressed size is
    40.  Reading from offset 0, the first descent loads the child at offset
    80 over those bytes; the root is then reloaded without validation, its
    fourth DPtr is now 50, and the chunks returned up to [io.EOF] cover
    [0, 50), not [0, 40). *)
Theorem stale_root_breaks_tiling :
  let r := openReader staleRootFile in
  acceptedFile staleRootFile /\ decompressedSize r = 40
  /\ match readChunks 6 2 (snd (SeekToChunkContaining 0 r)) with
     | Done (cs, e, r') =>
         e = io_EOF /\ err r' = None
         /\ map DRange cs
            = [mkRange 0 5; mkRange 5 10; mkRange 10 20; mkRange 20 30; mkRange 30 50]
     | _ => False
     end.
Proof.
  split; [vm_compute; reflexivity|]. split; [vm_compute; reflexivity|].
  vm_compute. repeat split.
Qed.

(** C6.  After [SeekToChunkContaining d] has returned nil with [d] at or
    beyond the decompressed size, [NextChunk] returns [io.EOF] in the first
    round of its loop and leaves the reader as it was: no node is loaded and
    the sticky error stays nil.  The end of the stream is not latched: on an
    accepted container, [SeekToChunkContaining d'] on the reader that
    [NextChunk] left, with [d'] within the decompressed size, returns nil,
    and when the descent for [d'] ends in a leaf [NextChunk] then returns,
    without error, the chunk that holds [d']. *)
Theorem NextChunk_past_end (r : Reader) (d : Z) (r1 : Reader) (fuel : nat) :
  SeekToChunkContaining d r = (None, r1) ->
  d >= decompressedSize r1 ->
  NextChunk (S fuel) r1 = Done (noChunk, Some io_EOF, r1) /\ err r1 = None
  /\ forall f d' n q i,
       accepted f r1 -> 0 <= d' < decompressedSize r1 ->
       descend f (S n) d' (rootPos r1) = Done (Some (q, i)) ->
       exists r2 c r3,
         SeekToChunkContaining d' r1 = (None, r2)
         /\ NextChunk (S n) r2 = Done (c, None, r3)
         /\ low (DRange c) <= d' < high (DRange c)
         /\ err r3 = None.
Proof.
  unfold SeekToChunkContaining at 1, latch. intros H Hd. cbv zeta in H.
  destruct (initialize r) as [[e0|] r0] eqn:E; [discriminate|].
  apply initialize_fields in E. destruct E as ((Er & Ei) & _).
  destruct (d <? 0); [discriminate|]. injection H as <-.
  split; [|split; [exact Er|]].
  - unfold NextChunk, initialize. cbn [err initialized set_seekPosition
      set_needToResolveSeekPosition]. rewrite Er, Ei.
    cbn [nextChunkLoop needToResolveSeekPosition seekPosition decompressedSize
         set_seekPosition set_needToResolveSeekPosition] in *.
    destruct (Z.geb_spec d (decompressedSize r0)); [reflexivity|lia].
  - set (r1 := set_seekPosition d (set_needToResolveSeekPosition true r0)) in *.
    intros f d' n q i A Hd' ED.
    set (r2 := set_seekPosition d' (set_needToResolveSeekPosition true r1)).
    assert (A2 : accepted f r2).
    { apply (accepted_sameFile f r1); [exact A|constructor; reflexivity]. }
    destruct (nextChunkLoop_at_leaf f (S n) n r2 q i A2 eq_refl Hd' ED)
      as (r3 & N & SF & _).
    destruct (accepted_rootPos f r1 A) as (G0 & L0 & _).
    destruct (descend_leaf f (S n) d' (rootPos r1) q i G0 ltac:(lia) ED)
      as (_ & _ & _ & _ & _ & Si & _).
    exists r2, (chunk (nodeAt f (p_off q)) i (p_cBias q) (p_dBias q)), r3.
    split; [|split; [|split]].
    + unfold SeekToChunkContaining. rewrite (initialize_accepted f r1 A).
      destruct (Z.ltb_spec d' 0); [lia|reflexivity].
    + unfold NextChunk. rewrite (initialize_accepted f r2 A2). exact N.
    + exact Si.
    + rewrite (sf_err _ _ SF). exact (acc_err f r2 A2).
Qed.

Lemma NextChunk_past_end_witness :
  let f := twoLevelFile in
  let r := openReader f in
  let r1 := snd (SeekToChunkContaining 900 r) in
  SeekToChunkContaining 900 r = (None, r1) /\ 900 >= decompressedSize r1
  /\ NextChunk 1 r1 = Done (noChunk, Some io_EOF, r1) /\ err r1 = None
  /\ accepted f r1 /\ 0 <= 600 < decompressedSize r1
  /\ descend f 3 600 (rootPos r1) = Done (Some (mkPos 96 0 500, 2))
  /\ exists r2 c r3,
       SeekToChunkContaining 600 r1 = (None, r2)
       /\ NextChunk 3 r2 = Done (c, None, r3)
       /\ low (DRange c) <= 600 < high (DRange c)
       /\ err r3 = None.
Proof.
  intros f r r1.
  assert (S : SeekToChunkContaining 900 r = (None, r1)) by (vm_compute; reflexivity).
  assert (D : 900 >= decompressedSize r1).
  { replace (decompressedSize r1) with 900 by (vm_compute; reflexivity). lia. }
  assert (A : accepted f r1) by (apply accepted_intro; vm_compute; reflexivity).
  assert (D' : 0 <= 600 < decompressedSize r1).
  { replace (decompressedSize r1) with 900 by (vm_compute; reflexivity). lia. }
  assert (ED : descend f 3 600 (rootPos r1) = Done (Some (mkPos 96 0 500, 2)))
    by (vm_compute; reflexivity).
  destruct (NextChunk_past_end r 900 r1 0 S D) as (N & E & Later).
  split; [exact S|]. split; [exact D|]. split; [exact N|]. split; [exact E|].
  split; [exact A|]. split; [exact D'|]. split; [exact ED|].
  exact (Later f 600 2%nat (mkPos 96 0 500) 2 A D' ED).
Defined.

(** After the end of the stream was reported, a seek below the decompressed
    size makes [NextChunk] return a chunk again. *)
Example chunk_after_end_of_stream :
  let r1 := snd (SeekToChunkContaining 900 (openReader twoLevelFile)) in
  match NextChunk 3 r1 with
  | Done (_, e, r2) =>
      e = Some io_EOF
      /\ match NextChunk 3 (snd (SeekToChunkContaining 600 r2)) with
         | Done (c, e', _) => e' = None /\ DRange c = mkRange 600 900
         | _ => False
         end
  | _ => False
  end.
Proof. vm_compute. repeat split. Qed.

(** C7.  A child node that lies within the container and passes [valid],
    but whose codec is not a bitwise subset of the parent's, or whose version
    exceeds the parent's, or whose [childCBias + cPtrMax] exceeds the
    parent's CSpace ceiling, or whose [dPtrMax] differs from the DSpace size
    the parent declares for the slot, makes [loadAndValidate] return
    [errInvalidIndexNode] and latch it.  ([childCBias] is a CSpace offset,
    far from the ends of int64.) *)
Theorem loadAndValidate_rejects_mismatch (f : list byte) (r : Reader)
    (cOffset : Z) (parentCodec : Codec) (parentVersion parentCOffMax : Z)
    (childCBias childDSize : Z) :
  ReadSeeker r = Some f -> CompressedSize r = fileSize f ->
  0 <= cOffset ->
  cOffset + nodeSize (arity (nodeAt f cOffset)) <= fileSize f ->
  valid (nodeAt f cOffset) = true ->
  0 <= childCBias < 2 ^ 62 ->
  (bitwiseSubset parentCodec (codec (nodeAt f cOffset)) = false
   \/ parentVersion < version (nodeAt f cOffset)
   \/ parentCOffMax < childCBias + cPtrMax (nodeAt f cOffset)
   \/ childDSize <> dPtrMax (nodeAt f cOffset)) ->
  exists r',
    loadAndValidate cOffset parentCodec parentVersion parentCOffMax
      childCBias childDSize r = (Some errInvalidIndexNode, r')
    /\ err r' = Some errInvalidIndexNode.
Proof.
  intros Hf Hs Ho Hfit V Hcb Bad.
  pose proof (loadAndValidate_childOK f r cOffset parentCodec parentVersion
                parentCOffMax childCBias childDSize Hf Hs) as L.
  destruct (childOK f cOffset parentCodec parentVersion parentCOffMax
              childCBias childDSize) eqn:E; [exfalso|exact L].
  apply childOK_true in E.
  destruct E as (_ & D & C & _ & _ & Sb & Vr).
  pose proof (u48LE_range (slice_from (nodeAt f cOffset)
                             (16 * idx (nodeAt f cOffset) 3 + 8))) as R.
  fold (cPtrMax (nodeAt f cOffset)) in R.
  rewrite add64_small in C by lia.
  destruct Bad as [B|[B|[B|B]]]; try congruence; lia.
Qed.

Lemma loadAndValidate_rejects_mismatch_witness :
  let f := twoLevelFile in
  let r := openReader f in
  ReadSeeker r = Some f /\ CompressedSize r = fileSize f
  /\ 0 <= 48 /\ 48 + nodeSize (arity (nodeAt f 48)) <= fileSize f
  /\ valid (nodeAt f 48) = true /\ 0 <= 0 < 2 ^ 62
  /\ 499 <> dPtrMax (nodeAt f 48)
  /\ exists r',
       loadAndValidate 48 1 1 176 0 499 r = (Some errInvalidIndexNode, r')
       /\ err r' = Some errInvalidIndexNode.
Proof.
  intros f r.
  assert (Hf : ReadSeeker r = Some f) by (vm_compute; reflexivity).
  assert (Hs : CompressedSize r = fileSize f) by (vm_compute; reflexivity).
  assert (Hfit : 48 + nodeSize (arity (nodeAt f 48)) <= fileSize f)
    by (vm_compute; discriminate).
  assert (V : valid (nodeAt f 48) = true) by (vm_compute; reflexivity).
  assert (Hd : 499 <> dPtrMax (nodeAt f 48)) by (vm_compute; discriminate).
  repeat match goal with |- _ /\ _ => split end; try assumption; try lia.
  apply (loadAndValidate_rejects_mismatch f r 48 1 1 176 0 499 Hf Hs);
    [lia|assumption|assumption|lia|do 3 right; exact Hd].
Defined.

(** C8.  On a node that [valid] accepts, under the precondition
    [dBias <= d < dBias + dPtrMax] (the bound being an int64 like every
    quantity of the source), [findChunkContaining d dBias] returns a slot:
    its panic is not reached.  The slot [i] it returns satisfies
    [d < dOff (i+1) dBias], and no smaller slot does. *)
Theorem findChunkContaining_smallest (b : rNode) (d dBias : Z) :
  valid b = true ->
  - 2 ^ 63 <= dBias -> dBias + dPtrMax b < 2 ^ 63 ->
  dBias <= d < dBias + dPtrMax b ->
  exists i, findChunkContaining b d dBias = Some i /\
            0 <= i < arity b /\
            dOff b (i + 1) dBias > d /\
            forall j, 0 <= j < i -> ~ (dOff b (j + 1) dBias > d).
Proof.
  intros V Hlo Hhi Hd.
  pose proof (si_arity b (valid_structuralInvariants b V)) as HA.
  destruct (findChunkContaining_total b d dBias) as [i Hi]; [lia| |].
  - rewrite dOff_arity by lia. rewrite add64_small; lia.
  - exists i. split; [exact Hi|].
    destruct (findChunkContaining_some _ _ _ _ Hi) as (R & L & M).
    repeat split; try lia.
    intros j Hj. specialize (M j Hj). lia.
Qed.

Lemma findChunkContaining_smallest_witness :
  let b := nodeAt twoLevelFile 96 in
  valid b = true /\ - 2 ^ 63 <= 500 /\ 500 + dPtrMax b < 2 ^ 63
  /\ 500 <= 650 < 500 + dPtrMax b
  /\ exists i, findChunkContaining b 650 500 = Some i /\
               0 <= i < arity b /\
               dOff b (i + 1) 500 > 650 /\
               forall j, 0 <= j < i -> ~ (dOff b (j + 1) 500 > 650).
Proof.
  intros b.
  assert (V : valid b = true) by (vm_compute; reflexivity).
  assert (D : dPtrMax b = 400) by (vm_compute; reflexivity).
  repeat match goal with |- _ /\ _ => split end; try assumption; try lia.
  apply (findChunkContaining_smallest b 650 500 V); lia.
Defined.

(** C9.  [valid] returns true only on a node that satisfies every structural
    invariant of the format; a node whose duplicate arity byte at offset
    16A+15 differs from the arity byte at offset 3 is refused, and so is a
    node whose stored 16 bit checksum (bytes 4 and 5, little endian) differs
    from the CRC-32/IEEE of bytes [6, 16A+16) folded by XOR to 16 bits. *)
Theorem valid_enforces_structure (b : rNode) :
  (valid b = true -> structuralInvariants b) /\
  (idx b (16 * arity b + 15) <> idx b 3 -> valid b = false) /\
  (idx b 4 + 256 * idx b 5 <>
     (let c := ChecksumIEEE (slice b 6 (16 * arity b + 16)) in
      Z.lxor c (Z.shiftr c 16)) mod 2 ^ 16 ->
   valid b = false).
Proof.
  split; [apply valid_structuralInvariants|].
  split; intros H; destruct (valid b) eqn:V; try reflexivity; exfalso;
    apply valid_structuralInvariants in V.
  - apply H. pose proof (si_arity_dup b V) as D. unfold nodeSize, arity in *.
    replace (16 * idx b 3 + 15) with (16 * idx b 3 + 16 - 1) by lia. exact D.
  - apply H. exact (si_checksum b V).
Qed.

Lemma valid_enforces_structure_witness :
  valid (nodeAt flatFile 0) = true /\ structuralInvariants (nodeAt flatFile 0)
  /\ valid corruptFile = false.
Proof.
  assert (V : valid (nodeAt flatFile 0) = true) by (vm_compute; reflexivity).
  split; [exact V|].
  split; [exact (proj1 (valid_enforces_structure (nodeAt flatFile 0)) V)|].
  apply (proj2 (proj2 (valid_enforces_structure corruptFile))).
  vm_compute. discriminate.
Defined.

(** C10.  [u48LE] of a slice of eight bytes or more lies in [0, 2^48).
    Hence whatever [DecompressedSize] returns without error, on any reader a
    caller can hold, lies in [0, 2^48); and every pointer read from a node
    ([dPtrMax], [cPtrMax], the DPtr and CPtr table entries) is
    non-negative. *)
Theorem u48LE_bounds :
  (forall b : list byte, (8 <= length b)%nat -> 0 <= u48LE b < 2 ^ 48)
  /\ (forall r n r', reachable r -> DecompressedSize r = (n, None, r') ->
                     0 <= n < 2 ^ 48)
  /\ (forall (b : rNode) (i : Z),
        0 <= dPtrMax b /\ 0 <= cPtrMax b /\ 0 <= DPtr b i /\ 0 <= CPtr b i).
Proof.
  split; [intros b _; apply u48LE_range|]. split.
  - intros r n r' R H.
    pose proof (reachable_decompressedSize _ (reach_DecompressedSize _ _ _ _ R H)) as B.
    unfold DecompressedSize in H.
    destruct (initialize r) as [[e0|] r0]; [discriminate|].
    injection H as <- <-. exact B.
  - intros b i. unfold dPtrMax, cPtrMax, DPtr, CPtr.
    repeat split; apply u48LE_range.
Qed.

Lemma u48LE_bounds_witness :
  0 <= u48LE (bytes_of [255; 255; 255; 255; 255; 255; 255; 255]) < 2 ^ 48
  /\ (let '(n, _, _) := DecompressedSize (newReader (Some flatFile) (fileSize flatFile)) in
      0 <= n < 2 ^ 48).
Proof.
  destruct u48LE_bounds as (U & S & _).
  split; [apply U; vm_compute; lia|].
  destruct (DecompressedSize (newReader (Some flatFile) (fileSize flatFile)))
    as [[n e] r'] eqn:E.
  assert (Ee : e = None).
  { apply (f_equal (fun x => snd (fst x))) in E. cbn [fst snd] in E.
    rewrite <- E. vm_compute. reflexivity. }
  subst e. exact (S _ n r' (reach_new _ _) E).
Defined.

(** * Further properties of the reader *)

(** Reading an accepted container in order.  On a reader on an accepted
    container, the chunks that [NextChunk] returns after
    [SeekToChunkContaining 0], up to [io.EOF], have [DRange]s that are
    non-empty, lie end to end from 0 to the decompressed size in the order
    returned, do not overlap, and cover exactly [0, decompressedSize). *)
Theorem chunks_tile_decompressed_space (f : list byte) (r r1 r2 : Reader)
    (n fuel : nat) (cs : list Chunk) :
  accepted f r ->
  SeekToChunkContaining 0 r = (None, r1) ->
  readChunks n fuel r1 = Done (cs, io_EOF, r2) ->
  tiles (map DRange cs) 0 (decompressedSize r)
  /\ Forall (fun c => low (DRange c) < high (DRange c)) cs
  /\ ForallOrdPairs (fun c1 c2 => high (DRange c1) <= low (DRange c2)) cs
  /\ forall x, 0 <= x < decompressedSize r <->
               exists c, In c cs /\ low (DRange c) <= x < high (DRange c).
Proof.
  intros A S R.
  unfold SeekToChunkContaining in S. rewrite (initialize_accepted f r A) in S.
  change (0 <? 0) with false in S. cbv iota in S. injection S as <-.
  set (r1 := set_seekPosition 0 (set_needToResolveSeekPosition true r)) in *.
  assert (T : tilingInv f r1).
  { split; [apply (accepted_sameFile f r); [exact A|constructor; reflexivity]|].
    destruct (accepted_rootPos f r A) as (G0 & L0 & H0).
    pose proof (good_arity f _ G0) as HA.
    pose proof (good_slot_order f _ G0 0 ltac:(lia)) as O.
    unfold nodeLow in O. cbn [rootPos p_dBias] in O.
    split; [cbn; rewrite <- H0; lia|].
    left. split; [reflexivity|]. intros fuel' x q i Hx. cbn in Hx. lia. }
  pose proof (readChunks_tiles f fuel n r1 cs r2 T R) as Ti.
  change (seekPosition r1) with 0 in Ti.
  change (decompressedSize r1) with (decompressedSize r) in Ti.
  split; [exact Ti|].
  split; [|split].
  - pose proof (tiles_nonempty _ _ _ Ti) as F.
    rewrite Forall_map in F. exact F.
  - pose proof (tiles_ordered _ _ _ Ti) as F. clear - F.
    induction cs as [|c cs IH]; [constructor|].
    cbn [map] in F. inversion F as [|a l Fa Fl]; subst.
    constructor; [rewrite Forall_map in Fa; exact Fa|exact (IH Fl)].
  - intros x. rewrite (tiles_cover _ _ _ Ti x). split.
    + intros (rg & In' & Hx). apply in_map_iff in In'.
      destruct In' as (c & <- & Inc). now exists c.
    + intros (c & Inc & Hx). exists (DRange c). split; [now apply in_map|exact Hx].
Qed.

Lemma chunks_tile_decompressed_space_witness :
  let f := twoLevelFile in
  let r := openReader f in
  let r1 := snd (SeekToChunkContaining 0 r) in
  accepted f r /\ SeekToChunkContaining 0 r = (None, r1)
  /\ exists cs r2,
       readChunks 6 3 r1 = Done (cs, io_EOF, r2)
       /\ map DRange cs
          = [mkRange 0 200; mkRange 200 500; mkRange 500 600; mkRange 600 900]
       /\ tiles (map DRange cs) 0 (decompressedSize r).
Proof.
  intros f r r1.
  assert (S : SeekToChunkContaining 0 r = (None, r1)) by (vm_compute; reflexivity).
  split; [exact twoLevelFile_accepted|]. split; [exact S|].
  destruct (readChunks 6 3 r1) as [[[cs e] r2]| |] eqn:R;
    [|exfalso; apply (f_equal (fun o => match o with Done _ => true | _ => false end)) in R;
      vm_compute in R; discriminate R..].
  assert (E : e = io_EOF).
  { apply (f_equal (fun o => match o with Done (_, e0, _) => Some e0 | _ => None end)) in R.
    vm_compute in R. injection R as R. now symmetry. }
  subst e. exists cs, r2. split; [reflexivity|].
  split; [|exact (proj1 (chunks_tile_decompressed_space f r r1 r2 6 3 cs
                            twoLevelFile_accepted S R))].
  apply (f_equal (fun o => match o with
                           | Done (cs0, _, _) => map DRange cs0
                           | _ => []
                           end)) in R.
  vm_compute in R. now symmetry.
Defined.

(** The sticky error.  A reader whose [err] is set returns that error from
    every public method and stays as it is.  Every error a public method
    returns is stored in [err], except [io.EOF] from [NextChunk] and the
    "missing index root node" error of [findRootNode]. *)
Theorem errors_latched :
  (forall r e, err r = Some e ->
     DecompressedSize r = (0, Some e, r)
     /\ (forall d, SeekToChunkContaining d r = (Some e, r))
     /\ (forall fuel, NextChunk fuel r = Done (noChunk, Some e, r)))
  /\ (forall r n e r', DecompressedSize r = (n, Some e, r') ->
        err r' = Some e \/ e = errMissingRootNode)
  /\ (forall r d e r', SeekToChunkContaining d r = (Some e, r') ->
        err r' = Some e \/ e = errMissingRootNode)
  /\ (forall r fuel c e r', NextChunk fuel r = Done (c, Some e, r') ->
        err r' = Some e \/ e = errMissingRootNode \/ e = io_EOF).
Proof.
  split; [|split; [|split]].
  - intros r e E.
    unfold DecompressedSize, SeekToChunkContaining, NextChunk, initialize.
    rewrite E. repeat split.
  - intros r n e r' H. unfold DecompressedSize in H.
    destruct (initialize r) as [[e0|] r0] eqn:I; [|discriminate].
    injection H as _ <- <-. apply initialize_latches in I. tauto.
  - intros r d e r' H. unfold SeekToChunkContaining, latch in H. cbv zeta in H.
    destruct (initialize r) as [[e0|] r0] eqn:I.
    + injection H as <- <-. apply initialize_latches in I. tauto.
    + destruct (d <? 0); [|discriminate]. injection H as <- <-. now left.
  - intros r fuel c e r' H. unfold NextChunk in H.
    destruct (initialize r) as [[e0|] r0] eqn:I.
    + injection H as _ <- <-. apply initialize_latches in I. tauto.
    + apply nextChunkLoop_latches in H. tauto.
Qed.

(** What [initialize] accepts.  On a new reader for a container of at least
    32 bytes that starts with the magic and holds a valid version 1 root at
    the head or, when the head holds none, at the tail, [initialize] returns
    nil and leaves a reader on an accepted container, ready to resolve
    position 0. *)
Theorem initialize_accepts_container (f : list byte) (off : Z) :
  32 <= fileSize f -> startsWithMagic f = true ->
  (headRoot f = true /\ off = 0
   \/ headRoot f = false /\ tailRoot f = true /\ off = tailOffset f) ->
  version (nodeAt f off) = 1 ->
  acceptedFile f /\ accepted f (openReader f)
  /\ rootNodeCOffset (openReader f) = off
  /\ decompressedSize (openReader f) = dPtrMax (nodeAt f off).
Proof.
  intros H32 Mg Hoff Hv.
  destruct (initialize_accepts f H32 Mg off Hoff Hv) as (r & I & A & O & _).
  unfold acceptedFile, openReader. rewrite I. cbn [fst snd].
  repeat match goal with |- _ /\ _ => split end; try assumption; try reflexivity.
  rewrite <- O. symmetry. exact (acc_dPtrMax f r A).
Qed.

Lemma initialize_accepts_container_witness :
  let f := tailFile in
  32 <= fileSize f /\ startsWithMagic f = true
  /\ headRoot f = false /\ tailRoot f = true
  /\ version (nodeAt f (tailOffset f)) = 1
  /\ acceptedFile f /\ accepted f (openReader f)
  /\ rootNodeCOffset (openReader f) = tailOffset f
  /\ decompressedSize (openReader f) = dPtrMax (nodeAt f (tailOffset f)).
Proof.
  intros f.
  assert (H32 : 32 <= fileSize f) by (vm_compute; discriminate).
  assert (Mg : startsWithMagic f = true) by (vm_compute; reflexivity).
  assert (Hd : headRoot f = false) by (vm_compute; reflexivity).
  assert (Tl : tailRoot f = true) by (vm_compute; reflexivity).
  assert (Hv : version (nodeAt f (tailOffset f)) = 1) by (vm_compute; reflexivity).
  repeat match goal with |- _ /\ _ => split end; try assumption;
    apply (initialize_accepts_container f (tailOffset f) H32 Mg); try assumption;
    right; repeat split; assumption.
Defined.

(** * Further properties: nodes *)

(** Little-endian decoding.  On a slice of eight bytes or more, [u48LE] is
    the number whose base 256 digits, lowest first, are the first six bytes
    of the slice; the seventh and the eighth byte are read and masked
    away. *)
Theorem u48LE_little_endian (b : list byte) :
  (8 <= length b)%nat ->
  u48LE b = idx b 0 + 2 ^ 8 * idx b 1 + 2 ^ 16 * idx b 2 + 2 ^ 24 * idx b 3
            + 2 ^ 32 * idx b 4 + 2 ^ 40 * idx b 5.
Proof.
  intros _. unfold u48LE.
  pose proof (idx_range b 0). pose proof (idx_range b 1). pose proof (idx_range b 2).
  pose proof (idx_range b 3). pose proof (idx_range b 4). pose proof (idx_range b 5).
  pose proof (idx_range b 6). pose proof (idx_range b 7).
  rewrite (lor_shiftl_add (idx b 0) (idx b 1) 8) by lia.
  rewrite (lor_shiftl_add _ (idx b 2) 16) by lia.
  rewrite (lor_shiftl_add _ (idx b 3) 24) by lia.
  rewrite (lor_shiftl_add _ (idx b 4) 32) by lia.
  rewrite (lor_shiftl_add _ (idx b 5) 40) by lia.
  rewrite (lor_shiftl_add _ (idx b 6) 48) by lia.
  rewrite (lor_shiftl_add _ (idx b 7) 56) by lia.
  change 0xFFFFFFFFFFFF with (Z.ones 48). rewrite Z.land_ones by lia.
  set (lo := idx b 0 + 2 ^ 8 * idx b 1 + 2 ^ 16 * idx b 2 + 2 ^ 24 * idx b 3
             + 2 ^ 32 * idx b 4 + 2 ^ 40 * idx b 5).
  replace (idx b 0 + idx b 1 * 2 ^ 8 + idx b 2 * 2 ^ 16 + idx b 3 * 2 ^ 24
           + idx b 4 * 2 ^ 32 + idx b 5 * 2 ^ 40 + idx b 6 * 2 ^ 48 + idx b 7 * 2 ^ 56)
    with (lo + (idx b 6 + 2 ^ 8 * idx b 7) * 2 ^ 48) by (unfold lo; lia).
  rewrite Z.mod_add by lia. apply Z.mod_small. unfold lo. lia.
Qed.

Lemma u48LE_little_endian_witness :
  let b := bytes_of [0x21; 0x43; 0x65; 0x87; 0xA9; 0xCB; 0xED; 0xFF] in
  (8 <= length b)%nat /\ u48LE b = 0xCBA987654321.
Proof.
  intros b.
  assert (L : (8 <= length b)%nat) by (vm_compute; lia).
  split; [exact L|].
  rewrite (u48LE_little_endian b L). vm_compute. reflexivity.
Defined.

(** [bitwiseSubset outer inner] holds exactly when every 1-bit of [inner] is
    a 1-bit of [outer], as its comment in the source says.  It orders the
    codecs: it is reflexive, transitive and antisymmetric, and the codec 0 is
    below every codec. *)
Theorem bitwiseSubset_order :
  (forall outer inner,
      bitwiseSubset outer inner = true <->
      forall n, Z.testbit inner n = true -> Z.testbit outer n = true)
  /\ (forall c, bitwiseSubset c c = true)
  /\ (forall a b c, bitwiseSubset a b = true -> bitwiseSubset b c = true ->
                    bitwiseSubset a c = true)
  /\ (forall a b, bitwiseSubset a b = true -> bitwiseSubset b a = true -> a = b)
  /\ (forall c, bitwiseSubset c 0 = true).
Proof.
  split; [exact bitwiseSubset_spec|]. split; [exact bitwiseSubset_refl|].
  split; [exact bitwiseSubset_trans|]. split; [exact bitwiseSubset_antisym|].
  intros c. apply bitwiseSubset_spec. intros n H. rewrite Z.bits_0 in H. discriminate H.
Qed.

(** [valid] accepts exactly the nodes that satisfy the structural
    invariants: the magic, an arity in [1, 255] and its duplicate in the last
    byte, zero reserved bytes, no TTag in [0xC0, 0xFE), a non-zero codec and
    version, DPtr values that do not decrease, no CPtr above CPtrMax, and the
    folded CRC-32 of the bytes from 6 on in bytes 4 and 5.  It checks nothing
    else. *)
Theorem valid_iff_structure (b : rNode) :
  valid b = true <-> structuralInvariants b.
Proof. split; [apply valid_structuralInvariants|apply structuralInvariants_valid]. Qed.

(** The slots of a valid node in DSpace.  With a bias in [0, 2^62], slot 0
    starts at the bias, the offsets [dOff] do not decrease with the slot
    index, and the last slot ends at the bias plus [dPtrMax]; for every slot
    [dSize] is the [Size] of its [dOffRange], it is not negative, and the
    range is [Empty] exactly when [dSize] is 0. *)
Theorem node_slots_in_order (b : rNode) (dBias : Z) :
  valid b = true -> 0 <= dBias <= 2 ^ 62 ->
  dOff b 0 dBias = dBias
  /\ dOff b (arity b) dBias = dBias + dPtrMax b
  /\ (forall i j, 0 <= i <= j -> j <= arity b -> dOff b i dBias <= dOff b j dBias)
  /\ (forall i, 0 <= i < arity b ->
        Size (dOffRange b i dBias) = dSize b i /\ 0 <= dSize b i
        /\ (Empty (dOffRange b i dBias) = true <-> dSize b i = 0)).
Proof.
  intros V Hd.
  pose proof (si_arity _ (valid_structuralInvariants b V)) as HA.
  split; [reflexivity|]. split; [|split].
  - rewrite dOff_value by exact Hd. rewrite DPtr0_arity by lia. reflexivity.
  - intros i j Hi Hj. rewrite !dOff_value by exact Hd.
    pose proof (DPtr0_mono b i j V Hi Hj). lia.
  - intros i Hi. unfold dOffRange, Size, Empty. cbn [low high].
    rewrite !dOff_value by exact Hd. rewrite dSize_DPtr0 by lia.
    pose proof (DPtr0_step b i V Hi) as S.
    pose proof (DPtr0_range b i). pose proof (DPtr0_range b (i + 1)).
    rewrite sub64_small by lia.
    split; [lia|]. split; [lia|]. rewrite Z.eqb_eq. lia.
Qed.

Lemma node_slots_in_order_witness :
  let b := nodeAt twoLevelFile 96 in
  valid b = true /\ 0 <= 500 <= 2 ^ 62
  /\ map (fun i => dOffRange b i 500) [0; 1; 2]
     = [mkRange 500 600; mkRange 600 600; mkRange 600 900]
  /\ dOff b (arity b) 500 = 500 + dPtrMax b
  /\ dSize b 1 = 0 /\ Empty (dOffRange b 1 500) = true.
Proof.
  intros b.
  assert (V : valid b = true) by (vm_compute; reflexivity).
  assert (R : 0 <= 500 <= 2 ^ 62) by lia.
  destruct (node_slots_in_order b 500 V R) as (_ & E & _ & S).
  split; [exact V|]. split; [exact R|].
  split; [vm_compute; reflexivity|]. split; [exact E|].
  assert (D : dSize b 1 = 0) by (vm_compute; reflexivity).
  split; [exact D|].
  apply (proj2 (proj2 (S 1 ltac:(vm_compute; split; [discriminate|reflexivity])))).
  exact D.
Defined.

(** The compressed ranges of a valid node.  With a bias in [0, 2^62] and any
    slot index, even one at or past the arity as [chunk] passes for an SPtr
    or TPtr, [cOffRange] is a range [low <= high] within
    [cBias, cBias + cPtrMax].  For an index at or past the arity it is the
    empty range at [cBias + cPtrMax]; for a slot it starts at the slot's CPtr
    and ends at [cBias + cPtrMax], or after [1024 * cLen] bytes when [cLen] is
    not zero and that is less. *)
Theorem cOffRange_within (b : rNode) (i cBias : Z) :
  valid b = true -> 0 <= cBias <= 2 ^ 62 -> 0 <= i ->
  cBias <= low (cOffRange b i cBias)
  /\ low (cOffRange b i cBias) <= high (cOffRange b i cBias)
  /\ high (cOffRange b i cBias) <= cBias + cPtrMax b
  /\ (arity b <= i ->
      cOffRange b i cBias = mkRange (cBias + cPtrMax b) (cBias + cPtrMax b))
  /\ (i < arity b ->
      low (cOffRange b i cBias) = cBias + CPtr b i
      /\ (cLen b i = 0 -> high (cOffRange b i cBias) = cBias + cPtrMax b)
      /\ (cLen b i <> 0 ->
          high (cOffRange b i cBias)
          = Z.min (cBias + cPtrMax b) (cBias + CPtr b i + 1024 * cLen b i))).
Proof. apply cOffRange_bounds. Qed.

Lemma cOffRange_within_witness :
  let b := nodeAt tagsFile 48 in
  valid b = true /\ 0 <= 0 <= 2 ^ 62
  /\ cLen b 0 = 1 /\ cPtrMax b = 1150
  /\ cOffRange b 0 0 = mkRange 96 1120
  /\ cOffRange b 1 0 = mkRange 1130 1150
  /\ cOffRange b 255 0 = mkRange 1150 1150
  /\ high (cOffRange b 0 0) = Z.min (0 + cPtrMax b) (0 + CPtr b 0 + 1024 * cLen b 0).
Proof.
  intros b.
  assert (V : valid b = true) by (vm_compute; reflexivity).
  assert (R : 0 <= 0 <= 2 ^ 62) by lia.
  destruct (cOffRange_within b 0 0 V R ltac:(lia)) as (_ & _ & _ & _ & S).
  destruct (S ltac:(vm_compute; reflexivity)) as (_ & _ & H).
  split; [exact V|]. split; [exact R|].
  do 5 (split; [vm_compute; reflexivity|]).
  apply H. vm_compute. discriminate.
Defined.

(** When [findChunkContaining] panics.  On a valid node, with a bias in
    [0, 2^62], the search finds no slot, and so reaches the panic of the
    source, exactly for the offsets at or past the end of the node's part of
    DSpace, [dBias + dPtrMax]. *)
Theorem findChunkContaining_panics_iff (b : rNode) (d dBias : Z) :
  valid b = true -> 0 <= dBias <= 2 ^ 62 ->
  (findChunkContaining b d dBias = None <-> dBias + dPtrMax b <= d).
Proof.
  intros V Hd.
  pose proof (si_arity _ (valid_structuralInvariants b V)) as HA.
  assert (E : dOff b (arity b) dBias = dBias + dPtrMax b).
  { rewrite dOff_value by exact Hd. rewrite DPtr0_arity by lia. reflexivity. }
  split.
  - intros N. unfold findChunkContaining in N.
    pose proof (findChunkLoop_none b d dBias _ 0 N (arity b - 1) ltac:(lia)) as P.
    replace (arity b - 1 + 1) with (arity b) in P by lia. lia.
  - intros Ge. destruct (findChunkContaining b d dBias) as [i|] eqn:F; [|reflexivity].
    apply findChunkContaining_some in F. destruct F as (Hi & Lt & _).
    rewrite dOff_value in Lt by exact Hd.
    pose proof (DPtr0_mono b (i + 1) (arity b) V ltac:(lia) ltac:(lia)) as M.
    rewrite DPtr0_arity in M by lia. lia.
Qed.

Lemma findChunkContaining_panics_iff_witness :
  let b := nodeAt twoLevelFile 96 in
  valid b = true /\ 0 <= 500 <= 2 ^ 62 /\ dPtrMax b = 400
  /\ findChunkContaining b 900 500 = None
  /\ findChunkContaining b 899 500 = Some 2.
Proof.
  intros b.
  assert (V : valid b = true) by (vm_compute; reflexivity).
  assert (R : 0 <= 500 <= 2 ^ 62) by lia.
  assert (D : dPtrMax b = 400) by (vm_compute; reflexivity).
  split; [exact V|]. split; [exact R|]. split; [exact D|].
  split; [|vm_compute; reflexivity].
  apply (findChunkContaining_panics_iff b 900 500 V R). rewrite D. lia.
Defined.

(** What [loadAndValidate] accepts.  On a reader for the container [f],
    [loadAndValidate] returns nil only for a child that lies within the
    container and whose bytes, then in the node buffer, are a valid node
    with a codec within the parent's, a version between 1 and the parent's,
    a [cPtrMax] that with the child's CBias stays within the parent's
    ceiling, and a [dPtrMax] equal to the size the parent gives the slot; the
    sticky error is left as it was. *)
Theorem loadAndValidate_accepts_only (f : list byte) (r r' : Reader)
    (off pc pv pm cb ds : Z) :
  ReadSeeker r = Some f -> CompressedSize r = fileSize f ->
  loadAndValidate off pc pv pm cb ds r = (None, r') ->
  0 <= off /\ off + nodeSize (arity (nodeAt f off)) <= fileSize f
  /\ sameNode (nodeAt f off) (currNode r')
  /\ valid (currNode r') = true
  /\ bitwiseSubset pc (codec (currNode r')) = true
  /\ 1 <= version (currNode r') <= pv
  /\ add64 cb (cPtrMax (currNode r')) <= pm
  /\ dPtrMax (currNode r') = ds
  /\ err r' = err r.
Proof.
  intros Hf Hs H.
  pose proof (loadAndValidate_childOK f r off pc pv pm cb ds Hf Hs) as P.
  destruct (childOK f off pc pv pm cb ds) eqn:C.
  - destruct P as (b & E & Sn). rewrite E in H. injection H as <-.
    apply childOK_true in C. destruct C as (V & D & W & O & Fit & Sub & Ver).
    cbn [currNode set_currNode err].
    rewrite (same_valid _ _ Sn), (same_codec _ _ Sn), (same_version _ _ Sn),
            (same_cPtrMax _ _ Sn), (same_dPtrMax _ _ Sn).
    pose proof (si_version _ (valid_structuralInvariants _ V)) as V0.
    pose proof (idx_range (nodeAt f off) (16 * idx (nodeAt f off) 3 + 14)) as VR.
    fold (version (nodeAt f off)) in VR.
    repeat match goal with |- _ /\ _ => split end; try assumption; try reflexivity; lia.
  - destruct P as (r'' & E & _). rewrite E in H. discriminate H.
Qed.

Lemma loadAndValidate_accepts_only_witness :
  let f := tagsFile in
  let r := openReader f in
  let r' := snd (loadAndValidate 48 3 1 1200 0 300 r) in
  ReadSeeker r = Some f /\ CompressedSize r = fileSize f
  /\ loadAndValidate 48 3 1 1200 0 300 r = (None, r')
  /\ codec (currNode r') = 1 /\ cPtrMax (currNode r') = 1150
  /\ dPtrMax (currNode r') = 300
  /\ fst (loadAndValidate 48 2 1 1200 0 300 r) = Some errInvalidIndexNode.
Proof.
  intros f r r'.
  assert (L : loadAndValidate 48 3 1 1200 0 300 r = (None, r')) by (vm_compute; reflexivity).
  destruct (loadAndValidate_accepts_only f r r' 48 3 1 1200 0 300 eq_refl eq_refl L)
    as (_ & _ & _ & _ & _ & _ & _ & D & _).
  split; [reflexivity|]. split; [reflexivity|]. split; [exact L|].
  do 2 (split; [vm_compute; reflexivity|]).
  split; [exact D|vm_compute; reflexivity].
Defined.

(** Reads stay within the node.  [valid], [findChunkContaining] and, for
    the slots below the arity, [chunk], [isLeaf] and [dSize] look at no byte
    of the buffer past the [nodeSize arity] bytes of the node: two buffers
    that agree on those bytes give the same results. *)
Theorem node_reads_within_node (b b' : rNode) :
  sameNode b b' ->
  arity b' = arity b /\ valid b' = valid b
  /\ codec b' = codec b /\ version b' = version b
  /\ cPtrMax b' = cPtrMax b /\ dPtrMax b' = dPtrMax b
  /\ (forall d dBias, findChunkContaining b' d dBias = findChunkContaining b d dBias)
  /\ (forall i cBias dBias, 0 <= i < arity b ->
        chunk b' i cBias dBias = chunk b i cBias dBias
        /\ isLeaf b' i = isLeaf b i /\ dSize b' i = dSize b i
        /\ cOff b' i cBias = cOff b i cBias).
Proof.
  intros Sn.
  split; [exact (same_arity _ _ Sn)|]. split; [exact (same_valid _ _ Sn)|].
  split; [exact (same_codec _ _ Sn)|]. split; [exact (same_version _ _ Sn)|].
  split; [exact (same_cPtrMax _ _ Sn)|]. split; [exact (same_dPtrMax _ _ Sn)|].
  split; [intros d dBias; exact (same_findChunkContaining _ _ Sn d dBias)|].
  intros i cBias dBias Hi.
  split; [exact (same_chunk _ _ Sn i cBias dBias Hi)|].
  split; [exact (same_isLeaf _ _ Sn i Hi)|].
  split; [exact (same_dSize _ _ Sn i Hi)|].
  apply (same_cOff _ _ Sn). lia.
Qed.

Lemma node_reads_within_node_witness :
  let b := firstn 48 (nodeAt twoLevelFile 48) ++ repeat x00 4048 in
  let b' := firstn 48 (nodeAt twoLevelFile 48) ++ repeat xff 4048 in
  sameNode b b' /\ valid b' = true
  /\ chunk b' 1 0 0 = chunk b 1 0 0
  /\ DRange (chunk b 1 0 0) = mkRange 200 500.
Proof.
  intros b b'.
  assert (Sn : sameNode b b') by (vm_compute; reflexivity).
  destruct (node_reads_within_node b b' Sn) as (_ & V & _ & _ & _ & _ & _ & C).
  split; [exact Sn|]. split; [rewrite V; vm_compute; reflexivity|].
  split; [|vm_compute; reflexivity].
  apply (C 1 0 0). vm_compute. split; [discriminate|reflexivity].
Defined.

(** * Further properties: loads, parameters and the public methods *)

(** What [load] does to the node buffer.  On a reader whose ReadSeeker holds
    the container [f], with the 4096 byte buffer: an arity of 0 is the
    "inconsistent arity" error; a node of [nodeSize a] bytes that lies
    within [f] is copied to the start of the buffer, and the bytes of the
    buffer behind it stay as they were, left over from earlier loads; a node
    that reaches past the end of [f] is a read error, [io.EOF] when the
    offset is at or past the end and [io.ErrUnexpectedEOF] otherwise.  Every
    error is stored in [err]. *)
Theorem load_reads_node (f : list byte) (r : Reader) (a off : Z) :
  ReadSeeker r = Some f -> length (currNode r) = 4096%nat ->
  0 <= a <= 255 -> 0 <= off ->
  (a = 0 ->
   load off a r = (Some errInconsistentArity, set_err (Some errInconsistentArity) r))
  /\ (a <> 0 -> off + nodeSize a <= fileSize f ->
      exists b, load off a r = (None, set_currNode b r)
                /\ length b = 4096%nat
                /\ (forall k, 0 <= k < nodeSize a -> idx b k = idx f (off + k))
                /\ (forall k, nodeSize a <= k -> idx b k = idx (currNode r) k))
  /\ (a <> 0 -> fileSize f < off + nodeSize a ->
      exists r',
        load off a r
        = (Some (if fileSize f <=? off then io_EOF else io_ErrUnexpectedEOF), r')
        /\ err r' = Some (if fileSize f <=? off then io_EOF else io_ErrUnexpectedEOF)).
Proof.
  intros Hf Hl Ha Ho. split; [|split].
  - intros ->. reflexivity.
  - intros Na Fit. rewrite (load_inside f r a off Hf) by (unfold fileSize in Fit; lia).
    eexists. split; [reflexivity|].
    destruct (loaded_bytes f (currNode r) (nodeSize a) off Ho
                ltac:(unfold nodeSize; lia) Fit
                ltac:(rewrite Hl; unfold nodeSize; lia)) as (L & In & Out).
    split; [congruence|]. split; assumption.
  - intros Na Out. apply (load_outside f r a off Hf); [lia|exact Ho|exact Out].
Qed.

Lemma load_reads_node_witness :
  let f := flatFile in
  let r := set_currNode (repeat xff 4096) (newReader (Some f) (fileSize f)) in
  ReadSeeker r = Some f /\ length (currNode r) = 4096%nat
  /\ 0 <= 1 <= 255 /\ 0 <= 0
  /\ (exists b, load 0 1 r = (None, set_currNode b r)
                /\ idx b 3 = 1 /\ idx b 31 = 1 /\ idx b 32 = 255)
  /\ fst (load 16 1 r) = Some io_ErrUnexpectedEOF
  /\ fst (load 40 1 r) = Some io_EOF.
Proof.
  intros f r.
  assert (Hf : ReadSeeker r = Some f) by reflexivity.
  assert (Hl : length (currNode r) = 4096%nat) by (vm_compute; reflexivity).
  assert (Ha : 0 <= 1 <= 255) by lia.
  destruct (load_reads_node f r 1 0 Hf Hl Ha ltac:(lia)) as (_ & In & _).
  destruct (In ltac:(lia) ltac:(vm_compute; discriminate)) as (b & E & _ & Hin & Hout).
  destruct (load_reads_node f r 1 16 Hf Hl Ha ltac:(lia)) as (_ & _ & Out16).
  destruct (Out16 ltac:(lia) ltac:(vm_compute; reflexivity)) as (r16 & E16 & _).
  destruct (load_reads_node f r 1 40 Hf Hl Ha ltac:(lia)) as (_ & _ & Out40).
  destruct (Out40 ltac:(lia) ltac:(vm_compute; reflexivity)) as (r40 & E40 & _).
  split; [exact Hf|]. split; [exact Hl|]. split; [exact Ha|]. split; [lia|].
  split; [exists b; split; [exact E|]|].
  - rewrite (Hin 3), (Hin 31) by (vm_compute; split; [discriminate|reflexivity]).
    rewrite (Hout 32) by (vm_compute; discriminate).
    repeat split; vm_compute; reflexivity.
  - rewrite E16, E40. split; reflexivity.
Defined.

(** Parameters that [checkParameters] refuses.  On a reader that no method
    was called on, a nil ReadSeeker is the "invalid ReadSeeker" error and,
    with a ReadSeeker, a [CompressedSize] below 32 (an empty container among
    them) is the "invalid CompressedSize" error, whatever the ReadSeeker
    holds: each public method returns it, stores it in [err] and reads
    nothing. *)
Theorem invalid_parameters_rejected (r : Reader) :
  err r = None -> initialized r = false ->
  ReadSeeker r = None \/ CompressedSize r < 32 ->
  let e := match ReadSeeker r with
           | None => errInvalidReadSeeker
           | Some _ => errInvalidCompressedSize
           end in
  let r' := set_err (Some e) (set_initialized true r) in
  DecompressedSize r = (0, Some e, r')
  /\ (forall d, SeekToChunkContaining d r = (Some e, r'))
  /\ (forall fuel, NextChunk fuel r = Done (noChunk, Some e, r'))
  /\ currNode r' = currNode r.
Proof.
  intros He Hi Hp e r'.
  assert (I : initialize r = (Some e, r')).
  { unfold initialize, checkParameters, latch. rewrite He, Hi.
    cbn [ReadSeeker CompressedSize set_initialized]. subst e r'.
    destruct (ReadSeeker r) as [f|]; [|reflexivity].
    destruct Hp as [Hp|Hp]; [discriminate Hp|].
    destruct (Z.ltb_spec (CompressedSize r) 32); [reflexivity|lia]. }
  unfold DecompressedSize, SeekToChunkContaining, NextChunk. rewrite I.
  repeat split.
Qed.

Lemma invalid_parameters_rejected_witness :
  let r := newReader (Some []) 0 in
  let r' := set_err (Some errInvalidCompressedSize) (set_initialized true r) in
  err r = None /\ initialized r = false /\ CompressedSize r < 32
  /\ DecompressedSize r = (0, Some errInvalidCompressedSize, r')
  /\ NextChunk 5 r = Done (noChunk, Some errInvalidCompressedSize, r').
Proof.
  intros r r'.
  assert (C : CompressedSize r < 32) by (vm_compute; reflexivity).
  destruct (invalid_parameters_rejected r eq_refl eq_refl (or_intror C))
    as (D & _ & N & _).
  split; [reflexivity|]. split; [reflexivity|].
  split; [exact C|]. split; [exact D|exact (N 5%nat)].
Defined.

(** A root of another version.  On a new reader for a container of at least
    32 bytes that starts with the magic and holds a valid root at the head
    or, when the head holds none, at the tail, with a version byte other
    than 1, [initialize] returns the "unsupported RAC file version" error and
    stores it in [err]. *)
Theorem unsupported_version_rejected (f : list byte) (off : Z) :
  32 <= fileSize f -> startsWithMagic f = true ->
  (headRoot f = true /\ off = 0
   \/ headRoot f = false /\ tailRoot f = true /\ off = tailOffset f) ->
  version (nodeAt f off) <> 1 ->
  exists r, initialize (newReader (Some f) (fileSize f)) = (Some errUnsupportedVersion, r)
            /\ err r = Some errUnsupportedVersion.
Proof.
  intros H32 Mg Hoff Hv.
  set (r0 := set_initialized true (newReader (Some f) (fileSize f))).
  destruct (findRootNode_at f r0 eq_refl eq_refl H32) as (_ & Hhead & Htail).
  assert (I0 : forall r, findRootNode r0 = (None, r) ->
                         version (currNode r) <> 1 ->
                         initialize (newReader (Some f) (fileSize f))
                         = latch errUnsupportedVersion r).
  { intros r F V. unfold initialize, checkParameters.
    cbn [err initialized newReader]. fold r0.
    cbn [ReadSeeker CompressedSize r0 set_initialized newReader].
    destruct (Z.ltb_spec (fileSize f) 32); [lia|].
    change (set_initialized true (newReader (Some f) (fileSize f))) with r0.
    rewrite F. destruct (Z.eqb_spec (version (currNode r)) 1); [contradiction|].
    reflexivity. }
  destruct Hoff as [(Hd & ->)|(Hd & Tl & ->)].
  - destruct (Hhead Mg Hd) as (r & F & _ & _ & _ & _ & _ & _ & _ & _ & A9 & _).
    eexists. split; [apply (I0 r F); now rewrite (same_version _ _ A9)|reflexivity].
  - destruct (Htail Mg Hd Tl) as (r & F & _ & _ & _ & _ & _ & _ & _ & _ & A9 & _).
    eexists. split; [apply (I0 r F); now rewrite (same_version _ _ A9)|reflexivity].
Qed.

Lemma unsupported_version_rejected_witness :
  let f := version2File in
  32 <= fileSize f /\ startsWithMagic f = true /\ headRoot f = true
  /\ version (nodeAt f 0) = 2
  /\ exists r, initialize (newReader (Some f) (fileSize f)) = (Some errUnsupportedVersion, r)
               /\ err r = Some errUnsupportedVersion.
Proof.
  intros f.
  assert (H32 : 32 <= fileSize f) by (vm_compute; discriminate).
  assert (Mg : startsWithMagic f = true) by (vm_compute; reflexivity).
  assert (Hd : headRoot f = true) by (vm_compute; reflexivity).
  assert (V : version (nodeAt f 0) = 2) by (vm_compute; reflexivity).
  repeat match goal with |- _ /\ _ => split end; try assumption.
  apply (unsupported_version_rejected f 0 H32 Mg); [left; split; [exact Hd|reflexivity]|].
  rewrite V. discriminate.
Defined.

(** The root stays where it is.  Once [DecompressedSize] has returned a size
    and nil on a reader, no sequence of calls of the public methods changes
    the exported fields, the root's offset and arity or the decompressed
    size, and every later [DecompressedSize] that returns nil returns the same
    size and leaves the reader as it is. *)
Theorem DecompressedSize_stable (r0 r1 r r2 : Reader) (n m : Z) :
  reachable r0 ->
  DecompressedSize r0 = (n, None, r1) -> reachableFrom r1 r ->
  DecompressedSize r = (m, None, r2) ->
  m = n /\ r2 = r /\ sameRoot r1 r.
Proof.
  intros _ D0 R D.
  unfold DecompressedSize in D0.
  destruct (initialize r0) as [[e|] r1'] eqn:I0; [discriminate|].
  injection D0 as <- <-.
  apply initialize_fields in I0. destruct I0 as ((E1 & In1) & _).
  pose proof (reachableFrom_sameRoot r1' r In1 R) as S.
  unfold DecompressedSize in D.
  rewrite (initialize_done r ltac:(rewrite (sr_initialized _ _ S); exact In1)) in D.
  destruct (err r); [discriminate|]. injection D as <- <-.
  split; [exact (sr_decompressedSize _ _ S)|]. split; [reflexivity|exact S].
Qed.

Lemma DecompressedSize_stable_witness :
  let r0 := newReader (Some twoLevelFile) (fileSize twoLevelFile) in
  let r1 := snd (DecompressedSize r0) in
  let r := snd (SeekToChunkContaining 550 r1) in
  let r2 := match NextChunk 3 r with Done (_, _, x) => x | _ => r end in
  reachable r0 /\ DecompressedSize r0 = (900, None, r1)
  /\ reachableFrom r1 r2
  /\ DecompressedSize r2 = (900, None, r2).
Proof.
  intros r0 r1 r r2.
  assert (D0 : DecompressedSize r0 = (900, None, r1)) by (vm_compute; reflexivity).
  assert (S : SeekToChunkContaining 550 r1 = (None, r)) by (vm_compute; reflexivity).
  assert (N : NextChunk 3 r
              = Done (chunk (nodeAt twoLevelFile 96) 0 0 500, None, r2))
    by (vm_compute; reflexivity).
  assert (R2 : reachableFrom r1 r2).
  { eapply from_NextChunk; [|exact N].
    eapply from_SeekToChunkContaining; [apply from_here|exact S]. }
  assert (D2 : DecompressedSize r2 = (decompressedSize r2, None, r2))
    by (vm_compute; reflexivity).
  destruct (DecompressedSize_stable r0 r1 r2 r2 900 (decompressedSize r2)
              (reach_new _ _) D0 R2 D2) as (E & _ & _).
  split; [apply reach_new|]. split; [exact D0|]. split; [exact R2|].
  rewrite <- E. exact D2.
Defined.

(** The last seek counts.  When [SeekToChunkContaining d1] has returned nil,
    [SeekToChunkContaining d2] with [d2] not negative returns what it would
    have returned had the first call not been made, and leaves the same
    reader: a seek does not read the container and only the position of the
    last one is resolved by [NextChunk]. *)
Theorem SeekToChunkContaining_last_wins (r r1 : Reader) (d1 d2 : Z) :
  SeekToChunkContaining d1 r = (None, r1) -> 0 <= d2 ->
  SeekToChunkContaining d2 r1 = SeekToChunkContaining d2 r
  /\ currNode r1 = currNode (snd (initialize r)).
Proof.
  intros S1 H2.
  destruct (SeekToChunkContaining_ok d1 r r1 S1) as (_ & r0 & I & -> & E0 & In0).
  unfold SeekToChunkContaining at 2. rewrite I.
  unfold SeekToChunkContaining.
  rewrite (initialize_done (set_seekPosition d1 (set_needToResolveSeekPosition true r0))
             In0).
  cbn [err set_seekPosition set_needToResolveSeekPosition]. rewrite E0.
  destruct (Z.ltb_spec d2 0); [lia|]. split; reflexivity.
Qed.

Lemma SeekToChunkContaining_last_wins_witness :
  let r := newReader (Some twoLevelFile) (fileSize twoLevelFile) in
  let r1 := snd (SeekToChunkContaining 700 r) in
  SeekToChunkContaining 700 r = (None, r1) /\ 0 <= 250
  /\ SeekToChunkContaining 250 r1 = SeekToChunkContaining 250 r
  /\ match NextChunk 3 (snd (SeekToChunkContaining 250 r1)) with
     | Done (c, None, _) => DRange c = mkRange 200 500
     | _ => False
     end.
Proof.
  intros r r1.
  assert (S : SeekToChunkContaining 700 r = (None, r1)) by (vm_compute; reflexivity).
  split; [exact S|]. split; [lia|].
  destruct (SeekToChunkContaining_last_wins r r1 700 250 S ltac:(lia)) as (E & _).
  split; [exact E|]. rewrite E. vm_compute. reflexivity.
Defined.

(** A negative seek ends the use of a reader.  [SeekToChunkContaining] with a
    negative offset never returns nil; when [initialize] passes, it returns
    the "negative position" error and stores it in [err], so that every later
    call of a public method, a seek to a position of the container among
    them, returns that error. *)
Theorem negative_seek_is_sticky (r : Reader) (d : Z) :
  d < 0 ->
  fst (SeekToChunkContaining d r) <> None
  /\ (fst (initialize r) = None ->
      let r' := snd (SeekToChunkContaining d r) in
      SeekToChunkContaining d r = (Some errNegativePosition, r')
      /\ DecompressedSize r' = (0, Some errNegativePosition, r')
      /\ (forall d', SeekToChunkContaining d' r' = (Some errNegativePosition, r'))
      /\ (forall fuel, NextChunk fuel r' = Done (noChunk, Some errNegativePosition, r'))).
Proof.
  intros Hd. unfold SeekToChunkContaining at 1 2 3, DecompressedSize, NextChunk, latch.
  destruct (initialize r) as [[e|] r0] eqn:I; cbv zeta.
  - split; [discriminate|]. discriminate.
  - destruct (Z.ltb_spec d 0); [|lia]. cbn [fst snd].
    split; [discriminate|]. intros _.
    unfold SeekToChunkContaining, initialize. cbn [err set_err].
    repeat split.
Qed.

Lemma negative_seek_is_sticky_witness :
  let r := openReader flatFile in
  let r' := snd (SeekToChunkContaining (-1) r) in
  -1 < 0 /\ fst (initialize r) = None
  /\ SeekToChunkContaining (-1) r = (Some errNegativePosition, r')
  /\ SeekToChunkContaining 0 r' = (Some errNegativePosition, r')
  /\ NextChunk 2 r' = Done (noChunk, Some errNegativePosition, r').
Proof.
  intros r r'.
  assert (I : fst (initialize r) = None) by (vm_compute; reflexivity).
  destruct (negative_seek_is_sticky r (-1) ltac:(lia)) as (_ & H).
  destruct (H I) as (S & _ & S' & N).
  split; [lia|]. split; [exact I|]. split; [exact S|].
  split; [exact (S' 0)|exact (N 2%nat)].
Defined.

(** What [NextChunk] gives back.  On a reader that a caller can hold, a
    [NextChunk] that returns an error returns the zero [Chunk] with it, and
    one that returns nil returns a chunk whose [DRange] is not empty and
    leaves [seekPosition] at the end of that range. *)
Theorem NextChunk_result_shape (r : Reader) (fuel : nat)
    (c : Chunk) (e : option error) (r' : Reader) :
  reachable r -> NextChunk fuel r = Done (c, e, r') ->
  match e with
  | Some _ => c = noChunk
  | None => low (DRange c) <> high (DRange c) /\ seekPosition r' = high (DRange c)
  end.
Proof.
  intros _ H. unfold NextChunk in H.
  destruct (initialize r) as [[e0|] r0]; [now injection H as <- <- _|].
  destruct e as [e|].
  - exact (nextChunkLoop_error_chunk _ _ _ _ _ _ H).
  - destruct (nextChunkLoop_nonempty _ _ _ _ _ H) as (Em & Sk).
    split; [|exact Sk]. unfold Empty in Em. now apply Z.eqb_neq.
Qed.

Lemma NextChunk_result_shape_witness :
  let r := newReader (Some twoLevelFile) (fileSize twoLevelFile) in
  let r1 := match NextChunk 3 r with Done (_, _, x) => x | _ => r end in
  let r2 := match NextChunk 3 r1 with Done (_, _, x) => x | _ => r end in
  let r3 := match NextChunk 3 r2 with Done (_, _, x) => x | _ => r end in
  reachable r2
  /\ NextChunk 3 r2 = Done (chunk (nodeAt twoLevelFile 96) 0 0 500, None, r3)
  /\ DRange (chunk (nodeAt twoLevelFile 96) 0 0 500) = mkRange 500 600
  /\ seekPosition r3 = 600.
Proof.
  intros r r1 r2 r3.
  assert (N1 : NextChunk 3 r = Done (chunk (nodeAt twoLevelFile 48) 0 0 0, None, r1))
    by (vm_compute; reflexivity).
  assert (N2 : NextChunk 3 r1 = Done (chunk (nodeAt twoLevelFile 48) 1 0 0, None, r2))
    by (vm_compute; reflexivity).
  assert (N3 : NextChunk 3 r2 = Done (chunk (nodeAt twoLevelFile 96) 0 0 500, None, r3))
    by (vm_compute; reflexivity).
  assert (R2 : reachable r2).
  { eapply reach_NextChunk; [|exact N2]. eapply reach_NextChunk; [|exact N1].
    apply reach_new. }
  destruct (NextChunk_result_shape r2 3 _ None r3 R2 N3) as (_ & Sk).
  split; [exact R2|]. split; [exact N3|].
  split; [vm_compute; reflexivity|]. rewrite Sk. vm_compute. reflexivity.
Defined.

(** End of stream is stable.  On a reader that a caller can hold, once
    [NextChunk] has returned [io.EOF], every further [NextChunk] returns
    [io.EOF] with the zero [Chunk] and leaves the reader as it is, until a
    seek is made. *)
Theorem NextChunk_EOF_repeats (r : Reader) (fuel : nat) (c : Chunk) (r' : Reader) :
  reachable r -> NextChunk fuel r = Done (c, Some io_EOF, r') ->
  forall m, NextChunk (S m) r' = Done (noChunk, Some io_EOF, r').
Proof.
  intros _ H m. unfold NextChunk in H.
  destruct (initialize r) as [[e0|] r0] eqn:I.
  - injection H as _ -> <-.
    destruct (initialize_latches _ _ _ I) as [E|(E & _)]; [|discriminate E].
    unfold NextChunk, initialize. rewrite E. reflexivity.
  - apply initialize_fields in I. destruct I as ((E0 & In0) & _).
    pose proof (nextChunkLoop_sameRoot _ _ _ _ _ _ H) as SR.
    destruct (nextChunkLoop_EOF _ _ _ _ _ H) as [E|(Nd & Ge & E)].
    + unfold NextChunk, initialize. rewrite E. reflexivity.
    + unfold NextChunk.
      rewrite (initialize_done r' ltac:(rewrite (sr_initialized _ _ SR); exact In0)).
      rewrite E, E0. cbn [nextChunkLoop]. rewrite Nd.
      destruct (Z.geb_spec (seekPosition r') (decompressedSize r')); [reflexivity|lia].
Qed.

Lemma NextChunk_EOF_repeats_witness :
  let r := snd (SeekToChunkContaining 100 (newReader (Some flatFile) (fileSize flatFile))) in
  reachable r /\ NextChunk 2 r = Done (noChunk, Some io_EOF, r)
  /\ NextChunk 7 r = Done (noChunk, Some io_EOF, r).
Proof.
  intros r.
  assert (R : reachable r).
  { apply (reach_SeekToChunkContaining
             (newReader (Some flatFile) (fileSize flatFile)) 100 None r (reach_new _ _)).
    vm_compute. reflexivity. }
  assert (N : NextChunk 2 r = Done (noChunk, Some io_EOF, r)) by (vm_compute; reflexivity).
  split; [exact R|]. split; [exact N|].
  exact (NextChunk_EOF_repeats r 2 noChunk r R N 6%nat).
Defined.

(** Within a node [NextChunk] does not descend.  On a reader that a caller
    can hold, initialized without error and with no position to resolve,
    whose cursor stands before a slot of the current node with a non-empty
    [DRange], [NextChunk] returns that slot as the chunk, whether the slot is
    a leaf or a branch: [isLeaf] is looked at only by [resolveSeekPosition].
    For a branch slot the chunk has TTag 0xFE and its [CPrimary] is where the
    child node lies. *)
Theorem NextChunk_returns_next_slot (r : Reader) (m : nat) :
  reachable r ->
  err r = None -> initialized r = true -> needToResolveSeekPosition r = false ->
  0 <= nextChunk r < arity (currNode r) ->
  Empty (DRange (chunk (currNode r) (nextChunk r) (currNodeCBias r) (currNodeDBias r)))
  = false ->
  exists r',
    NextChunk (S m) r
    = Done (chunk (currNode r) (nextChunk r) (currNodeCBias r) (currNodeDBias r), None, r')
    /\ nextChunk r' = nextChunk r + 1
    /\ currNode r' = currNode r.
Proof.
  intros _ E In Nd Hj Em.
  unfold NextChunk. rewrite (initialize_done r In), E.
  cbn [nextChunkLoop]. rewrite Nd.
  destruct (Z.to_nat (arity (currNode r) - nextChunk r)) as [|k] eqn:K; [lia|].
  cbn [emitLoop].
  destruct (Z.ltb_spec (nextChunk r) (arity (currNode r))) as [_|Ge]; [|lia].
  rewrite Em. cbn [negb].
  eexists. split; [reflexivity|]. split; reflexivity.
Qed.

Lemma NextChunk_returns_next_slot_witness :
  let f := mixedFile in
  let r := match NextChunk 3 (openReader f) with Done (_, _, x) => x | _ => openReader f end in
  let c := chunk (currNode r) (nextChunk r) (currNodeCBias r) (currNodeDBias r) in
  reachable r /\ err r = None /\ initialized r = true
  /\ needToResolveSeekPosition r = false
  /\ 0 <= nextChunk r < arity (currNode r)
  /\ Empty (DRange c) = false
  /\ isLeaf (currNode r) (nextChunk r) = false
  /\ TTag c = 0xFE /\ DRange c = mkRange 100 300 /\ CPrimary c = mkRange 48 120
  /\ exists r', NextChunk 3 r = Done (c, None, r').
Proof.
  intros f r c.
  assert (R : reachable r).
  { apply (reach_NextChunk (openReader f) 3 (chunk (nodeAt f 0) 0 0 0) None r).
    - apply (reach_DecompressedSize (newReader (Some f) (fileSize f)) 300 None
               (openReader f) (reach_new _ _)).
      vm_compute. reflexivity.
    - vm_compute. reflexivity. }
  assert (E : err r = None) by (vm_compute; reflexivity).
  assert (In : initialized r = true) by (vm_compute; reflexivity).
  assert (Nd : needToResolveSeekPosition r = false) by (vm_compute; reflexivity).
  assert (Hj : 0 <= nextChunk r < arity (currNode r))
    by (vm_compute; split; [discriminate|reflexivity]).
  assert (Em : Empty (DRange c) = false) by (vm_compute; reflexivity).
  destruct (NextChunk_returns_next_slot r 2 R E In Nd Hj Em) as (r' & N & _).
  split; [exact R|]. split; [exact E|]. split; [exact In|]. split; [exact Nd|].
  split; [exact Hj|]. split; [exact Em|].
  do 4 (split; [vm_compute; reflexivity|]).
  exists r'. exact N.
Defined.

(** * Further properties: reading an accepted container *)

(** No panic.  On a reader on an accepted container that is about to resolve
    a position that is not negative (as after [initialize] or a seek), and on
    every reader reached from it by calls of the public methods, [NextChunk]
    never runs into the panic of [findChunkContaining], whatever the nodes
    below the root hold. *)
Theorem NextChunk_never_panics (f : list byte) (r0 r : Reader) (fuel : nat) :
  accepted f r0 -> needToResolveSeekPosition r0 = true -> 0 <= seekPosition r0 ->
  reachableFrom r0 r ->
  NextChunk fuel r <> Panic.
Proof.
  intros A Nd S0 R.
  destruct (reachableFrom_steady f r0 r (conj A (conj S0 (or_introl Nd))) R)
    as [(e & E)|S].
  - unfold NextChunk, initialize. rewrite E. discriminate.
  - unfold NextChunk. rewrite (initialize_accepted f r (proj1 S)).
    pose proof (nextChunkLoop_steady f fuel fuel r S) as P.
    intros H. rewrite H in P. exact P.
Qed.

Lemma NextChunk_never_panics_witness :
  let f := twoLevelFile in
  let r0 := openReader f in
  let r := snd (SeekToChunkContaining 899 r0) in
  accepted f r0 /\ needToResolveSeekPosition r0 = true /\ 0 <= seekPosition r0
  /\ reachableFrom r0 r /\ NextChunk 3 r <> Panic.
Proof.
  intros f r0 r.
  assert (Nd : needToResolveSeekPosition r0 = true) by (vm_compute; reflexivity).
  assert (S0 : 0 <= seekPosition r0) by (vm_compute; discriminate).
  assert (R : reachableFrom r0 r).
  { apply (from_SeekToChunkContaining r0 r0 899 None r (from_here r0)).
    vm_compute. reflexivity. }
  split; [exact twoLevelFile_accepted|]. split; [exact Nd|]. split; [exact S0|].
  split; [exact R|].
  exact (NextChunk_never_panics f r0 r 3 twoLevelFile_accepted Nd S0 R).
Defined.

(** The ranges of a returned chunk.  On a reader on an accepted container
    that is about to resolve a position that is not negative, and on every
    reader reached from it by calls of the public methods, every chunk that
    [NextChunk] returns has a [DRange] that is not empty and lies within
    [0, decompressedSize], and [CPrimary], [CSecondary] and [CTertiary]
    ranges that are well formed and lie within the container. *)
Theorem returned_chunk_ranges (f : list byte) (r0 r : Reader) (fuel : nat)
    (c : Chunk) (r' : Reader) :
  accepted f r0 -> needToResolveSeekPosition r0 = true -> 0 <= seekPosition r0 ->
  reachableFrom r0 r ->
  NextChunk fuel r = Done (c, None, r') ->
  0 <= low (DRange c) /\ low (DRange c) < high (DRange c)
  /\ high (DRange c) <= decompressedSize r0
  /\ within (CPrimary c) (fileSize f)
  /\ within (CSecondary c) (fileSize f)
  /\ within (CTertiary c) (fileSize f).
Proof.
  intros A Nd S0 R H.
  destruct (NextChunk_cursor f r0 r fuel c r' (conj A (conj S0 (or_introl Nd))) R H)
    as (q & j & Rq & A' & Hj & -> & Em).
  destruct (reached_node f r' q A' Rq) as (Gq & Hq & Wq & Lq & _ & _).
  pose proof (reachableFrom_sameRoot r0 r' (acc_initialized f r0 A)
                (from_NextChunk r0 r fuel _ None r' R H)) as SR.
  rewrite (sr_decompressedSize _ _ SR) in Hq.
  pose proof (goodPos_nonneg f q j Gq Hj) as O.
  unfold Empty, chunk, dOffRange in Em. cbn [DRange low high] in Em.
  apply Z.eqb_neq in Em.
  unfold chunk, dOffRange. cbn [DRange CPrimary CSecondary CTertiary low high].
  fold (slotLow f q j). fold (slotHigh f q j).
  fold (slotLow f q j) in Em. fold (slotHigh f q j) in Em.
  split; [lia|]. split; [lia|]. split; [lia|].
  assert (C : forall i, 0 <= i ->
            within (cOffRange (nodeAt f (p_off q)) i (p_cBias q)) (fileSize f)).
  { intros i Hi. destruct Wq as (W0 & W1). unfold window in *.
    pose proof (u48LE_range (slice_from (nodeAt f (p_off q))
                               (16 * idx (nodeAt f (p_off q)) 3 + 8))) as RC.
    fold (cPtrMax (nodeAt f (p_off q))) in RC.
    destruct (cOffRange_bounds (nodeAt f (p_off q)) i (p_cBias q) (proj1 Gq)
                ltac:(lia) Hi) as (B1 & B2 & B3 & _).
    unfold within. lia. }
  split; [apply C; lia|]. split; apply C; apply idx_range.
Qed.

Lemma returned_chunk_ranges_witness :
  let f := tagsFile in
  let r0 := openReader f in
  let c := chunk (nodeAt f 48) 0 0 0 in
  let r' := match NextChunk 3 r0 with Done (_, _, x) => x | _ => r0 end in
  accepted f r0 /\ needToResolveSeekPosition r0 = true /\ 0 <= seekPosition r0
  /\ NextChunk 3 r0 = Done (c, None, r')
  /\ DRange c = mkRange 0 100 /\ CPrimary c = mkRange 96 1120
  /\ CSecondary c = mkRange 1130 1150 /\ CTertiary c = mkRange 1150 1150
  /\ within (CPrimary c) (fileSize f) /\ within (CSecondary c) (fileSize f).
Proof.
  intros f r0 c r'.
  assert (Nd : needToResolveSeekPosition r0 = true) by (vm_compute; reflexivity).
  assert (S0 : 0 <= seekPosition r0) by (vm_compute; discriminate).
  assert (N : NextChunk 3 r0 = Done (c, None, r')) by (vm_compute; reflexivity).
  destruct (returned_chunk_ranges f r0 r0 3 c r' tagsFile_accepted Nd S0 (from_here r0) N)
    as (_ & _ & _ & W1 & W2 & _).
  split; [exact tagsFile_accepted|]. split; [exact Nd|]. split; [exact S0|].
  split; [exact N|].
  do 4 (split; [vm_compute; reflexivity|]).
  split; [exact W1|exact W2].
Defined.

(** The codec and the tags of a returned chunk.  On a reader on an accepted
    container that is about to resolve a position that is not negative, and
    on every reader reached from it by calls of the public methods, every
    chunk that [NextChunk] returns carries a codec that is not zero and whose
    1-bits are all 1-bits of the root's codec, and a TTag that is not in the
    reserved range [0xC0, 0xFE). *)
Theorem returned_chunk_codec (f : list byte) (r0 r : Reader) (fuel : nat)
    (c : Chunk) (r' : Reader) :
  accepted f r0 -> needToResolveSeekPosition r0 = true -> 0 <= seekPosition r0 ->
  reachableFrom r0 r ->
  NextChunk fuel r = Done (c, None, r') ->
  bitwiseSubset (codec (nodeAt f (rootNodeCOffset r0))) (ChunkCodec c) = true
  /\ ChunkCodec c <> 0
  /\ ~ (0xC0 <= TTag c < 0xFE).
Proof.
  intros A Nd S0 R H.
  destruct (NextChunk_cursor f r0 r fuel c r' (conj A (conj S0 (or_introl Nd))) R H)
    as (q & j & Rq & A' & Hj & -> & Em).
  destruct (reached_node f r' q A' Rq) as (Gq & _ & _ & _ & Sub & _).
  pose proof (reachableFrom_sameRoot r0 r' (acc_initialized f r0 A)
                (from_NextChunk r0 r fuel _ None r' R H)) as SR.
  rewrite (sr_rootNodeCOffset _ _ SR) in Sub.
  pose proof (valid_structuralInvariants _ (proj1 Gq)) as SI.
  unfold chunk. cbn [ChunkCodec TTag].
  split; [exact Sub|]. split; [exact (si_codec _ SI)|exact (si_tTag _ SI j Hj)].
Qed.

Lemma returned_chunk_codec_witness :
  let f := tagsFile in
  let r0 := openReader f in
  let c := chunk (nodeAt f 48) 0 0 0 in
  let r' := match NextChunk 3 r0 with Done (_, _, x) => x | _ => r0 end in
  accepted f r0 /\ needToResolveSeekPosition r0 = true /\ 0 <= seekPosition r0
  /\ NextChunk 3 r0 = Done (c, None, r')
  /\ codec (nodeAt f (rootNodeCOffset r0)) = 3 /\ ChunkCodec c = 1
  /\ bitwiseSubset (codec (nodeAt f (rootNodeCOffset r0))) (ChunkCodec c) = true.
Proof.
  intros f r0 c r'.
  assert (Nd : needToResolveSeekPosition r0 = true) by (vm_compute; reflexivity).
  assert (S0 : 0 <= seekPosition r0) by (vm_compute; discriminate).
  assert (N : NextChunk 3 r0 = Done (c, None, r')) by (vm_compute; reflexivity).
  destruct (returned_chunk_codec f r0 r0 3 c r' tagsFile_accepted Nd S0 (from_here r0) N)
    as (Sub & _ & _).
  split; [exact tagsFile_accepted|]. split; [exact Nd|]. split; [exact S0|].
  split; [exact N|].
  do 2 (split; [vm_compute; reflexivity|]).
  exact Sub.
Defined.

(** [NextChunk] makes at most two rounds of its outer loop.  On a reader on
    an accepted container that is about to resolve a position that is not
    negative, and on every reader reached from it by calls of the public
    methods, when every descent from the root for a position within the
    decompressed size ends within [w] steps, two rounds of the outer loop are
    enough for [NextChunk] to return: the first passes over what is left of
    the current node, the second finds the chunk that holds the position. *)
Theorem NextChunk_two_rounds (f : list byte) (r0 r : Reader) (w : nat) :
  accepted f r0 -> needToResolveSeekPosition r0 = true -> 0 <= seekPosition r0 ->
  reachableFrom r0 r ->
  (forall s, 0 <= s < decompressedSize r0 ->
     descend f w s (rootPos r0) <> OutOfFuel) ->
  (err r = None -> nextChunkLoop w 2 r <> OutOfFuel)
  /\ ((2 <= w)%nat -> NextChunk w r <> OutOfFuel).
Proof.
  intros A Nd S0 R T.
  destruct (reachableFrom_steady f r0 r (conj A (conj S0 (or_introl Nd))) R)
    as [(e & E)|St].
  - split; [intros E'; congruence|].
    intros _. unfold NextChunk, initialize. rewrite E. discriminate.
  - pose proof (reachableFrom_sameRoot r0 r (acc_initialized f r0 A) R) as SR.
    assert (T' : forall s, 0 <= s < decompressedSize r ->
                           descend f w s (rootPos r) <> OutOfFuel).
    { intros s Hs. unfold rootPos. rewrite (sr_rootNodeCOffset _ _ SR).
      apply T. rewrite <- (sr_decompressedSize _ _ SR). exact Hs. }
    split; [intros _; exact (nextChunkLoop_returns f w 0 r St T')|].
    intros Hw. unfold NextChunk. rewrite (initialize_accepted f r (proj1 St)).
    destruct w as [|[|n]]; [lia|lia|].
    exact (nextChunkLoop_returns f (S (S n)) n r St T').
Qed.

Lemma NextChunk_two_rounds_witness :
  let f := flatFile in
  let r0 := openReader f in
  accepted f r0 /\ needToResolveSeekPosition r0 = true /\ 0 <= seekPosition r0
  /\ (forall s, 0 <= s < decompressedSize r0 ->
        descend f 2 s (rootPos r0) <> OutOfFuel)
  /\ NextChunk 2 r0 <> OutOfFuel.
Proof.
  intros f r0.
  assert (Nd : needToResolveSeekPosition r0 = true) by (vm_compute; reflexivity).
  assert (S0 : 0 <= seekPosition r0) by (vm_compute; discriminate).
  assert (T : forall s, 0 <= s < decompressedSize r0 ->
                        descend f 2 s (rootPos r0) <> OutOfFuel).
  { intros s _. cbn [descend]. unfold step.
    change (nodeAt f (p_off (rootPos r0))) with (nodeAt f 0).
    change (p_dBias (rootPos r0)) with 0.
    destruct (findChunkContaining (nodeAt f 0) s 0) as [i|] eqn:F; [|discriminate].
    apply findChunkContaining_some in F. destruct F as (Hi & _).
    change (arity (nodeAt f 0)) with 1 in Hi.
    assert (i = 0) by lia. subst i.
    change (isLeaf (nodeAt f 0) 0) with true. discriminate. }
  split; [exact flatFile_accepted|]. split; [exact Nd|]. split; [exact S0|].
  split; [exact T|].
  apply (NextChunk_two_rounds f r0 r0 2 flatFile_accepted Nd S0 (from_here r0) T). lia.
Defined.

(** The chunk depends only on which chunk holds the position.  On a reader on
    an accepted container, when [SeekToChunkContaining d] and [NextChunk]
    have returned the chunk [c], the same two calls for any other position
    within [c]'s [DRange] return [c] as well; and [c] comes from a leaf slot
    (its TTag is not 0xFE). *)
Theorem seek_within_chunk (f : list byte) (r r1 r2 : Reader) (d d' : Z)
    (n : nat) (c : Chunk) :
  accepted f r ->
  SeekToChunkContaining d r = (None, r1) ->
  NextChunk n r1 = Done (c, None, r2) ->
  low (DRange c) <= d' < high (DRange c) ->
  TTag c <> 0xFE
  /\ exists r1' r2',
       SeekToChunkContaining d' r = (None, r1')
       /\ NextChunk n r1' = Done (c, None, r2').
Proof.
  intros A S N Hd'.
  unfold SeekToChunkContaining in S. rewrite (initialize_accepted f r A) in S.
  destruct (Z.ltb_spec d 0) as [Lt|Ge]; [discriminate S|]. injection S as <-.
  set (r1 := set_seekPosition d (set_needToResolveSeekPosition true r)) in *.
  assert (A1 : accepted f r1).
  { apply (accepted_sameFile f r); [exact A|constructor; reflexivity]. }
  unfold NextChunk in N. rewrite (initialize_accepted f r1 A1) in N.
  destruct n as [|m]; [discriminate N|].
  destruct (accepted_rootPos f r A) as (G0 & L0 & H0).
  destruct (Z.lt_ge_cases d (decompressedSize r)) as [Ld|Gd].
  2:{ cbn [nextChunkLoop] in N.
      change (needToResolveSeekPosition r1) with true in N.
      change (seekPosition r1) with d in N.
      change (decompressedSize r1) with (decompressedSize r) in N.
      destruct (Z.geb_spec d (decompressedSize r)); [discriminate N|lia]. }
  pose proof (nextChunkLoop_resolve f (S m) m r1 A1 eq_refl
                ltac:(change (0 <= d < decompressedSize r); lia)) as P.
  change (seekPosition r1) with d in P. change (rootPos r1) with (rootPos r) in P.
  destruct (descend f (S m) d (rootPos r)) as [[[q i]|]| |] eqn:ED.
  - destruct P as (r2' & P). rewrite P in N. injection N as <- <-.
    destruct (descend_leaf f (S m) d (rootPos r) q i G0 ltac:(lia) ED)
      as (Gq & Lq & Hq & Ri & Lf & Si & Same).
    pose proof (goodPos_nonneg f q i Gq Ri) as O.
    unfold chunk, dOffRange in Hd'. cbn [DRange low high] in Hd'.
    fold (slotLow f q i) in Hd'. fold (slotHigh f q i) in Hd'.
    split.
    + unfold chunk. cbn [TTag]. unfold isLeaf in Lf. unfold tTag.
      destruct (Z.eqb_spec (idx (nodeAt f (p_off q)) (8 * i + 7)) 254);
        [discriminate Lf|assumption].
    + set (r1' := set_seekPosition d' (set_needToResolveSeekPosition true r)).
      assert (A1' : accepted f r1').
      { apply (accepted_sameFile f r); [exact A|constructor; reflexivity]. }
      pose proof (nextChunkLoop_resolve f (S m) m r1' A1' eq_refl
                    ltac:(change (0 <= d' < decompressedSize r); lia)) as P'.
      change (seekPosition r1') with d' in P'.
      change (rootPos r1') with (rootPos r) in P'.
      rewrite (Same d' Hd') in P'. destruct P' as (r2'' & P').
      exists r1', r2''. split.
      * unfold SeekToChunkContaining. rewrite (initialize_accepted f r A).
        destruct (Z.ltb_spec d' 0); [lia|reflexivity].
      * unfold NextChunk. rewrite (initialize_accepted f r1' A1'). exact P'.
  - destruct P as (r2' & P). rewrite P in N. discriminate N.
  - contradiction.
  - rewrite P in N. discriminate N.
Qed.

Lemma seek_within_chunk_witness :
  let f := twoLevelFile in
  let r := openReader f in
  let r1 := snd (SeekToChunkContaining 250 r) in
  let c := chunk (nodeAt f 48) 1 0 0 in
  let r2 := match NextChunk 3 r1 with Done (_, _, x) => x | _ => r end in
  accepted f r /\ SeekToChunkContaining 250 r = (None, r1)
  /\ NextChunk 3 r1 = Done (c, None, r2)
  /\ DRange c = mkRange 200 500
  /\ exists r1' r2',
       SeekToChunkContaining 499 r = (None, r1')
       /\ NextChunk 3 r1' = Done (c, None, r2').
Proof.
  intros f r r1 c r2.
  assert (S : SeekToChunkContaining 250 r = (None, r1)) by (vm_compute; reflexivity).
  assert (N : NextChunk 3 r1 = Done (c, None, r2)) by (vm_compute; reflexivity).
  assert (D : DRange c = mkRange 200 500) by (vm_compute; reflexivity).
  split; [exact twoLevelFile_accepted|]. split; [exact S|]. split; [exact N|].
  split; [exact D|].
  apply (seek_within_chunk f r r1 r2 250 499 3 c twoLevelFile_accepted S N).
  rewrite D. cbn [low high]. lia.
Defined.

(** Reading on from any position.  On a reader on an accepted container,
    after [SeekToChunkContaining d] with [d] within the decompressed size,
    the chunks that [NextChunk] returns up to [io.EOF] start with the chunk
    that holds [d] and have [DRange]s that are non-empty and lie end to end
    from the start of that chunk to the decompressed size. *)
Theorem chunks_from_any_position (f : list byte) (r r1 r2 : Reader) (d : Z)
    (n fuel : nat) (cs : list Chunk) :
  accepted f r -> 0 <= d < decompressedSize r ->
  SeekToChunkContaining d r = (None, r1) ->
  readChunks n fuel r1 = Done (cs, io_EOF, r2) ->
  exists c0 rest,
    cs = c0 :: rest
    /\ low (DRange c0) <= d < high (DRange c0)
    /\ tiles (map DRange cs) (low (DRange c0)) (decompressedSize r).
Proof.
  intros A Hd S R.
  unfold SeekToChunkContaining in S. rewrite (initialize_accepted f r A) in S.
  destruct (Z.ltb_spec d 0) as [Lt|_]; [lia|]. injection S as <-.
  set (r1 := set_seekPosition d (set_needToResolveSeekPosition true r)) in *.
  assert (A1 : accepted f r1).
  { apply (accepted_sameFile f r); [exact A|constructor; reflexivity]. }
  destruct (accepted_rootPos f r A) as (G0 & L0 & H0).
  destruct n as [|n']; [discriminate R|]. cbn [readChunks] in R.
  unfold NextChunk in R. rewrite (initialize_accepted f r1 A1) in R.
  destruct fuel as [|m]; [discriminate R|].
  pose proof (nextChunkLoop_resolve f (S m) m r1 A1 eq_refl
                ltac:(change (0 <= d < decompressedSize r); lia)) as P.
  change (seekPosition r1) with d in P. change (rootPos r1) with (rootPos r) in P.
  destruct (descend f (S m) d (rootPos r)) as [[[q i]|]| |] eqn:ED.
  - clear P.
    destruct (nextChunkLoop_at_leaf f (S m) m r1 q i A1 eq_refl
                ltac:(change (0 <= d < decompressedSize r); lia) ED)
      as (r3 & E3 & SF & Nd3 & I3 & Ni & Sk).
    rewrite E3 in R.
    destruct (descend_leaf f (S m) d (rootPos r) q i G0 ltac:(lia) ED)
      as (Gq & Lq & Hq & Ri & _ & Si & _).
    pose proof (goodPos_nonneg f q i Gq Ri) as O.
    assert (T : tilingInv f r3).
    { split; [exact (accepted_sameFile f r1 r3 A1 SF)|].
      rewrite (sf_decompressedSize _ _ SF), (rootPos_sameFile _ _ SF).
      change (decompressedSize r1) with (decompressedSize r).
      change (rootPos r1) with (rootPos r).
      split; [lia|]. right. split; [exact Nd3|]. exists q.
      split; [exact I3|]. split; [rewrite Sk, Ni; reflexivity|]. split; [lia|].
      exact (noStraddle_reached f (S m) (rootPos r) d q i G0 L0 ltac:(lia) ED). }
    destruct (readChunks n' (S m) r3) as [[[rest e] r4]| |] eqn:RR; try discriminate R.
    injection R as <- -> <-.
    pose proof (readChunks_tiles f (S m) n' r3 rest r4 T RR) as Ti.
    rewrite Sk, (sf_decompressedSize _ _ SF) in Ti.
    change (decompressedSize r1) with (decompressedSize r) in Ti.
    eexists. exists rest. split; [reflexivity|].
    unfold chunk at 1 2, dOffRange at 1 2. cbn [DRange low high].
    fold (slotLow f q i). fold (slotHigh f q i).
    split; [exact Si|].
    cbn [map tiles]. unfold chunk at 1 2 3 4, dOffRange. cbn [DRange low high].
    fold (slotLow f q i). fold (slotHigh f q i).
    split; [reflexivity|]. split; [lia|exact Ti].
  - destruct P as (r3 & P). rewrite P in R. discriminate R.
  - contradiction.
  - rewrite P in R. discriminate R.
Qed.

Lemma chunks_from_any_position_witness :
  let f := twoLevelFile in
  let r := openReader f in
  let r1 := snd (SeekToChunkContaining 250 r) in
  let cs := match readChunks 5 3 r1 with Done (l, _, _) => l | _ => [] end in
  let r2 := match readChunks 5 3 r1 with Done (_, _, x) => x | _ => r end in
  accepted f r /\ 0 <= 250 < decompressedSize r
  /\ SeekToChunkContaining 250 r = (None, r1)
  /\ readChunks 5 3 r1 = Done (cs, io_EOF, r2)
  /\ map DRange cs = [mkRange 200 500; mkRange 500 600; mkRange 600 900]
  /\ exists c0 rest,
       cs = c0 :: rest /\ low (DRange c0) <= 250 < high (DRange c0)
       /\ tiles (map DRange cs) (low (DRange c0)) (decompressedSize r).
Proof.
  intros f r r1 cs r2.
  assert (D : 0 <= 250 < decompressedSize r) by (vm_compute; split; [discriminate|reflexivity]).
  assert (S : SeekToChunkContaining 250 r = (None, r1)) by (vm_compute; reflexivity).
  assert (R : readChunks 5 3 r1 = Done (cs, io_EOF, r2)) by (vm_compute; reflexivity).
  split; [exact twoLevelFile_accepted|]. split; [exact D|]. split; [exact S|].
  split; [exact R|]. split; [vm_compute; reflexivity|].
  exact (chunks_from_any_position f r r1 r2 250 5 3 cs twoLevelFile_accepted D S R).
Defined.
